(** * The node overlay of the SystemRDL compiler ([systemrdl/node.py])

    A shallow embedding of the query overlay over the compiled register
    model: node classification, address and size arithmetic, property
    resolution, and the construction and parsing of hierarchical paths.

    Python integers are unbounded and are modelled by [Z]; Python strings
    are modelled by [string], and the model of the pattern of
    [find_by_path] is exact on ASCII text: the classes [\w] and [\d] are
    given on the ASCII characters, and what the pattern rejects is stated
    for ASCII path parts only (on other text a [str] pattern also takes
    the letters and digits of Unicode).  A Python call that can raise is a
    function into [result]. *)

From Stdlib Require Import ZArith List String Ascii Bool Lia.
From Stdlib Require Import DecimalString DecimalPos DecimalN DecimalFacts.
From stdpp Require Import base option list gmap strings.

Import ListNotations.
Set Warnings "-register-all".
Local Open Scope string_scope.
Local Open Scope list_scope.
Local Open Scope Z_scope.

(** ** Exceptions and fallible computations *)

Inductive exn : Type :=
| ValueError
| IndexError
| LookupError
| TypeError
| AssertionError
| AttributeError
| RuntimeError
| NotImplementedError.

Inductive result (A : Type) : Type :=
| Ok (a : A)
| Raise (e : exn).

Arguments Ok {A} a.
Arguments Raise {A} e.

Definition rbind {A B : Type} (m : result A) (k : A -> result B) : result B :=
  match m with
  | Ok a => k a
  | Raise e => Raise e
  end.

Notation "'let!' x ':=' m 'in' k" := (rbind m (fun x => k))
  (at level 10, x name, m at level 100, k at level 200).

(** [x] where Python would fail on [None] with a [TypeError]. *)
Definition require {A : Type} (o : option A) : result A :=
  match o with
  | Some a => Ok a
  | None => Raise TypeError
  end.

Fixpoint rmap {A B : Type} (f : A -> result B) (l : list A) : result (list B) :=
  match l with
  | [] => Ok []
  | a :: l' => let! b := f a in let! bs := rmap f l' in Ok (b :: bs)
  end.

(** ** The component tree ([systemrdl.component]) *)

(** The concrete component classes; [type(inst)] is one of them. *)
Inductive CompKind : Type :=
| Field | Reg | Regfile | Addrmap | Mem | Signal | Root.

Global Instance CompKind_eq_dec : EqDecision CompKind.
Proof. solve_decision. Defined.

(** [isinstance(inst, comp.AddressableComponent)] *)
Definition is_addressable (k : CompKind) : bool :=
  match k with
  | Reg | Regfile | Addrmap | Mem => true
  | Field | Signal | Root => false
  end.

(** Modelled from the spec: the property value domain of the module
    [systemrdl.rdltypes].  Plain values, a hierarchical component reference,
    and a property reference; [VNodeRef] stands for a node overlay handed
    out as a value, named by its path. *)
Inductive Value : Type :=
| VNone
| VBool (b : bool)
| VInt (z : Z)
| VStr (s : string)
| VComponentRef (target : string)
| VPropertyReference (target : string) (prop : string)
| VNodeRef (path : string).

Global Instance Value_eq_dec : EqDecision Value.
Proof. solve_decision. Defined.

(** Python truthiness of a value. *)
Definition truthy (v : Value) : bool :=
  match v with
  | VNone => false
  | VBool b => b
  | VInt z => negb (z =? 0)
  | VStr s => negb (String.eqb s "")
  | _ => true
  end.

Definition as_int (v : Value) : result Z :=
  match v with
  | VInt z => Ok z
  | VBool b => Ok (if b then 1 else 0)
  | _ => Raise TypeError
  end.

(** A component instance.  The addressing fields are read only on
    addressable components, and the array fields only under [is_array]. *)
Inductive Component : Type := mkComponent {
  ctype : CompKind;
  inst_name : string;
  children : list Component;
  properties : gmap string Value;
  addr_offset : Z;
  is_array : bool;
  array_dimensions : option (list Z);
  array_stride : option Z
}.

Definition list_prod (l : list Z) : Z := fold_right Z.mul 1 l.

(** Modelled from the spec: [AddressableComponent.n_elements], the element
    count of the instance: the product of the array dimensions, 1 when the
    instance is not an array. *)
Definition n_elements (c : Component) : result Z :=
  if is_array c then
    let! dims := require (array_dimensions c) in Ok (list_prod dims)
  else Ok 1.

(** Modelled from the spec: [Component.get_child_by_name], the exact-name
    lookup among the immediate children (the first in structural order). *)
Definition comp_get_child_by_name (c : Component) (name : string) : option Component :=
  find (fun ch => String.eqb (inst_name ch) name) (children c).

(** ** The overlay *)

(** A node overlay.  Its Python class is the one [Node._factory] chooses for
    the component's class, and [RootNode] over the root component, so that
    [isinstance(node, C)] is a test on [ctype (inst node)]. [current_idx] is
    an attribute of addressable nodes only, and [None] elsewhere. *)
Inductive Node : Type := mkNode {
  inst : Component;
  parent : option Node;
  current_idx : option (list Z)
}.

Definition node_kind (n : Node) : CompKind := ctype (inst n).

Definition is_AddressableNode (n : Node) : bool := is_addressable (node_kind n).
Definition is_AddrmapNode (n : Node) : bool := bool_decide (node_kind n = Addrmap).
Definition is_RootNode (n : Node) : bool := bool_decide (node_kind n = Root).

(** [Node._factory] *)
Definition _factory (c : Component) (p : option Node) : result Node :=
  match ctype c with
  | Root => Raise RuntimeError
  | _ => Ok (mkNode c p None)
  end.

(** ** Addressing and array arithmetic *)

(** The address and size properties belong to [AddressableNode]; asking a
    node of another class for one of them is an [AttributeError]. *)
Definition addressable_only {A : Type} (n : Node) (r : result A) : result A :=
  if is_AddressableNode n then r else Raise AttributeError.

(** [raw_address_offset], on an addressable node *)
Definition raw_address_offset (n : Node) : Z := addr_offset (inst n).

(** The inner loop of [address_offset]:
    [sz = 1; for j in range(i+1, len(dims)): sz *= dims[j]]. *)
Definition dim_weight (dims : list Z) (i : nat) : Z :=
  fold_left (fun sz j => sz * nth j dims 0)
            (seq (S i) (length dims - S i)) 1.

(** The outer loop: [idx = 0; for i in range(len(cur)): idx += sz * cur[i]]. *)
Definition flat_index (cur dims : list Z) : Z :=
  fold_left (fun idx i => idx + dim_weight dims i * nth i cur 0)
            (seq 0 (length cur)) 0.

(** [address_offset].  The dimension list is read only inside the loop
    body, so only when the index list is not empty. *)
Definition address_offset (n : Node) : result Z :=
  addressable_only n
    (if is_array (inst n) then
       match current_idx n with
       | None => Raise ValueError
       | Some cur =>
           let! idx := match cur with
                       | [] => Ok 0
                       | _ => let! dims := require (array_dimensions (inst n)) in
                              Ok (flat_index cur dims)
                       end in
           let! stride := require (array_stride (inst n)) in
           Ok (raw_address_offset n + idx * stride)
       end
     else Ok (raw_address_offset n)).

(** [absolute_address] *)
Fixpoint absolute_address (n : Node) : result Z :=
  addressable_only n
    match parent n with
    | Some p =>
        if is_RootNode p then address_offset n
        else if is_AddressableNode p then
          let! a := absolute_address p in let! o := address_offset n in Ok (a + o)
        else Raise AssertionError
    | None => address_offset n
    end.

(** [raw_absolute_address] *)
Fixpoint raw_absolute_address (n : Node) : result Z :=
  addressable_only n
    match parent n with
    | Some p =>
        if is_RootNode p then Ok (raw_address_offset n)
        else if is_AddressableNode p then
          let! a := raw_absolute_address p in Ok (a + raw_address_offset n)
        else Raise AssertionError
    | None => Ok (raw_address_offset n)
    end.

(** [owning_addrmap] *)
Fixpoint owning_addrmap (n : Node) : result (option Node) :=
  if is_AddrmapNode n then Ok (Some n)
  else if is_RootNode n then Ok None
  else match parent n with
       | Some p => owning_addrmap p
       | None => Raise AssertionError
       end.

(** ** Properties *)

(** A rule of the property rulebook: the component classes it binds to and
    the default it computes for a node (which may fail). *)
Record PropertyRule : Type := mkRule {
  bindable_to : list CompKind;
  get_default : Node -> result Value
}.

(** The shared environment: [env.property_rules.lookup_property] and the
    [dedent_desc] switch. *)
Record RDLEnvironment : Type := mkEnv {
  lookup_property : string -> option PropertyRule;
  dedent_desc : bool
}.

(** The functions of the modules [rdltypes] and [core.helpers] that the
    overlay calls, taken as given: [ComponentRef.build_node_ref],
    [PropertyReference._resolve_node] (the reference, bound to the
    resolving node), [helpers.dedent_text] and [helpers.roundup_pow2]. *)
Record Library : Type := mkLibrary {
  build_node_ref : Value -> Node -> result Value;
  _resolve_node : Value -> Node -> Value;
  dedent_text : Value -> result Value;
  roundup_pow2 : Z -> Z
}.

Definition is_ComponentRef (v : Value) : bool :=
  match v with VComponentRef _ => true | _ => false end.

Definition is_PropertyReference (v : Value) : bool :=
  match v with VPropertyReference _ _ => true | _ => false end.

Section Overlay.

Context (env : RDLEnvironment) (lib : Library).

(** The first branch of [get_property]: what is handed out for a value
    found in the component's own property map. *)
Definition explicit_value (n : Node) (prop_name : string) (prop_value : Value)
  : result Value :=
  if is_ComponentRef prop_value then build_node_ref lib prop_value n
  else if is_PropertyReference prop_value then Ok (_resolve_node lib prop_value n)
  else if String.eqb prop_name "desc" && dedent_desc env then dedent_text lib prop_value
  else Ok prop_value.

(** [get_property(prop_name, **kwargs)] *)
Definition get_property (n : Node) (prop_name : string) (kwargs : gmap string Value)
  : result Value :=
  let default := kwargs !! "default" in
  let kwargs := delete "default" kwargs in
  if negb (bool_decide (kwargs = ∅)) then Raise TypeError
  else
    match properties (inst n) !! prop_name with
    | Some prop_value => explicit_value n prop_name prop_value
    | None =>
        match default with
        | Some d => Ok d
        | None =>
            match lookup_property env prop_name with
            | None => Raise LookupError
            | Some rule =>
                if negb (bool_decide (node_kind n ∈ bindable_to rule))
                then Raise LookupError
                else get_default rule n
            end
        end
    end.

(** ** Sizes *)

(** [total_size] of an addressable component, over the result of [size]
    for the same node. *)
Definition total_size_of (c : Component) (size : result Z) : result Z :=
  if is_array c then
    let! stride := require (array_stride c) in
    let! n := n_elements c in
    Ok (stride * n)
  else size.

(** [RegNode.size] *)
Definition reg_size (n : Node) : result Z :=
  let! v := get_property n "regwidth" ∅ in
  let! regwidth := as_int v in
  Ok (regwidth `div` 8).

(** [MemNode.size] *)
Definition mem_size (n : Node) : result Z :=
  let! v := get_property n "memwidth" ∅ in
  let! w := as_int v in
  let memwidth := Z.max w 8 in
  let entry_size := roundup_pow2 lib memwidth `div` 8 in
  let! v := get_property n "mementries" ∅ in
  let! num_entries := as_int v in
  Ok (entry_size * num_entries).

(** [size], by recursion on the component under the overlay: a register
    file or address map asks for the total size of its last child, wrapped
    in a new overlay whose parent is this node. *)
Fixpoint size_at (c : Component) (p : option Node) (ci : option (list Z))
  {struct c} : result Z :=
  let self := mkNode c p ci in
  match ctype c with
  | Reg => reg_size self
  | Mem => mem_size self
  | Regfile | Addrmap =>
      (fix last_child (l : list Component) : result Z :=
         match l with
         | [] => Ok 0
         | [x] =>
             if negb (is_addressable (ctype x)) then Ok 0
             else
               let! t := total_size_of x (size_at x (Some self) None) in
               Ok (addr_offset x + t)
         | _ :: l' => last_child l'
         end) (children c)
  | Field | Signal | Root => Raise AttributeError
  end.

Definition size (n : Node) : result Z :=
  size_at (inst n) (parent n) (current_idx n).

(** [total_size] *)
Definition total_size (n : Node) : result Z :=
  addressable_only n
    (if is_array (inst n) then
       let! stride := require (array_stride (inst n)) in
       let! k := n_elements (inst n) in
       Ok (stride * k)
     else size n).

(** [get_group_node_size] *)
Definition get_group_node_size (node : Node) : result Z :=
  match last (children (inst node)) with
  | None => Ok 0
  | Some last_child =>
      if negb (is_addressable (ctype last_child)) then Ok 0
      else
        let! last_child_node := _factory last_child (Some node) in
        let! t := total_size last_child_node in
        Ok (raw_address_offset last_child_node + t)
  end.

End Overlay.

(** ** Navigation *)

(** [range(n)] *)
Definition range (n : Z) : list Z := map Z.of_nat (seq 0 (Z.to_nat n)).

(** [itertools.product] over the lists [ls]: the tuples of the cartesian
    product, the rightmost position advancing on every step. *)
Fixpoint product (ls : list (list Z)) : list (list Z) :=
  match ls with
  | [] => [[]]
  | l :: ls' => flat_map (fun x => map (cons x) (product ls')) l
  end.

(** [child_inst.properties.get('ispresent', True)] is false *)
Definition not_present (c : Component) : bool :=
  negb (truthy (default (VBool true) (properties c !! "ispresent"))).

(** The overlays one child instance contributes to [children]. *)
Definition child_nodes (self : Node) (unroll : bool) (child_inst : Component)
  : result (list Node) :=
  if unroll && is_addressable (ctype child_inst) && is_array child_inst then
    match array_dimensions child_inst with
    | None => Raise AssertionError
    | Some dims =>
        rmap (fun idxs =>
                let! N := _factory child_inst (Some self) in
                Ok (mkNode (inst N) (parent N) (Some idxs)))
             (product (map range dims))
    end
  else
    let! N := _factory child_inst (Some self) in Ok [N].

(** [children(unroll, skip_not_present)]: the sequence the generator yields
    when it is run to its end, or the exception that ends it. *)
Fixpoint children_of (self : Node) (unroll skip_not_present : bool)
  (insts : list Component) : result (list Node) :=
  match insts with
  | [] => Ok []
  | child_inst :: rest =>
      if skip_not_present && not_present child_inst
      then children_of self unroll skip_not_present rest
      else
        let! ns := child_nodes self unroll child_inst in
        let! more := children_of self unroll skip_not_present rest in
        Ok (ns ++ more)
  end.

Definition node_children (self : Node) (unroll skip_not_present : bool)
  : result (list Node) :=
  children_of self unroll skip_not_present (children (inst self)).

(** [get_child_by_name] *)
Definition get_child_by_name (self : Node) (name : string) : result (option Node) :=
  match comp_get_child_by_name (inst self) name with
  | None => Ok None
  | Some child_inst =>
      let! N := _factory child_inst (Some self) in Ok (Some N)
  end.

(** ** Path construction *)

(** The two suffix templates of the path functions.  A template is used
    only through [str.format] with the keywords [index] and [dim], and is
    modelled by the function it denotes. *)
Record SuffixFormat : Type := mkFormat {
  array_suffix : Z -> Z -> string;
  empty_array_suffix : Z -> string
}.

(** ["{:d}".format(z)] *)
Definition format_d (z : Z) : string := NilZero.string_of_int (Z.to_int z).

(** The defaults ["[{index:d}]"] and ["[]"]. *)
Definition default_format : SuffixFormat :=
  {| array_suffix := fun index _ => "[" +:+ format_d index +:+ "]";
     empty_array_suffix := fun _ => "[]" |}.

Definition concat_strings (l : list string) : string :=
  fold_right String.append "" l.

(** [zip] of the index list and the dimension list *)
Fixpoint zip_idx (cur dims : list Z) : list (Z * Z) :=
  match cur, dims with
  | i :: cur', d :: dims' => (i, d) :: zip_idx cur' dims'
  | _, _ => []
  end.

(** [get_path_segment], in [Node] and as extended by [AddressableNode]. *)
Definition get_path_segment (fmt : SuffixFormat) (n : Node) : result string :=
  if is_AddressableNode n && is_array (inst n) then
    let! dims := require (array_dimensions (inst n)) in
    match current_idx n with
    | None =>
        Ok (inst_name (inst n) +:+
            concat_strings (map (empty_array_suffix fmt) dims))
    | Some cur =>
        Ok (inst_name (inst n) +:+
            concat_strings (map (fun '(idx, dim) => array_suffix fmt idx dim)
                                (zip_idx cur dims)))
    end
  else Ok (inst_name (inst n)).

(** [get_path_segments] *)
Fixpoint get_path_segments (fmt : SuffixFormat) (n : Node) : result (list string) :=
  match parent n with
  | Some p =>
      if negb (is_RootNode p) then
        let! segs := get_path_segments fmt p in
        let! seg := get_path_segment fmt n in
        Ok (segs ++ [seg])
      else if negb (is_RootNode n) then
        let! seg := get_path_segment fmt n in Ok [seg]
      else Ok []
  | None =>
      if negb (is_RootNode n) then
        let! seg := get_path_segment fmt n in Ok [seg]
      else Ok []
  end.

(** [sep.join(segs)] *)
Fixpoint join (sep : string) (segs : list string) : string :=
  match segs with
  | [] => ""
  | [s] => s
  | s :: rest => s +:+ sep +:+ join sep rest
  end.

(** [get_path] *)
Definition get_path_with (hier_separator : string) (fmt : SuffixFormat) (n : Node)
  : result string :=
  let! segs := get_path_segments fmt n in
  Ok (join hier_separator segs).

Definition get_path (n : Node) : result string := get_path_with "." default_format n.

(** [__eq__]: two nodes are equal when their paths are. *)
Definition node_eq (a b : Node) : result bool :=
  let! pa := get_path a in
  let! pb := get_path b in
  Ok (String.eqb pa pb).

(** The loop of [get_rel_path] that pops the common leading segments, and
    the segments left of the reference and of the formatted list. *)
Fixpoint pop_common (ref_segs self_segs self_segs_fmt : list string)
  : result (list string * list string) :=
  match ref_segs, self_segs with
  | r :: ref_segs', s :: self_segs' =>
      if String.eqb r s then
        match self_segs_fmt with
        | [] => Raise IndexError
        | _ :: self_segs_fmt' => pop_common ref_segs' self_segs' self_segs_fmt'
        end
      else Ok (ref_segs, self_segs_fmt)
  | _, _ => Ok (ref_segs, self_segs_fmt)
  end.

(** [get_rel_path] *)
Definition get_rel_path_with (uplevel hier_separator : string) (fmt : SuffixFormat)
  (self ref : Node) : result string :=
  let! ref_segs := get_path_segments default_format ref in
  let! self_segs := get_path_segments default_format self in
  let! self_segs_fmt := get_path_segments fmt self in
  let! left := pop_common ref_segs self_segs self_segs_fmt in
  Ok (join hier_separator (repeat uplevel (length left.1) ++ left.2)).

Definition get_rel_path (self ref : Node) : result string :=
  get_rel_path_with "^" "." default_format self ref.

(** ** Path parsing *)

(** [s.split(sep)] for a separator of one character *)
Fixpoint split (sep : ascii) (s : string) : list string :=
  match s with
  | "" => [""]
  | String c s' =>
      if Ascii.eqb c sep then "" :: split sep s'
      else match split sep s' with
           | seg :: segs => String c seg :: segs
           | [] => [String c ""]
           end
  end.

Definition in_range (lo hi c : ascii) : bool :=
  (N_of_ascii lo <=? N_of_ascii c)%N && (N_of_ascii c <=? N_of_ascii hi)%N.

(** The classes [\d], [[\da-fA-F]] and [\w], on the ASCII characters.  The
    pattern is a [str] pattern compiled without [re.ASCII], so outside
    ASCII its [\w] and [\d] match the letters and decimal digits of Unicode
    as well; the statements that depend on a part being rejected are made
    for parts of ASCII characters ([is_ascii] below). *)
Definition is_digit (c : ascii) : bool := in_range "0" "9" c.

Definition is_hexdigit (c : ascii) : bool :=
  is_digit c || in_range "a" "f" c || in_range "A" "F" c.

Definition is_word (c : ascii) : bool :=
  is_digit c || in_range "a" "z" c || in_range "A" "Z" c || Ascii.eqb c "_".

Fixpoint all_chars (p : ascii -> bool) (s : string) : bool :=
  match s with
  | "" => true
  | String c s' => p c && all_chars p s'
  end.

(** [\d+] *)
Definition is_dec_literal (s : string) : bool :=
  negb (String.eqb s "") && all_chars is_digit s.

(** What follows a leading [0x] or [0X], if the string starts so. *)
Definition hex_body (s : string) : option string :=
  match s with
  | String a (String x h) =>
      if Ascii.eqb a "0" && (Ascii.eqb x "x" || Ascii.eqb x "X")
      then Some h else None
  | _ => None
  end.

(** [0[xX][\da-fA-F]+] *)
Definition is_hex_literal (s : string) : bool :=
  match hex_body s with
  | Some h => negb (String.eqb h "") && all_chars is_hexdigit h
  | None => false
  end.

Definition is_index_literal (s : string) : bool :=
  is_dec_literal s || is_hex_literal s.

(** The longest leading run of word characters, and what follows it. *)
Fixpoint span_word (s : string) : string * string :=
  match s with
  | "" => ("", "")
  | String c s' =>
      if is_word c then
        let (w, r) := span_word s' in (String c w, r)
      else ("", s)
  end.

(** The second group of the pattern: a run of bracketed index literals up to
    the end of the string; [lit] is the literal being read, if a bracket is
    open.  The result lists the literals, as [re.findall] does. *)
Fixpoint index_groups (s : string) (lit : option string) : option (list string) :=
  match s, lit with
  | "", None => Some []
  | "", Some _ => None
  | String c s', None =>
      if Ascii.eqb c "[" then index_groups s' (Some "") else None
  | String c s', Some l =>
      if Ascii.eqb c "]" then
        if is_index_literal l then
          match index_groups s' None with
          | Some ls => Some (l :: ls)
          | None => None
          end
        else None
      else index_groups s' (Some (l +:+ String c ""))
  end.

(** [re.fullmatch] of a path part against the pattern of [find_by_path]:
    group 1 is [\w+], group 2 any number of repetitions of
    [\[(?:\d+|0[xX][\da-fA-F]+)\]].  The result is the instance name and
    the index literals, or [None] when the part does not match. *)
Definition match_segment (pathpart : string) : option (string * list string) :=
  let (name, array_suffix) := span_word pathpart in
  if String.eqb name "" then None
  else
    match index_groups array_suffix None with
    | Some lits => Some (name, lits)
    | None => None
    end.

Definition hex_digit_value (c : ascii) : Z :=
  let n := Z.of_N (N_of_ascii c) in
  if is_digit c then n - 48
  else if in_range "a" "f" c then n - 87
  else n - 55.

Fixpoint hex_value (s : string) (acc : Z) : Z :=
  match s with
  | "" => acc
  | String c s' => hex_value s' (16 * acc + hex_digit_value c)
  end.

Definition starts_with_zero (s : string) : bool :=
  match s with
  | String a _ => Ascii.eqb a "0"
  | "" => false
  end.

(** [int(lit, 0)] on the literals the pattern lets through.  With base 0 a
    literal is read as a Python literal: [0x] announces hexadecimal digits,
    and a decimal literal that starts with [0] must be zero.  The value is
    computed without bound.  An interpreter that limits the length of
    decimal conversions ([sys.int_max_str_digits], CPython from 3.11 on)
    raises [ValueError] on a longer decimal literal; the limit is never
    set below [sys.int_info.str_digits_check_threshold], and the statements
    that depend on the value read are made for literals within that length
    ([within_threshold] below). *)
Definition int0 (lit : string) : result Z :=
  match hex_body lit with
  | Some h =>
      if negb (String.eqb h "") && all_chars is_hexdigit h
      then Ok (hex_value h 0)
      else Raise ValueError
  | None =>
      match NilZero.uint_of_string lit with
      | Some d =>
          if starts_with_zero lit && negb (N.of_uint d =? 0)%N
          then Raise ValueError
          else Ok (Z.of_N (N.of_uint d))
      | None => Raise ValueError
      end
  end.

(** The loop of [find_by_path] that fills [current_idx]. *)
Fixpoint check_indexes (idx_list dims : list Z) : result (list Z) :=
  match idx_list, dims with
  | [], _ => Ok []
  | idx :: idx_list', d :: dims' =>
      if d <=? idx then Raise IndexError
      else let! cur := check_indexes idx_list' dims' in Ok (idx :: cur)
  | _ :: _, [] => Raise IndexError
  end.

(** The body of [if idx_list:] in [find_by_path]. *)
Definition index_child (child : Node) (idx_list : list Z) : result Node :=
  if negb (is_AddressableNode child) then Raise IndexError
  else if is_array (inst child) then
    let! dims := require (array_dimensions (inst child)) in
    if negb (length idx_list =? length dims)%nat then Raise IndexError
    else
      let! cur := check_indexes idx_list dims in
      Ok (mkNode (inst child) (parent child) (Some cur))
  else Raise IndexError.

(** The loop of [find_by_path] over the path parts. *)
Fixpoint find_parts (current_node : Node) (pathparts : list string)
  : result (option Node) :=
  match pathparts with
  | [] => Ok (Some current_node)
  | pathpart :: rest =>
      if String.eqb pathpart "^" then
        find_parts (default current_node (parent current_node)) rest
      else
        match match_segment pathpart with
        | None => Raise ValueError
        | Some (name, lits) =>
            let! idx_list := rmap int0 lits in
            let! found := get_child_by_name current_node name in
            match found with
            | None => Ok None
            | Some child =>
                let! child := match idx_list with
                              | [] => Ok child
                              | _ => index_child child idx_list
                              end in
                find_parts child rest
            end
        end
  end.

(** [find_by_path] *)
Definition find_by_path (self : Node) (path : string) : result (option Node) :=
  find_parts self (split "." path).

(** ** Notions of the statements *)

Definition sum_list (l : list Z) : Z := fold_right Z.add 0 l.

(** The row-major formula, in the words of the specification:
    [Σ_k I_k × Π(S_(k+1) .. S_(n-1))], every index weighing the product of
    the dimensions to its right. *)
Definition row_major (idx dims : list Z) : Z :=
  sum_list (map (fun k => nth k idx 0 * list_prod (skipn (S k) dims))
                (seq 0 (length idx))).

(** The overlays above a node, the node first, up to the root overlay
    (which has no address and is left out). *)
Fixpoint lineage (n : Node) : list Node :=
  match parent n with
  | Some p => if is_RootNode p then [n] else n :: lineage p
  | None => [n]
  end.

(** The sum of [address_offset] over a list of overlays, the last first. *)
Fixpoint sum_address_offsets (l : list Node) : result Z :=
  match l with
  | [] => Ok 0
  | m :: l' =>
      let! a := sum_address_offsets l' in
      let! o := address_offset m in
      Ok (a + o)
  end.

(** The array fields of a component are filled in when it is an array. *)
Definition array_ok (c : Component) : Prop :=
  is_array c = true ->
  is_Some (array_dimensions c) /\ is_Some (array_stride c).

(** A node whose parent chain ends in the root overlay. *)
Inductive reaches_root : Node -> Prop :=
| reaches_here n : is_RootNode n = true -> reaches_root n
| reaches_up n p : parent n = Some p -> reaches_root p -> reaches_root n.

(** The suffix the default templates give to a known index, and to an
    unknown one. *)
Definition known_suffix (idxs : list Z) : string :=
  concat_strings (map (fun i => "[" +:+ format_d i +:+ "]") idxs).

Definition unknown_suffix (dims : list Z) : string :=
  concat_strings (map (fun _ : Z => "[]") dims).

(** The characters other than [x]. *)
Definition not_char (x : ascii) (c : ascii) : bool := negb (Ascii.eqb c x).

(** An instance name the pattern of [find_by_path] accepts. *)
Definition valid_name (s : string) : Prop :=
  s <> "" /\ all_chars is_word s = true.

(** A string that is empty or starts outside the word characters. *)
Definition starts_outside_word (s : string) : Prop :=
  match s with
  | "" => True
  | String c _ => is_word c = false
  end.







(** ** The overlays of a tree *)

(** The root overlay: a [RootNode] without parent. *)
Definition root_ok (root : Node) : Prop :=
  is_RootNode root = true /\ parent root = None.

(** A component below the root, as elaboration leaves it: its name is an
    identifier, and when it is an addressable array its dimensions are
    listed and there is at least one. *)
Definition comp_ok (c : Component) : Prop :=
  ctype c <> Root /\
  valid_name (inst_name c) /\
  (is_addressable (ctype c) && is_array c = true ->
   exists dims, array_dimensions c = Some dims /\ dims <> []).

(** The invariant of [current_idx]: unknown, or one index within the bound
    of each dimension of an addressable array. *)
Definition index_state_ok (c : Component) (ci : option (list Z)) : Prop :=
  match ci with
  | None => True
  | Some idxs =>
      is_addressable (ctype c) && is_array c = true /\
      exists dims, array_dimensions c = Some dims /\
                   Forall2 (fun i d => 0 <= i < d) idxs dims
  end.

(** The index of an array overlay is known. *)
Definition index_known (c : Component) (ci : option (list Z)) : Prop :=
  is_addressable (ctype c) && is_array c = true -> is_Some ci.

(** The path segment of an overlay of [c] with the index state [ci], under
    the default templates. *)
Definition segment_of (c : Component) (ci : option (list Z)) : string :=
  inst_name c +:+
  (if is_addressable (ctype c) && is_array c then
     match ci with
     | None => unknown_suffix (default [] (array_dimensions c))
     | Some idxs => known_suffix idxs
     end
   else "").

(** [reach known A N segs]: the overlay [N] is [A] or lies below it, each
    step going from an overlay to an overlay of the child that
    [get_child_by_name] finds under the child's name (sibling names are
    unique), and [segs] are the path segments from [A] down to [N].  With
    [known] every array overlay below [A] has a known index. *)
Inductive reach (known : bool) (A : Node) : Node -> list string -> Prop :=
| reach_here : reach known A A []
| reach_child p segs c ci :
    reach known A p segs ->
    comp_get_child_by_name (inst p) (inst_name c) = Some c ->
    comp_ok c ->
    index_state_ok c ci ->
    (known = true -> index_known c ci) ->
    reach known A (mkNode c (Some p) ci) (segs ++ [segment_of c ci]).

(** Two ways that part at once: their first segments differ, when both
    have one.  Below the last overlay that two nodes share by path, the
    ways down to them diverge. *)
Definition diverge (r s : list string) : Prop :=
  match r, s with
  | x :: _, y :: _ => x <> y
  | _, _ => True
  end.

(** ** A sample register model *)

Definition plain (k : CompKind) (name : string) (props : gmap string Value)
  (ch : list Component) (off : Z) : Component :=
  mkComponent k name ch props off false None None.

Definition array_of (k : CompKind) (name : string) (props : gmap string Value)
  (ch : list Component) (off : Z) (dims : list Z) (stride : Z) : Component :=
  mkComponent k name ch props off true (Some dims) (Some stride).

Definition reg_a : Component := plain Reg "a" {[ "regwidth" := VInt 32 ]} [] 0.
Definition reg_b : Component := array_of Reg "b" ∅ [] 4 [2; 3] 4.
Definition reg_w : Component := plain Reg "w" {[ "regwidth" := VInt 64 ]} [] 4.
Definition rf_c : Component := array_of Regfile "rf" ∅ [reg_a; reg_b] 256 [2] 64.
Definition grp_c : Component := plain Regfile "grp" ∅ [reg_a; reg_w] 1024.
Definition top_c : Component := plain Addrmap "top" ∅ [reg_a; rf_c; grp_c] 0.
Definition root_c : Component := plain Root "root" ∅ [top_c] 0.

Definition root_n : Node := mkNode root_c None None.
Definition top_n : Node := mkNode top_c (Some root_n) None.
Definition a_n : Node := mkNode reg_a (Some top_n) None.
Definition rf_1 : Node := mkNode rf_c (Some top_n) (Some [1]).
Definition rf_unknown : Node := mkNode rf_c (Some top_n) None.
Definition b_12 : Node := mkNode reg_b (Some rf_1) (Some [1; 2]).
Definition b_12_under_unknown : Node := mkNode reg_b (Some rf_unknown) (Some [1; 2]).
Definition a_under_unknown : Node := mkNode reg_a (Some rf_unknown) None.
Definition grp_n : Node := mkNode grp_c (Some top_n) None.
Definition sig_s : Component := plain Signal "s" ∅ [] 0.
Definition empty_n : Node := mkNode (plain Regfile "empty" ∅ [] 0) (Some top_n) None.
Definition signals_n : Node :=
  mkNode (plain Regfile "sigs" ∅ [reg_a; sig_s] 0) (Some top_n) None.

Definition reg_m : Component := array_of Reg "m" ∅ [] 16 [2; 2] 4.
Definition mat_c : Component := plain Addrmap "mat" ∅ [reg_a; reg_m; reg_w] 0.
Definition mat_n : Node := mkNode mat_c None None.

(** A rulebook with the register width, bound to registers only. *)
Definition regwidth_rule : PropertyRule :=
  {| bindable_to := [Reg]; get_default := fun _ => Ok (VInt 32) |}.

Definition sample_rules (name : string) : option PropertyRule :=
  if String.eqb name "regwidth" then Some regwidth_rule else None.

Definition sample_env : RDLEnvironment :=
  {| lookup_property := sample_rules; dedent_desc := false |}.

Definition sample_lib : Library :=
  {| build_node_ref := fun v _ => Ok v;
     _resolve_node := fun v _ => v;
     dedent_text := fun v => Ok v;
     roundup_pow2 := fun z => 2 ^ Z.log2_up z |}.






(** ** Further operations of the overlay *)

Definition is_FieldNode (n : Node) : bool := bool_decide (node_kind n = Field).
Definition is_SignalNode (n : Node) : bool := bool_decide (node_kind n = Signal).
Definition is_RegNode (n : Node) : bool := bool_decide (node_kind n = Reg).
Definition is_MemNode (n : Node) : bool := bool_decide (node_kind n = Mem).

(** The body of [clear_lineage_index], on the node and up through its
    addressable parents; the node it leaves behind. *)
Fixpoint clear_lineage (n : Node) : Node :=
  mkNode (inst n)
         match parent n with
         | Some p => Some (if is_AddressableNode p then clear_lineage p else p)
         | None => None
         end
         (if is_array (inst n) then None else current_idx n).

(** [clear_lineage_index] *)
Definition clear_lineage_index (n : Node) : result Node :=
  addressable_only n (Ok (clear_lineage n)).

(** The body of [zero_lineage_index]: [[0] * len(array_dimensions)] on
    every array, upwards. *)
Fixpoint zero_lineage (n : Node) : result Node :=
  let! ci := if is_array (inst n) then
               let! dims := require (array_dimensions (inst n)) in
               Ok (Some (repeat 0 (length dims)))
             else Ok (current_idx n) in
  let! p := match parent n with
            | Some p =>
                if is_AddressableNode p then
                  let! p' := zero_lineage p in Ok (Some p')
                else Ok (Some p)
            | None => Ok None
            end in
  Ok (mkNode (inst n) p ci).

(** [zero_lineage_index] *)
Definition zero_lineage_index (n : Node) : result Node :=
  addressable_only n (zero_lineage n).

(** [descendants(unroll, skip_not_present, in_post_order)], run to its
    end.  The walk goes by the component under the overlay: the overlays of
    one child instance all lie over that instance. *)
Fixpoint descendants_at (c : Component) (self : Node)
  (unroll skip_not_present in_post_order : bool) {struct c} : result (list Node) :=
  (fix walk (insts : list Component) : result (list Node) :=
     match insts with
     | [] => Ok []
     | child_inst :: rest =>
         if skip_not_present && not_present child_inst then walk rest
         else
           let! ns := child_nodes self unroll child_inst in
           let! sub :=
             (fix each (ns : list Node) : result (list Node) :=
                match ns with
                | [] => Ok []
                | child :: ns' =>
                    let! d := descendants_at child_inst child unroll
                                skip_not_present in_post_order in
                    let! more := each ns' in
                    Ok ((if in_post_order then d ++ [child] else child :: d) ++ more)
                end) ns in
           let! more := walk rest in
           Ok (sub ++ more)
     end) (children c).

Definition descendants (self : Node) (unroll skip_not_present in_post_order : bool)
  : result (list Node) :=
  descendants_at (inst self) self unroll skip_not_present in_post_order.

(** [signals], [fields] and [registers], run to their end *)
Definition signals (self : Node) (skip_not_present : bool) : result (list Node) :=
  let! ch := node_children self false skip_not_present in
  Ok (List.filter is_SignalNode ch).

Definition fields (self : Node) (skip_not_present : bool) : result (list Node) :=
  let! ch := node_children self false skip_not_present in
  Ok (List.filter is_FieldNode ch).

Definition registers (self : Node) (unroll skip_not_present : bool)
  : result (list Node) :=
  let! ch := node_children self unroll skip_not_present in
  Ok (List.filter is_RegNode ch).

(** The loop of [RootNode.top] over the child instances; it stops at the
    first address map and does not look at the children after it. *)
Fixpoint first_addrmap (self : Node) (insts : list Component) : result Node :=
  match insts with
  | [] => Raise RuntimeError
  | child_inst :: rest =>
      let! child := _factory child_inst (Some self) in
      if negb (is_AddrmapNode child) then first_addrmap self rest
      else Ok child
  end.

(** [RootNode.top] *)
Definition top (self : Node) : result Node :=
  if is_RootNode self then first_addrmap self (children (inst self))
  else Raise AttributeError.

(** [RegNode.is_virtual] *)
Definition reg_is_virtual (n : Node) : result bool :=
  if is_RegNode n then
    Ok match parent n with
       | Some p => is_MemNode p
       | None => false
       end
  else Raise AttributeError.

(** [FieldNode.is_virtual] *)
Definition field_is_virtual (n : Node) : result bool :=
  if is_FieldNode n then
    match parent n with
    | Some p => if is_RegNode p then reg_is_virtual p else Raise AssertionError
    | None => Raise AssertionError
    end
  else Raise AttributeError.

(** Modelled from the spec: the members of the access-type enumeration
    [rdltypes.AccessType] that the overlay names, as values of the property
    domain. *)
Record AccessTypes : Type := mkAccess {
  acc_rw : Value;
  acc_rw1 : Value;
  acc_r : Value;
  acc_w : Value;
  acc_w1 : Value
}.

(** [v in (a, b, ...)] *)
Definition py_in (v : Value) (l : list Value) : bool := bool_decide (v ∈ l).

(** [v is not None] *)
Definition is_not_None (v : Value) : bool :=
  match v with VNone => false | _ => true end.

Section Fields.

Context (env : RDLEnvironment) (lib : Library) (acc : AccessTypes).

Definition field_only {A : Type} (n : Node) (r : result A) : result A :=
  if is_FieldNode n then r else Raise AttributeError.

(** [FieldNode.is_sw_writable] *)
Definition is_sw_writable (n : Node) : result bool :=
  field_only n
    (let! sw := get_property env lib n "sw" ∅ in
     Ok (py_in sw [acc_rw acc; acc_rw1 acc; acc_w acc; acc_w1 acc])).

(** [FieldNode.is_sw_readable] *)
Definition is_sw_readable (n : Node) : result bool :=
  field_only n
    (let! sw := get_property env lib n "sw" ∅ in
     Ok (py_in sw [acc_rw acc; acc_rw1 acc; acc_r acc])).

(** [FieldNode.is_hw_writable] *)
Definition is_hw_writable (n : Node) : result bool :=
  field_only n
    (let! hw := get_property env lib n "hw" ∅ in
     Ok (py_in hw [acc_rw acc; acc_rw1 acc; acc_w acc; acc_w1 acc])).

(** [FieldNode.is_hw_readable] *)
Definition is_hw_readable (n : Node) : result bool :=
  field_only n
    (let! hw := get_property env lib n "hw" ∅ in
     Ok (py_in hw [acc_rw acc; acc_rw1 acc; acc_r acc])).

(** [FieldNode.is_volatile]: a chain of [or], which hands out the first
    operand that is true, or the last one. *)
Definition is_volatile (n : Node) : result Value :=
  field_only n
    (let! hw := get_property env lib n "hw" ∅ in
     if py_in hw [acc_rw acc; acc_rw1 acc; acc_w acc; acc_w1 acc]
     then Ok (VBool true)
     else
       let! counter := get_property env lib n "counter" ∅ in
       if truthy counter then Ok counter
       else
         let! next := get_property env lib n "next" ∅ in
         if is_not_None next then Ok (VBool true)
         else
           let! hwset := get_property env lib n "hwset" ∅ in
           if truthy hwset then Ok hwset
           else get_property env lib n "hwclr" ∅).

(** [FieldNode.implements_storage] *)
Definition implements_storage (n : Node) : result bool :=
  field_only n
    (let! sw := get_property env lib n "sw" ∅ in
     let! hw := get_property env lib n "hw" ∅ in
     if py_in sw [acc_rw acc; acc_rw1 acc] then Ok true
     else if bool_decide (hw = acc_rw acc) then Ok true
     else if py_in sw [acc_w acc; acc_w1 acc] && bool_decide (hw = acc_r acc)
     then Ok true
     else
       let! onread := get_property env lib n "onread" ∅ in
       if is_not_None onread then Ok true
       else
         let! hwset := get_property env lib n "hwset" ∅ in
         let! set_or_clr := if truthy hwset then Ok hwset
                            else get_property env lib n "hwclr" ∅ in
         if truthy set_or_clr then Ok true else Ok false).

(** The loop of [has_sw_writable] and [has_sw_readable] over the present
    fields of a register; it stops at the first field that answers yes. *)
Fixpoint any_field (self : Node) (test : Node -> result bool)
  (insts : list Component) : result bool :=
  match insts with
  | [] => Ok false
  | child_inst :: rest =>
      if not_present child_inst then any_field self test rest
      else
        let! child := _factory child_inst (Some self) in
        if is_FieldNode child then
          let! yes := test child in
          if yes then Ok true else any_field self test rest
        else any_field self test rest
  end.

(** [RegNode.has_sw_writable] *)
Definition has_sw_writable (n : Node) : result bool :=
  if is_RegNode n then any_field n is_sw_writable (children (inst n))
  else Raise AttributeError.

(** [RegNode.has_sw_readable] *)
Definition has_sw_readable (n : Node) : result bool :=
  if is_RegNode n then any_field n is_sw_readable (children (inst n))
  else Raise AttributeError.

End Fields.

(** ** Further notions of the statements *)

(** The overlays above a node, the node first, up to the end of the parent
    chain. *)
Fixpoint ancestors (n : Node) : list Node :=
  n :: match parent n with
       | Some p => ancestors p
       | None => []
       end.

(** The invariant of [current_idx] on one overlay. *)
Definition index_inv (n : Node) : Prop := index_state_ok (inst n) (current_idx n).

(** What [clear_lineage_index] and [zero_lineage_index] leave of an overlay
    [m]: the same component, and the index reset when it is an array. *)
Definition cleared (m m' : Node) : Prop :=
  inst m' = inst m /\
  current_idx m' = if is_array (inst m) then None else current_idx m.

Definition zeroed (m m' : Node) : Prop :=
  inst m' = inst m /\
  if is_array (inst m) then
    exists dims, array_dimensions (inst m) = Some dims /\
                 current_idx m' = Some (repeat 0 (length dims))
  else current_idx m' = current_idx m.

(** [N] lies strictly below [A] on a parent chain. *)
Inductive below (A : Node) : Node -> Prop :=
| below_child N : parent N = Some A -> below A N
| below_deeper N p : parent N = Some p -> below A p -> below A N.

(** The results of two runs agree up to the order of what they yield, and
    fail alike. *)
Definition same_yield (a b : result (list Node)) : Prop :=
  match a, b with
  | Ok l, Ok l' => Permutation l l'
  | Raise e, Raise e' => e = e'
  | _, _ => False
  end.

(** The two loops of [descendants], by themselves: over the overlays [ns]
    of one child instance [c], and over the child instances. *)
Fixpoint descend_each (unroll skip_not_present in_post_order : bool)
  (c : Component) (ns : list Node) : result (list Node) :=
  match ns with
  | [] => Ok []
  | child :: ns' =>
      let! d := descendants_at c child unroll skip_not_present in_post_order in
      let! more := descend_each unroll skip_not_present in_post_order c ns' in
      Ok ((if in_post_order then d ++ [child] else child :: d) ++ more)
  end.

Fixpoint descend_walk (self : Node) (unroll skip_not_present in_post_order : bool)
  (insts : list Component) : result (list Node) :=
  match insts with
  | [] => Ok []
  | child_inst :: rest =>
      if skip_not_present && not_present child_inst
      then descend_walk self unroll skip_not_present in_post_order rest
      else
        let! ns := child_nodes self unroll child_inst in
        let! sub := descend_each unroll skip_not_present in_post_order child_inst ns in
        let! more := descend_walk self unroll skip_not_present in_post_order rest in
        Ok (sub ++ more)
  end.

(** What the loop of [has_sw_writable] asks of the child instances it
    passes without answering yes: each present one is no root component,
    and when it is a field the test answers no. *)
Definition passed_over (self : Node) (test : Node -> result bool)
  (insts : list Component) : Prop :=
  Forall (fun d => not_present d = false ->
                   ctype d <> Root /\
                   (ctype d = Field -> test (mkNode d (Some self) None) = Ok false))
         insts.

(** A register of the sample model with three fields, the first of them
    not present, and the access types by their names. *)
Definition sample_acc : AccessTypes :=
  mkAccess (VStr "rw") (VStr "rw1") (VStr "r") (VStr "w") (VStr "w1").

Definition fld_off : Component :=
  plain Field "h" {[ "ispresent" := VBool false; "sw" := VStr "rw" ]} [] 0.
Definition fld_ro : Component :=
  plain Field "g" {[ "sw" := VStr "r"; "hw" := VStr "w" ]} [] 0.
Definition fld_rw : Component :=
  plain Field "f" {[ "sw" := VStr "rw"; "hw" := VStr "r" ]} [] 0.
Definition reg_f : Component := plain Reg "r" ∅ [fld_off; fld_ro; fld_rw] 0.
Definition reg_f_n : Node := mkNode reg_f None None.
Definition fld_ro_n : Node := mkNode fld_ro (Some reg_f_n) None.
Definition fld_rw_n : Node := mkNode fld_rw (Some reg_f_n) None.

(** * Properties of the code *)

(** ** Array flattening *)

Lemma fold_left_shift {A : Type} (f : A -> nat -> A) (len start : nat) (a : A) :
  fold_left f (seq (S start) len) a =
  fold_left (fun acc j => f acc (S j)) (seq start len) a.
Proof.
  revert start a. induction len as [|len IH]; intros start a; simpl.
  - reflexivity.
  - apply IH.
Qed.

Lemma fold_left_ext_nat {A : Type} (f g : A -> nat -> A) (l : list nat) (a : A) :
  (forall acc j, f acc j = g acc j) ->
  fold_left f l a = fold_left g l a.
Proof.
  intros E. revert a. induction l as [|x l IH]; intros a; simpl.
  - reflexivity.
  - rewrite E. apply IH.
Qed.

Lemma prod_loop (l : list Z) (a : Z) :
  fold_left (fun sz j => sz * nth j l 0) (seq 0 (length l)) a = a * list_prod l.
Proof.
  revert a. induction l as [|d l IH]; intros a; simpl.
  - lia.
  - rewrite fold_left_shift. simpl. rewrite IH. unfold list_prod. simpl. lia.
Qed.

Lemma dim_weight_0 (d : Z) (dims : list Z) :
  dim_weight (d :: dims) 0 = list_prod dims.
Proof.
  unfold dim_weight. simpl length. rewrite Nat.sub_succ, Nat.sub_0_r.
  rewrite fold_left_shift. simpl. rewrite prod_loop. lia.
Qed.

Lemma dim_weight_S (d : Z) (dims : list Z) (i : nat) :
  dim_weight (d :: dims) (S i) = dim_weight dims i.
Proof.
  unfold dim_weight. simpl length. rewrite Nat.sub_succ.
  rewrite fold_left_shift. reflexivity.
Qed.

Lemma sum_loop_acc (w : nat -> Z) (cur : list Z) (l : list nat) (a : Z) :
  fold_left (fun idx i => idx + w i * nth i cur 0) l a =
  a + fold_left (fun idx i => idx + w i * nth i cur 0) l 0.
Proof.
  revert a. induction l as [|x l IH]; intros a; simpl.
  - lia.
  - rewrite (IH (a + w x * nth x cur 0)), (IH (0 + w x * nth x cur 0)). lia.
Qed.

Lemma flat_index_cons (c d : Z) (cur dims : list Z) :
  flat_index (c :: cur) (d :: dims) = c * list_prod dims + flat_index cur dims.
Proof.
  unfold flat_index at 1. simpl length. simpl seq. simpl fold_left.
  rewrite (sum_loop_acc (dim_weight (d :: dims)) (c :: cur)).
  rewrite dim_weight_0, fold_left_shift. simpl nth.
  rewrite (fold_left_ext_nat _ (fun idx i => idx + dim_weight dims i * nth i cur 0)).
  - unfold flat_index. lia.
  - intros acc j. rewrite dim_weight_S. reflexivity.
Qed.

Lemma row_major_cons (i d : Z) (idx dims : list Z) :
  row_major (i :: idx) (d :: dims) = i * list_prod dims + row_major idx dims.
Proof.
  unfold row_major. simpl length. rewrite <- cons_seq, <- seq_shift.
  rewrite map_cons, map_map. reflexivity.
Qed.

(** The two loops of [address_offset] compute the row-major formula. *)
Lemma flat_index_row_major (cur dims : list Z) :
  length cur = length dims -> flat_index cur dims = row_major cur dims.
Proof.
  revert dims. induction cur as [|c cur IH]; intros [|d dims] Hlen;
    simpl in Hlen; try discriminate.
  - reflexivity.
  - rewrite flat_index_cons, row_major_cons, IH by lia. reflexivity.
Qed.

(** C1. For an addressable array node with dimensions [dims], stride
    [stride] and a known current index [cur] with one entry per dimension,
    [address_offset - raw_address_offset] is
    [stride × Σ_k I_k × Π(S_(k+1) .. S_(n-1))] (row-major, last dimension
    fastest; the bounds [0 ≤ I_k < S_k] are not needed); with dimensions
    [2;3], stride 4 and index [1;2] the extra offset is 20.  For a node that
    is not an array [address_offset] is [raw_address_offset], and for an
    array node whose current index is unknown [address_offset] raises
    [ValueError]. *)
Theorem address_offset_spec (n : Node) :
  is_AddressableNode n = true ->
  (forall dims stride cur,
     is_array (inst n) = true ->
     array_dimensions (inst n) = Some dims ->
     array_stride (inst n) = Some stride ->
     current_idx n = Some cur ->
     length cur = length dims ->
     exists a, address_offset n = Ok a /\
               a - raw_address_offset n = stride * row_major cur dims) /\
  (is_array (inst n) = true ->
   array_dimensions (inst n) = Some [2; 3] ->
   array_stride (inst n) = Some 4 ->
   current_idx n = Some [1; 2] ->
   address_offset n = Ok (raw_address_offset n + 20)) /\
  (is_array (inst n) = false ->
   address_offset n = Ok (raw_address_offset n)) /\
  (is_array (inst n) = true -> current_idx n = None ->
   address_offset n = Raise ValueError).
Proof.
  intros Ha. unfold address_offset, addressable_only. rewrite Ha. repeat split.
  - intros dims stride cur -> Hd Hs -> Hlen. rewrite Hd, Hs. simpl.
    exists (raw_address_offset n + flat_index cur dims * stride). split.
    + destruct cur; reflexivity.
    + rewrite flat_index_row_major by assumption. lia.
  - intros -> -> -> ->. reflexivity.
  - intros ->. reflexivity.
  - intros -> ->. reflexivity.
Qed.

Lemma address_offset_spec_witness :
  (exists a, address_offset b_12 = Ok a /\
             a - raw_address_offset b_12 = 4 * row_major [1; 2] [2; 3]) /\
  address_offset b_12 = Ok (raw_address_offset b_12 + 20) /\
  address_offset a_n = Ok (raw_address_offset a_n) /\
  address_offset rf_unknown = Raise ValueError.
Proof.
  split; [|split; [|split]].
  - apply (proj1 (address_offset_spec b_12 eq_refl) [2; 3] 4 [1; 2]); reflexivity.
  - apply (proj1 (proj2 (address_offset_spec b_12 eq_refl))); reflexivity.
  - apply (proj1 (proj2 (proj2 (address_offset_spec a_n eq_refl)))); reflexivity.
  - apply (proj2 (proj2 (proj2 (address_offset_spec rf_unknown eq_refl)))); reflexivity.
Defined.

(** ** Absolute addresses *)

Lemma Node_lineage_ind (P : Node -> Prop) :
  (forall n, (forall p, parent n = Some p -> P p) -> P n) ->
  forall n, P n.
Proof.
  intros H. fix IH 1. intros [c [q|] ci]; apply H; simpl; intros p E.
  - injection E as <-. apply IH.
  - discriminate.
Qed.

(** With an addressable lineage, [absolute_address] adds up the
    [address_offset]s along it, whatever they are. *)
Lemma absolute_address_lineage (n : Node) :
  Forall (fun m => is_AddressableNode m = true) (lineage n) ->
  absolute_address n = sum_address_offsets (lineage n).
Proof.
  induction n as [n IH] using Node_lineage_ind. intros Hl.
  assert (Hn : is_AddressableNode n = true).
  { destruct n as [c [p|] ci]; simpl in Hl.
    - destruct (is_RootNode p); apply Forall_cons in Hl as [H _]; exact H.
    - apply Forall_cons in Hl as [H _]; exact H. }
  destruct n as [c [p|] ci]; cbn [absolute_address lineage parent] in *;
    unfold addressable_only at 1; rewrite Hn.
  - destruct (is_RootNode p) eqn:Hr.
    + simpl. destruct (address_offset _); reflexivity.
    + apply Forall_cons in Hl as [_ Hl].
      assert (Hp : is_AddressableNode p = true).
      { destruct p as [c' [q|] ci']; simpl in Hl.
        - destruct (is_RootNode q); apply Forall_cons in Hl as [H _]; exact H.
        - apply Forall_cons in Hl as [H _]; exact H. }
      rewrite Hp. cbn [sum_address_offsets]. rewrite (IH p eq_refl Hl). reflexivity.
  - simpl. destruct (address_offset _); reflexivity.
Qed.

Lemma address_offset_known (m : Node) :
  is_AddressableNode m = true ->
  array_ok (inst m) ->
  (is_array (inst m) = true -> is_Some (current_idx m)) ->
  exists o, address_offset m = Ok o.
Proof.
  intros Hm Hok Hk. unfold address_offset, addressable_only. rewrite Hm.
  destruct (is_array (inst m)) eqn:Ha; [|eauto].
  destruct (Hok Ha) as [[dims ->] [stride ->]].
  destruct (Hk eq_refl) as [cur ->]. simpl.
  destruct cur; eauto.
Qed.

Lemma address_offset_errors (m : Node) :
  is_AddressableNode m = true ->
  array_ok (inst m) ->
  (exists o, address_offset m = Ok o) \/ address_offset m = Raise ValueError.
Proof.
  intros Hm Hok. unfold address_offset, addressable_only. rewrite Hm.
  destruct (is_array (inst m)) eqn:Ha; [|eauto].
  destruct (Hok Ha) as [[dims ->] [stride ->]].
  destruct (current_idx m) as [cur|]; [|eauto]. simpl.
  destruct cur; eauto.
Qed.

Lemma sum_address_offsets_known (l : list Node) :
  Forall (fun m => (is_AddressableNode m = true /\ array_ok (inst m)) /\
                   (is_array (inst m) = true -> is_Some (current_idx m))) l ->
  exists offs, Forall2 (fun m o => address_offset m = Ok o) l offs /\
               sum_address_offsets l = Ok (sum_list offs).
Proof.
  induction 1 as [|m l [[Hm Hok] Hk] _ (offs & Hoffs & Hsum)].
  - exists []. split; [constructor | reflexivity].
  - destruct (address_offset_known m Hm Hok Hk) as [o Ho].
    exists (o :: offs). split; [constructor; assumption|].
    simpl. rewrite Hsum, Ho. simpl. f_equal. lia.
Qed.

Lemma sum_address_offsets_errors (l : list Node) :
  Forall (fun m => is_AddressableNode m = true /\ array_ok (inst m)) l ->
  (exists a, sum_address_offsets l = Ok a) \/
  sum_address_offsets l = Raise ValueError.
Proof.
  induction 1 as [|m l [Hm Hok] _ [[a Ha]|He]]; simpl.
  - eauto.
  - rewrite Ha. simpl.
    destruct (address_offset_errors m Hm Hok) as [[o ->]| ->]; simpl; eauto.
  - rewrite He. simpl. eauto.
Qed.

Lemma sum_address_offsets_unknown (l : list Node) :
  Forall (fun m => is_AddressableNode m = true /\ array_ok (inst m)) l ->
  Exists (fun m => is_array (inst m) = true /\ current_idx m = None) l ->
  sum_address_offsets l = Raise ValueError.
Proof.
  induction 1 as [|m l [Hadr Hok] Hl IH]; intros Hex.
  - inversion Hex.
  - simpl. apply Exists_cons in Hex as [[Ha Hn]|Hex].
    + assert (Hm : address_offset m = Raise ValueError).
      { unfold address_offset, addressable_only. rewrite Hadr, Ha, Hn. reflexivity. }
      rewrite Hm.
      destruct (sum_address_offsets_errors l Hl) as [[a ->]| ->]; reflexivity.
    + rewrite (IH Hex). reflexivity.
Qed.

(** C2. For an addressable node whose lineage up to the root is addressable
    and well formed: when the index of every array in the lineage (the node
    included) is known, [absolute_address] is the sum of [address_offset]
    over the node and its ancestors; when the index of some array in the
    lineage is unknown, [absolute_address] raises [ValueError]. *)
Theorem absolute_address_spec (n : Node) :
  Forall (fun m => is_AddressableNode m = true /\ array_ok (inst m)) (lineage n) ->
  (Forall (fun m => is_array (inst m) = true -> is_Some (current_idx m))
          (lineage n) ->
   exists offs,
     Forall2 (fun m o => address_offset m = Ok o) (lineage n) offs /\
     absolute_address n = Ok (sum_list offs)) /\
  (Exists (fun m => is_array (inst m) = true /\ current_idx m = None)
          (lineage n) ->
   absolute_address n = Raise ValueError).
Proof.
  intros Hwf.
  assert (Haddr : Forall (fun m => is_AddressableNode m = true) (lineage n)).
  { eapply Forall_impl; [exact Hwf|]. intros m [H _]. exact H. }
  rewrite (absolute_address_lineage n Haddr). split.
  - intros Hk. apply sum_address_offsets_known.
    rewrite Forall_forall in *. intros m Hm. split; auto.
  - apply sum_address_offsets_unknown. exact Hwf.
Qed.

(** Closes the side conditions of the statements at a concrete overlay. *)
Ltac overlay_facts :=
  simpl; repeat apply Forall_cons_2; try apply Forall_nil_2;
  unfold array_ok; simpl; repeat split;
  try reflexivity; try (intros; discriminate); try (intros; simpl; eauto).

Lemma absolute_address_spec_witness :
  (exists offs,
     Forall2 (fun m o => address_offset m = Ok o) (lineage b_12) offs /\
     absolute_address b_12 = Ok (sum_list offs)) /\
  absolute_address b_12_under_unknown = Raise ValueError.
Proof.
  split.
  - apply (proj1 (absolute_address_spec b_12 ltac:(overlay_facts))).
    overlay_facts.
  - apply (proj2 (absolute_address_spec b_12_under_unknown ltac:(overlay_facts))).
    simpl. apply Exists_cons_tl, Exists_cons_hd. split; reflexivity.
Defined.

(** ** The owning address map *)

(** C10. On a node whose parent chain reaches the root overlay,
    [owning_addrmap] does not raise: it is the node itself when the node is
    an address map, [None] when the node is the root, and otherwise what
    [owning_addrmap] is on the parent. *)
Theorem owning_addrmap_spec (n : Node) :
  reaches_root n ->
  (exists r, owning_addrmap n = Ok r) /\
  (is_AddrmapNode n = true -> owning_addrmap n = Ok (Some n)) /\
  (is_RootNode n = true -> owning_addrmap n = Ok None) /\
  (is_AddrmapNode n = false -> is_RootNode n = false ->
   exists p, parent n = Some p /\ owning_addrmap n = owning_addrmap p).
Proof.
  intros H. split; [|split; [|split]].
  - induction H as [n Hr|n p Hp _ [r IH]].
    + destruct n as [c q ci]. simpl.
      destruct (is_AddrmapNode _); [eauto|]. rewrite Hr. eauto.
    + destruct n as [c q ci]. simpl in *. subst q.
      destruct (is_AddrmapNode _); [eauto|].
      destruct (is_RootNode _); eauto.
  - intros Ha. destruct n as [c q ci]. simpl. rewrite Ha. reflexivity.
  - intros Hr. destruct n as [c q ci]. simpl.
    assert (Ha : is_AddrmapNode (mkNode c q ci) = false).
    { unfold is_AddrmapNode, is_RootNode in *.
      apply bool_decide_eq_true in Hr. apply bool_decide_eq_false.
      congruence. }
    rewrite Ha, Hr. reflexivity.
  - intros Ha Hr. destruct H as [n Hr'|n p Hp _]; [congruence|].
    exists p. split; [assumption|].
    destruct n as [c q ci]. simpl in *. subst q. rewrite Ha, Hr. reflexivity.
Qed.

Lemma owning_addrmap_spec_witness :
  (exists r, owning_addrmap b_12 = Ok r) /\
  owning_addrmap top_n = Ok (Some top_n) /\
  owning_addrmap root_n = Ok None /\
  (exists p, parent b_12 = Some p /\ owning_addrmap b_12 = owning_addrmap p).
Proof.
  assert (Hroot : reaches_root root_n) by (apply reaches_here; reflexivity).
  assert (Htop : reaches_root top_n) by (eapply reaches_up; [reflexivity|exact Hroot]).
  assert (Hb : reaches_root b_12).
  { eapply reaches_up; [reflexivity|]. eapply reaches_up; [reflexivity|exact Htop]. }
  split; [|split; [|split]].
  - apply (proj1 (owning_addrmap_spec b_12 Hb)).
  - apply (proj1 (proj2 (owning_addrmap_spec top_n Htop))). reflexivity.
  - apply (proj1 (proj2 (proj2 (owning_addrmap_spec root_n Hroot)))). reflexivity.
  - apply (proj2 (proj2 (proj2 (owning_addrmap_spec b_12 Hb)))); reflexivity.
Defined.

(** ** Sizes *)

Section Sizes.

Context (env : RDLEnvironment) (lib : Library).

Lemma factory_addressable (c : Component) (p : option Node) :
  is_addressable (ctype c) = true -> _factory c p = Ok (mkNode c p None).
Proof. unfold _factory. destruct (ctype c); intros H; try discriminate; reflexivity. Qed.

(** The search for the last child inside [size_at] finds [last]. *)
Lemma last_child_loop (F : Component -> result Z) (l : list Component) :
  (fix last_child (l : list Component) : result Z :=
     match l with
     | [] => Ok 0
     | [x] => F x
     | _ :: l' => last_child l'
     end) l
  = match last l with
    | None => Ok 0
    | Some x => F x
    end.
Proof.
  induction l as [|x [|y l] IH]; try reflexivity.
  rewrite IH. reflexivity.
Qed.

Lemma size_at_group (c : Component) (p : option Node) (ci : option (list Z)) :
  ctype c = Regfile \/ ctype c = Addrmap ->
  size_at env lib c p ci =
  match last (children c) with
  | None => Ok 0
  | Some x =>
      if negb (is_addressable (ctype x)) then Ok 0
      else
        let! t := total_size_of x (size_at env lib x (Some (mkNode c p ci)) None) in
        Ok (addr_offset x + t)
  end.
Proof.
  intros Hk. destruct c as [k name ch props off arr dims stride]. simpl in Hk.
  destruct Hk as [-> | ->]; simpl;
    exact (last_child_loop
             (fun x => if negb (is_addressable (ctype x)) then Ok 0
                       else let! t := total_size_of x (size_at env lib x _ None) in
                            Ok (addr_offset x + t)) ch).
Qed.

(** The [size] of a register file or address map is [get_group_node_size]. *)
Lemma size_group (node : Node) :
  node_kind node = Regfile \/ node_kind node = Addrmap ->
  size env lib node = get_group_node_size env lib node.
Proof.
  intros Hk. unfold size, get_group_node_size.
  rewrite (size_at_group _ _ _ Hk).
  destruct (last (children (inst node))) as [x|]; [|reflexivity].
  destruct (is_addressable (ctype x)) eqn:Hx; simpl; [|reflexivity].
  rewrite (factory_addressable _ _ Hx). simpl.
  unfold total_size, addressable_only, is_AddressableNode, node_kind. simpl.
  rewrite Hx. destruct node; reflexivity.
Qed.

(** C5. For a register-file or address-map node, [size] is 0 when the
    component has no children or its last child is not addressable;
    otherwise it is [raw_address_offset + total_size] of the last child,
    taken on a new overlay of that child under the node: a last child at
    offset 4 with total size 8 gives the size 12. *)
Theorem group_size_spec (node : Node) :
  node_kind node = Regfile \/ node_kind node = Addrmap ->
  (children (inst node) = [] -> size env lib node = Ok 0) /\
  (forall c, last (children (inst node)) = Some c ->
             is_addressable (ctype c) = false ->
             size env lib node = Ok 0) /\
  (forall c, last (children (inst node)) = Some c ->
             is_addressable (ctype c) = true ->
             let last_child_node := mkNode c (Some node) None in
             size env lib node =
               (let! t := total_size env lib last_child_node in
                Ok (raw_address_offset last_child_node + t))) /\
  (forall c, last (children (inst node)) = Some c ->
             is_addressable (ctype c) = true ->
             addr_offset c = 4 ->
             total_size env lib (mkNode c (Some node) None) = Ok 8 ->
             size env lib node = Ok 12).
Proof.
  intros Hk. rewrite (size_group node Hk). unfold get_group_node_size.
  repeat split.
  - intros ->. reflexivity.
  - intros c -> ->. reflexivity.
  - intros c -> Hc. rewrite Hc, (factory_addressable _ _ Hc). reflexivity.
  - intros c -> Hc Hoff Ht. rewrite Hc, (factory_addressable _ _ Hc). simpl.
    rewrite Ht. simpl. unfold raw_address_offset. simpl. rewrite Hoff. reflexivity.
Qed.

(** C9. For an addressable array node [total_size] is
    [array_stride × n_elements], the element count being the product of the
    dimensions (and not [stride × (n - 1) + size]); for an addressable node
    that is not an array it is [size]. *)
Theorem total_size_spec (n : Node) :
  is_AddressableNode n = true ->
  (forall stride dims,
     is_array (inst n) = true ->
     array_stride (inst n) = Some stride ->
     array_dimensions (inst n) = Some dims ->
     n_elements (inst n) = Ok (list_prod dims) /\
     total_size env lib n = Ok (stride * list_prod dims)) /\
  (is_array (inst n) = false -> total_size env lib n = size env lib n).
Proof.
  intros Hn. unfold total_size, addressable_only, n_elements. rewrite Hn. split.
  - intros stride dims -> -> ->. split; reflexivity.
  - intros ->. reflexivity.
Qed.

End Sizes.

Lemma group_size_spec_witness :
  size sample_env sample_lib empty_n = Ok 0 /\
  size sample_env sample_lib signals_n = Ok 0 /\
  size sample_env sample_lib grp_n =
    (let! t := total_size sample_env sample_lib (mkNode reg_w (Some grp_n) None) in
     Ok (raw_address_offset (mkNode reg_w (Some grp_n) None) + t)) /\
  size sample_env sample_lib grp_n = Ok 12.
Proof.
  split; [|split; [|split]].
  - apply (proj1 (group_size_spec sample_env sample_lib empty_n (or_introl eq_refl))).
    reflexivity.
  - apply (proj1 (proj2 (group_size_spec sample_env sample_lib signals_n
                           (or_introl eq_refl))) sig_s); reflexivity.
  - apply (proj1 (proj2 (proj2 (group_size_spec sample_env sample_lib grp_n
                                   (or_introl eq_refl)))) reg_w); reflexivity.
  - apply (proj2 (proj2 (proj2 (group_size_spec sample_env sample_lib grp_n
                                   (or_introl eq_refl)))) reg_w); reflexivity.
Defined.

Lemma total_size_spec_witness :
  (n_elements (inst rf_1) = Ok (list_prod [2]) /\
   total_size sample_env sample_lib rf_1 = Ok (64 * list_prod [2])) /\
  total_size sample_env sample_lib a_n = size sample_env sample_lib a_n.
Proof.
  split.
  - apply (proj1 (total_size_spec sample_env sample_lib rf_1 eq_refl)); reflexivity.
  - apply (proj2 (total_size_spec sample_env sample_lib a_n eq_refl)); reflexivity.
Defined.

(** The simplified total size of an array differs from
    [stride × (n - 1) + size]: two register files of size 28, 64 apart. *)
Example total_size_simplified :
  size sample_env sample_lib rf_1 = Ok 28 /\
  total_size sample_env sample_lib rf_1 = Ok 128 /\
  64 * (2 - 1) + 28 = 92.
Proof. repeat split. Qed.

(** ** Property resolution *)




(** ** Children and the unrolling of arrays *)

Lemma seq_from (n m : nat) :
  seq n m = map (fun k => (n + k)%nat) (seq 0 m).
Proof.
  induction n as [|n IH]; simpl.
  - symmetry. apply map_id.
  - rewrite <- seq_shift, IH, map_map. reflexivity.
Qed.

Lemma range_add (a b : Z) :
  0 <= a -> 0 <= b ->
  range (a + b) = range a ++ map (fun k => a + k) (range b).
Proof.
  intros Ha Hb. unfold range.
  rewrite Z2Nat.inj_add by assumption.
  rewrite seq_app, map_app. f_equal. simpl.
  rewrite (seq_from (Z.to_nat a)), !map_map.
  apply map_ext. intros k. lia.
Qed.

Lemma range_one : range 1 = [0].
Proof. reflexivity. Qed.

Lemma map_flat_map_comm {A B C : Type} (f : B -> C) (g : A -> list B) (l : list A) :
  map f (flat_map g l) = flat_map (fun x => map f (g x)) l.
Proof.
  induction l as [|x l IH]; simpl.
  - reflexivity.
  - rewrite map_app, IH. reflexivity.
Qed.

Lemma flat_map_ext_all {A B : Type} (f g : A -> list B) (l : list A) :
  (forall x, f x = g x) -> flat_map f l = flat_map g l.
Proof.
  intros E. induction l as [|x l IH]; simpl; [reflexivity|].
  rewrite E, IH. reflexivity.
Qed.

(** Blocks of [P] consecutive numbers, one after the other, count up. *)
Lemma range_blocks (P : Z) (n : nat) :
  0 <= P ->
  flat_map (fun x => map (fun k => x * P + k) (range P)) (range (Z.of_nat n))
  = range (Z.of_nat n * P).
Proof.
  intros HP. induction n as [|n IH].
  - reflexivity.
  - replace (Z.of_nat (S n)) with (Z.of_nat n + 1) by lia.
    rewrite range_add by lia. rewrite flat_map_app, IH.
    replace ((Z.of_nat n + 1) * P) with (Z.of_nat n * P + P) by lia.
    rewrite (range_add (Z.of_nat n * P) P) by nia.
    f_equal. rewrite range_one. simpl. rewrite app_nil_r.
    apply map_ext. intros k. lia.
Qed.

Lemma list_prod_nonneg (dims : list Z) :
  Forall (fun d => 0 <= d) dims -> 0 <= list_prod dims.
Proof.
  induction 1 as [|d dims Hd _ IH]; unfold list_prod in *; simpl; nia.
Qed.

(** The tuples of the product come in row-major order: the [k]-th tuple
    flattens to [k]. *)
Lemma product_row_major (dims : list Z) :
  Forall (fun d => 0 <= d) dims ->
  map (fun idxs => row_major idxs dims) (product (map range dims))
  = range (list_prod dims).
Proof.
  induction 1 as [|d dims Hd Hdims IH].
  - reflexivity.
  - simpl product. rewrite map_flat_map_comm.
    rewrite (flat_map_ext_all _
               (fun x => map (fun k => x * list_prod dims + k) (range (list_prod dims)))).
    + rewrite <- (Z2Nat.id d) at 1 by assumption.
      rewrite range_blocks by (apply list_prod_nonneg; assumption).
      rewrite Z2Nat.id by assumption. reflexivity.
    + intros x. rewrite map_map, <- IH, map_map.
      apply map_ext. intros idxs. apply row_major_cons.
Qed.

Lemma range_bounds (d i : Z) : In i (range d) -> 0 <= i < d.
Proof.
  unfold range. rewrite in_map_iff. intros (k & <- & Hk).
  apply in_seq in Hk. lia.
Qed.

Lemma product_in_bounds (dims : list Z) (idxs : list Z) :
  In idxs (product (map range dims)) ->
  Forall2 (fun i d => 0 <= i < d) idxs dims.
Proof.
  revert idxs. induction dims as [|d dims IH]; intros idxs; simpl.
  - intros [<- | []]. constructor.
  - rewrite in_flat_map. intros (x & Hx & Hin).
    apply in_map_iff in Hin as (rest & <- & Hrest).
    constructor; [apply range_bounds; assumption | apply IH; assumption].
Qed.

Lemma children_of_app (self : Node) (unroll skip : bool) (l1 l2 : list Component) :
  children_of self unroll skip (l1 ++ l2) =
  (let! a := children_of self unroll skip l1 in
   let! b := children_of self unroll skip l2 in
   Ok (a ++ b)).
Proof.
  induction l1 as [|c l1 IH]; simpl.
  - destruct (children_of self unroll skip l2); reflexivity.
  - destruct (skip && not_present c); [exact IH|].
    rewrite IH.
    destruct (child_nodes self unroll c) as [ns|]; simpl; [|reflexivity].
    destruct (children_of self unroll skip l1) as [a|]; simpl; [|reflexivity].
    destruct (children_of self unroll skip l2) as [b|]; simpl; [|reflexivity].
    rewrite app_assoc. reflexivity.
Qed.

Lemma unroll_elements (self : Node) (c : Component) (elems : list (list Z)) :
  is_addressable (ctype c) = true ->
  rmap (fun idxs =>
          let! N := _factory c (Some self) in
          Ok (mkNode (inst N) (parent N) (Some idxs))) elems
  = Ok (map (fun idxs => mkNode c (Some self) (Some idxs)) elems).
Proof.
  intros Hc. induction elems as [|idxs elems IH]; simpl.
  - reflexivity.
  - rewrite IH, (factory_addressable _ _ Hc). reflexivity.
Qed.

Lemma child_nodes_unroll (self : Node) (c : Component) (dims : list Z) :
  is_addressable (ctype c) = true ->
  is_array c = true ->
  array_dimensions c = Some dims ->
  child_nodes self true c =
  Ok (map (fun idxs => mkNode c (Some self) (Some idxs)) (product (map range dims))).
Proof.
  intros Hc Harr Hdims. unfold child_nodes. rewrite Hc, Harr, Hdims.
  apply unroll_elements. assumption.
Qed.

Lemma child_nodes_single (self : Node) (c : Component) :
  is_addressable (ctype c) = true ->
  child_nodes self false c = Ok [mkNode c (Some self) None].
Proof.
  intros Hc. unfold child_nodes. simpl andb.
  rewrite (factory_addressable _ _ Hc). reflexivity.
Qed.

Lemma children_of_cons (self : Node) (unroll skip : bool) (c : Component)
  (rest : list Component) :
  skip && not_present c = false ->
  children_of self unroll skip (c :: rest) =
  (let! ns := child_nodes self unroll c in
   let! more := children_of self unroll skip rest in
   Ok (ns ++ more)).
Proof. intros H. simpl. rewrite H. reflexivity. Qed.

(** C6. An addressable array child [c] with dimensions [dims] (and not
    skipped) contributes to [children(unroll=True)] one overlay per tuple of
    the cartesian product of the dimension ranges, its current index set to
    the tuple, between the overlays of the children before and after it.
    The tuples are within the bounds, there are as many as the product of
    the dimensions, and they come in row-major order, the last dimension
    fastest (the [k]-th tuple flattens to [k]); for the dimensions [2;2]
    they are (0,0), (0,1), (1,0), (1,1).  Without [unroll] the child
    contributes a single overlay whose current index is unknown. *)
Theorem children_unroll_spec (self : Node) (c : Component) (dims : list Z)
  (skip : bool) (before after : list Component) :
  children (inst self) = before ++ c :: after ->
  is_addressable (ctype c) = true ->
  is_array c = true ->
  array_dimensions c = Some dims ->
  skip && not_present c = false ->
  let elems := product (map range dims) in
  node_children self true skip =
    (let! a := children_of self true skip before in
     let! b := children_of self true skip after in
     Ok (a ++ map (fun idxs => mkNode c (Some self) (Some idxs)) elems ++ b)) /\
  Forall (fun idxs => Forall2 (fun i d => 0 <= i < d) idxs dims) elems /\
  (Forall (fun d => 0 <= d) dims ->
   length elems = Z.to_nat (list_prod dims) /\
   map (fun idxs => row_major idxs dims) elems = range (list_prod dims)) /\
  (dims = [2; 2] -> elems = [[0; 0]; [0; 1]; [1; 0]; [1; 1]]) /\
  node_children self false skip =
    (let! a := children_of self false skip before in
     let! b := children_of self false skip after in
     Ok (a ++ [mkNode c (Some self) None] ++ b)).
Proof.
  intros Hch Hc Harr Hdims Hskip elems.
  unfold node_children. rewrite Hch, !children_of_app.
  rewrite !(children_of_cons _ _ _ _ _ Hskip).
  rewrite (child_nodes_unroll _ _ _ Hc Harr Hdims), (child_nodes_single _ _ Hc).
  fold elems. repeat split.
  - destruct (children_of self true skip before); simpl; [|reflexivity].
    destruct (children_of self true skip after); reflexivity.
  - apply List.Forall_forall. intros idxs. apply product_in_bounds.
  - rewrite <- (length_map (fun idxs => row_major idxs dims)).
    unfold elems. rewrite product_row_major by assumption.
    unfold range. rewrite length_map, length_seq. reflexivity.
  - apply product_row_major. assumption.
  - intros ->. reflexivity.
  - destruct (children_of self false skip before); simpl; [|reflexivity].
    destruct (children_of self false skip after); reflexivity.
Qed.

(** ** Strings: splitting, joining and the pattern of a path part *)

Lemma sapp_nil_l (s : string) : "" +:+ s = s.
Proof. reflexivity. Qed.

Lemma sapp_cons (c : ascii) (s t : string) : String c s +:+ t = String c (s +:+ t).
Proof. reflexivity. Qed.

Lemma sapp_nil_r (s : string) : s +:+ "" = s.
Proof. induction s as [|c s IH]; [reflexivity|]. rewrite sapp_cons, IH. reflexivity. Qed.

Lemma sapp_assoc (s t u : string) : (s +:+ t) +:+ u = s +:+ (t +:+ u).
Proof.
  induction s as [|c s IH]; [reflexivity|].
  rewrite !sapp_cons, IH. reflexivity.
Qed.

Lemma all_chars_app (p : ascii -> bool) (s t : string) :
  all_chars p (s +:+ t) = all_chars p s && all_chars p t.
Proof.
  induction s as [|c s IH]; [reflexivity|].
  rewrite sapp_cons. simpl. rewrite IH, andb_assoc. reflexivity.
Qed.

Lemma all_chars_impl (p q : ascii -> bool) (s : string) :
  (forall c, p c = true -> q c = true) ->
  all_chars p s = true -> all_chars q s = true.
Proof.
  intros Hpq. induction s as [|c s IH]; simpl; [reflexivity|].
  intros [Hc Hs]%andb_true_iff. rewrite (Hpq c Hc), (IH Hs). reflexivity.
Qed.

(** A string without the separator is a single part. *)
Lemma split_none (sep : ascii) (s : string) :
  all_chars (not_char sep) s = true -> split sep s = [s].
Proof.
  induction s as [|c s IH]; simpl; [reflexivity|].
  unfold not_char at 1. intros [Hc Hs]%andb_true_iff.
  apply negb_true_iff in Hc. rewrite Hc, (IH Hs). reflexivity.
Qed.

Lemma split_app (sep : ascii) (s t : string) :
  all_chars (not_char sep) s = true ->
  split sep (s +:+ String sep t) = s :: split sep t.
Proof.
  induction s as [|c s IH]; intros H.
  - rewrite sapp_nil_l. simpl. rewrite Ascii.eqb_refl. reflexivity.
  - rewrite sapp_cons. simpl in *. apply andb_true_iff in H as [Hc Hs].
    unfold not_char in Hc. apply negb_true_iff in Hc. rewrite Hc, (IH Hs).
    reflexivity.
Qed.

(** Splitting undoes joining, for a list of parts that is not empty and
    whose parts are free of the separator. *)
Lemma split_join (sep : ascii) (segs : list string) :
  segs <> [] ->
  Forall (fun s => all_chars (not_char sep) s = true) segs ->
  split sep (join (String sep "") segs) = segs.
Proof.
  intros Hne Hall. induction Hall as [|s segs Hs Hall IH]; [congruence|].
  destruct segs as [|s' segs].
  - simpl. apply split_none. assumption.
  - change (join (String sep "") (s :: s' :: segs))
      with (s +:+ String sep "" +:+ join (String sep "") (s' :: segs)).
    rewrite sapp_cons, sapp_nil_l, (split_app _ _ _ Hs), IH by discriminate.
    reflexivity.
Qed.

Lemma is_word_not_dot (c : ascii) : is_word c = true -> not_char "." c = true.
Proof.
  unfold not_char. destruct (Ascii.eqb_spec c "."); [subst; discriminate | reflexivity].
Qed.

Lemma is_digit_not_dot (c : ascii) : is_digit c = true -> not_char "." c = true.
Proof.
  unfold not_char. destruct (Ascii.eqb_spec c "."); [subst; discriminate | reflexivity].
Qed.

Lemma is_digit_not_close (c : ascii) : is_digit c = true -> not_char "]" c = true.
Proof.
  unfold not_char. destruct (Ascii.eqb_spec c "]"); [subst; discriminate | reflexivity].
Qed.

(** *** Decimal literals *)

Lemma string_of_uint_digits (d : Decimal.uint) :
  all_chars is_digit (NilEmpty.string_of_uint d) = true.
Proof. induction d; simpl; auto. Qed.

Lemma format_d_digits (z : Z) :
  0 <= z -> all_chars is_digit (format_d z) = true.
Proof.
  intros Hz. unfold format_d. destruct z as [|p|p]; [reflexivity| |lia].
  simpl. unfold NilZero.string_of_uint.
  destruct (Pos.to_uint p); try reflexivity; apply string_of_uint_digits.
Qed.

Lemma format_d_pos (p : positive) :
  format_d (Zpos p) = NilEmpty.string_of_uint (Pos.to_uint p).
Proof.
  unfold format_d. simpl. unfold NilZero.string_of_uint.
  destruct (Pos.to_uint p) eqn:E; try reflexivity.
  exfalso. exact (Unsigned.to_uint_nonnil p E).
Qed.

(** The decimal form of a positive number does not start with a zero. *)
Lemma to_uint_no_leading_zero (p : positive) (d : Decimal.uint) :
  Pos.to_uint p <> Decimal.D0 d.
Proof.
  intros E.
  pose proof (DecimalPos.Unsigned.to_of (Pos.to_uint p)) as H.
  rewrite DecimalPos.Unsigned.of_to in H. simpl in H.
  rewrite E in H. unfold Decimal.unorm in H. simpl in H.
  destruct (Decimal.nzhead d) eqn:Hd.
  - injection H as ->. apply (Unsigned.to_uint_nonzero p). exact E.
  - rewrite <- Hd in H. symmetry in H. exact (DecimalFacts.nzhead_nonzero _ _ H).
  - discriminate.
  - discriminate.
  - discriminate.
  - discriminate.
  - discriminate.
  - discriminate.
  - discriminate.
  - discriminate.
  - discriminate.
Qed.

Lemma format_d_nonempty (z : Z) : format_d z <> "".
Proof.
  unfold format_d. destruct z as [|p|p]; simpl; try discriminate.
  unfold NilZero.string_of_uint. destruct (Pos.to_uint p); discriminate.
Qed.

Lemma string_of_uint_first (d : Decimal.uint) :
  (forall d', d <> Decimal.D0 d') ->
  starts_with_zero (NilEmpty.string_of_uint d) = false /\
  hex_body (NilEmpty.string_of_uint d) = None.
Proof.
  intros Hd. destruct d as [|d|d|d|d|d|d|d|d|d|d];
    try (exfalso; exact (Hd _ eq_refl));
    (split; [reflexivity|]); simpl; try reflexivity;
    destruct (NilEmpty.string_of_uint d); reflexivity.
Qed.

(** Reading back what [format_d] writes. *)
Lemma int0_format_d (z : Z) : 0 <= z -> int0 (format_d z) = Ok z.
Proof.
  intros Hz. destruct z as [|p|p]; [reflexivity| |lia].
  rewrite format_d_pos.
  assert (Hu : NilZero.uint_of_string (NilEmpty.string_of_uint (Pos.to_uint p))
               = Some (Pos.to_uint p)).
  { pose proof (NilZero.usu (Pos.to_uint p) (Unsigned.to_uint_nonnil p)) as H.
    unfold NilZero.string_of_uint in H.
    destruct (Pos.to_uint p) eqn:E; try exact H.
    exfalso. exact (Unsigned.to_uint_nonnil p E). }
  assert (Hv : N.of_uint (Pos.to_uint p) = Npos p)
    by apply DecimalPos.Unsigned.of_to.
  destruct (string_of_uint_first _ (fun d' E => to_uint_no_leading_zero p d' E))
    as [Hz0 Hhex].
  unfold int0. rewrite Hhex, Hu, Hz0, Hv. reflexivity.
Qed.

(** *** The pattern *)

Lemma index_groups_literal (l acc rest : string) :
  all_chars (not_char "]") l = true ->
  index_groups (l +:+ String "]" rest) (Some acc) =
  if is_index_literal (acc +:+ l)
  then option_map (cons (acc +:+ l)) (index_groups rest None)
  else None.
Proof.
  revert acc. induction l as [|c l IH]; intros acc Hl.
  - rewrite sapp_nil_l, sapp_nil_r. simpl.
    destruct (is_index_literal acc); [|reflexivity].
    destruct (index_groups rest None); reflexivity.
  - rewrite sapp_cons. simpl in *. apply andb_true_iff in Hl as [Hc Hl].
    unfold not_char in Hc. apply negb_true_iff in Hc. rewrite Hc.
    rewrite (IH _ Hl), sapp_assoc, sapp_cons, sapp_nil_l. reflexivity.
Qed.

Lemma format_d_literal (z : Z) : 0 <= z -> is_index_literal (format_d z) = true.
Proof.
  intros Hz. unfold is_index_literal, is_dec_literal.
  rewrite (format_d_digits z Hz).
  destruct (String.eqb_spec (format_d z) "") as [E|_].
  - exfalso. exact (format_d_nonempty z E).
  - reflexivity.
Qed.

Lemma known_suffix_cons (i : Z) (idxs : list Z) :
  known_suffix (i :: idxs) =
  String "[" (format_d i +:+ String "]" (known_suffix idxs)).
Proof.
  unfold known_suffix. simpl.
  rewrite !sapp_assoc, !sapp_cons, !sapp_nil_l. reflexivity.
Qed.

Lemma index_groups_known (idxs : list Z) :
  Forall (fun i => 0 <= i) idxs ->
  index_groups (known_suffix idxs) None = Some (map format_d idxs).
Proof.
  induction 1 as [|i idxs Hi _ IH]; [reflexivity|].
  rewrite known_suffix_cons. simpl index_groups.
  rewrite index_groups_literal.
  - rewrite sapp_nil_l, (format_d_literal i Hi), IH. reflexivity.
  - apply (all_chars_impl is_digit); [apply is_digit_not_close|].
    apply format_d_digits. assumption.
Qed.

Lemma span_word_app (name rest : string) :
  all_chars is_word name = true ->
  starts_outside_word rest ->
  span_word (name +:+ rest) = (name, rest).
Proof.
  intros Hn Hr. induction name as [|c name IH].
  - rewrite sapp_nil_l. destruct rest as [|c r]; [reflexivity|].
    simpl in *. rewrite Hr. reflexivity.
  - rewrite sapp_cons. simpl in *. apply andb_true_iff in Hn as [Hc Hn].
    rewrite Hc, (IH Hn). reflexivity.
Qed.

Lemma known_suffix_outside (idxs : list Z) : starts_outside_word (known_suffix idxs).
Proof. destruct idxs; [exact I|]. rewrite known_suffix_cons. reflexivity. Qed.

Lemma unknown_suffix_outside (dims : list Z) : starts_outside_word (unknown_suffix dims).
Proof. destruct dims; [exact I|]. reflexivity. Qed.

(** The pattern reads back a name with its known-index suffix. *)
Lemma match_segment_known (name : string) (idxs : list Z) :
  valid_name name ->
  Forall (fun i => 0 <= i) idxs ->
  match_segment (name +:+ known_suffix idxs) = Some (name, map format_d idxs).
Proof.
  intros [Hne Hw] Hidx. unfold match_segment.
  rewrite (span_word_app _ _ Hw (known_suffix_outside idxs)).
  destruct (String.eqb_spec name "") as [E|_]; [contradiction|].
  rewrite (index_groups_known idxs Hidx). reflexivity.
Qed.

Lemma rmap_int0_format (idxs : list Z) :
  Forall (fun i => 0 <= i) idxs -> rmap int0 (map format_d idxs) = Ok idxs.
Proof.
  induction 1 as [|i idxs Hi _ IH]; [reflexivity|].
  simpl. rewrite (int0_format_d i Hi). simpl. rewrite IH. reflexivity.
Qed.

Lemma known_suffix_no_dot (idxs : list Z) :
  Forall (fun i => 0 <= i) idxs ->
  all_chars (not_char ".") (known_suffix idxs) = true.
Proof.
  induction 1 as [|i idxs Hi _ IH]; [reflexivity|].
  rewrite known_suffix_cons. simpl. rewrite all_chars_app. simpl.
  rewrite IH, andb_true_r.
  apply (all_chars_impl is_digit); [apply is_digit_not_dot|].
  apply format_d_digits. assumption.
Qed.

Lemma segment_no_dot (name : string) (idxs : list Z) :
  valid_name name ->
  Forall (fun i => 0 <= i) idxs ->
  all_chars (not_char ".") (name +:+ known_suffix idxs) = true.
Proof.
  intros [_ Hw] Hidx. rewrite all_chars_app, (known_suffix_no_dot idxs Hidx).
  rewrite (all_chars_impl is_word _ name is_word_not_dot Hw). reflexivity.
Qed.








(** [int0] raises nothing but [ValueError]. *)
Lemma int0_errors (lit : string) (e : exn) : int0 lit = Raise e -> e = ValueError.
Proof.
  unfold int0. intros H.
  repeat match type of H with
         | context [match ?x with _ => _ end] => destruct x
         end; congruence.
Qed.

Lemma rmap_int0_errors (lits : list string) (e : exn) :
  rmap int0 lits = Raise e -> e = ValueError.
Proof.
  induction lits as [|lit lits IH]; simpl; [discriminate|].
  destruct (int0 lit) eqn:E; simpl.
  - destruct (rmap int0 lits); simpl; [discriminate|].
    intros [= <-]. apply IH. reflexivity.
  - intros [= <-]. exact (int0_errors _ _ E).
Qed.

(** *** The pattern and the shape of a part *)














(** *** The sign of an index *)

Lemma hex_digit_value_nonneg (c : ascii) :
  is_hexdigit c = true -> 0 <= hex_digit_value c.
Proof.
  unfold is_hexdigit, hex_digit_value, is_digit, in_range.
  change (N_of_ascii "0") with 48%N. change (N_of_ascii "9") with 57%N.
  change (N_of_ascii "a") with 97%N. change (N_of_ascii "f") with 102%N.
  change (N_of_ascii "A") with 65%N. change (N_of_ascii "F") with 70%N.
  generalize (N_of_ascii c) as n. intros n.
  destruct (N.leb_spec 48 n), (N.leb_spec n 57), (N.leb_spec 97 n),
    (N.leb_spec n 102), (N.leb_spec 65 n), (N.leb_spec n 70);
    cbn [andb orb]; intros Hhex; try discriminate; lia.
Qed.

Lemma hex_value_nonneg (h : string) (a : Z) :
  all_chars is_hexdigit h = true -> 0 <= a -> 0 <= hex_value h a.
Proof.
  revert a. induction h as [|c h IH]; intros a; simpl; [auto|].
  intros [Hc Hh]%andb_true_iff Ha. apply IH; [exact Hh|].
  pose proof (hex_digit_value_nonneg c Hc). lia.
Qed.

(** [int(s, 0)] gives no negative index on what the pattern lets through. *)
Lemma int0_nonneg (lit : string) (z : Z) : int0 lit = Ok z -> 0 <= z.
Proof.
  unfold int0. destruct (hex_body lit) as [h|].
  - destruct (negb (String.eqb h "")); [|discriminate].
    destruct (all_chars is_hexdigit h) eqn:Hh; [|discriminate].
    cbn [andb]. intros [= <-]. apply hex_value_nonneg; [exact Hh | lia].
  - destruct (NilZero.uint_of_string lit) as [d|]; [|discriminate].
    destruct (starts_with_zero lit && negb (N.of_uint d =? 0)%N); [discriminate|].
    intros [= <-]. lia.
Qed.

Lemma rmap_int0_nonneg (lits : list string) (idxs : list Z) :
  rmap int0 lits = Ok idxs -> Forall (fun i => 0 <= i) idxs.
Proof.
  revert idxs. induction lits as [|l lits IH]; intros idxs; simpl.
  - intros [= <-]. constructor.
  - destruct (int0 l) as [z|] eqn:Hz; [|discriminate]. cbn [rbind].
    destruct (rmap int0 lits) as [zs|]; [|discriminate]. cbn [rbind].
    intros [= <-]. constructor; [exact (int0_nonneg l z Hz) | apply IH; reflexivity].
Qed.

(** ** Path parsing *)

Lemma find_parts_app (self : Node) (l1 l2 : list string) :
  find_parts self (l1 ++ l2) =
  match find_parts self l1 with
  | Ok (Some cur) => find_parts cur l2
  | Ok None => Ok None
  | Raise e => Raise e
  end.
Proof.
  revert self. induction l1 as [|part l1 IH]; intros self; [reflexivity|].
  simpl. destruct (String.eqb part "^"); [apply IH|].
  destruct (match_segment part) as [[name lits]|]; [|reflexivity].
  destruct (rmap int0 lits) as [idx_list|]; simpl; [|reflexivity].
  destruct (get_child_by_name self name) as [[child|]|]; simpl; try reflexivity.
  destruct (match idx_list with [] => Ok child | _ => index_child child idx_list end);
    simpl; [apply IH | reflexivity].
Qed.


Lemma check_indexes_in_range (idx_list dims : list Z) :
  Forall2 (fun i d => 0 <= i < d) idx_list dims ->
  check_indexes idx_list dims = Ok idx_list.
Proof.
  induction 1 as [|i d idx_list dims Hi _ IH]; [reflexivity|].
  simpl. destruct (Z.leb_spec d i); [lia|]. rewrite IH. reflexivity.
Qed.

Lemma get_child_by_name_found (cur : Node) (name : string) (c : Component) :
  comp_get_child_by_name (inst cur) name = Some c ->
  ctype c <> Root ->
  get_child_by_name cur name = Ok (Some (mkNode c (Some cur) None)).
Proof.
  intros Hc Hk. unfold get_child_by_name, _factory. rewrite Hc.
  destruct (ctype c); try reflexivity. contradiction.
Qed.





Lemma children_unroll_spec_witness :
  node_children mat_n true true =
    Ok [mkNode reg_a (Some mat_n) None;
        mkNode reg_m (Some mat_n) (Some [0; 0]);
        mkNode reg_m (Some mat_n) (Some [0; 1]);
        mkNode reg_m (Some mat_n) (Some [1; 0]);
        mkNode reg_m (Some mat_n) (Some [1; 1]);
        mkNode reg_w (Some mat_n) None] /\
  length (product (map range [2; 2])) = Z.to_nat (list_prod [2; 2]) /\
  node_children mat_n false true =
    Ok [mkNode reg_a (Some mat_n) None;
        mkNode reg_m (Some mat_n) None;
        mkNode reg_w (Some mat_n) None].
Proof.
  destruct (children_unroll_spec mat_n reg_m [2; 2] true [reg_a] [reg_w]
              eq_refl eq_refl eq_refl eq_refl eq_refl) as (H1 & _ & H3 & _ & H5).
  split; [exact H1|]. split; [|exact H5].
  apply H3. repeat constructor; lia.
Defined.

(** ** Paths of the overlays of a tree *)

Lemma zip_suffix (idxs dims : list Z) :
  length idxs = length dims ->
  concat_strings (map (fun '(idx, dim) => array_suffix default_format idx dim)
                      (zip_idx idxs dims))
  = known_suffix idxs.
Proof.
  revert dims. induction idxs as [|i idxs IH]; intros [|d dims] Hlen;
    simpl in Hlen; try discriminate; [reflexivity|].
  unfold known_suffix. simpl. f_equal. apply IH. lia.
Qed.

Lemma get_path_segment_default (c : Component) (p : option Node)
  (ci : option (list Z)) :
  comp_ok c -> index_state_ok c ci ->
  get_path_segment default_format (mkNode c p ci) = Ok (segment_of c ci).
Proof.
  intros (_ & _ & Hdims) Hci. unfold get_path_segment, segment_of.
  unfold is_AddressableNode, node_kind. simpl.
  destruct (is_addressable (ctype c) && is_array c) eqn:Harr.
  - destruct (Hdims eq_refl) as (dims & Hd & _). rewrite Hd. simpl.
    destruct ci as [idxs|]; [|reflexivity].
    destruct Hci as (_ & dims' & Hd' & Hb). rewrite Hd in Hd'. injection Hd' as <-.
    rewrite zip_suffix by (eapply Forall2_length; exact Hb). reflexivity.
  - rewrite sapp_nil_r. reflexivity.
Qed.

Lemma reach_child_kind (known : bool) (A p : Node) (segs : list string) :
  reach known A p segs -> is_RootNode p = true -> p = A /\ segs = [].
Proof.
  intros H Hr. destruct H as [|p segs c ci _ _ (Hk & _) _ _]; [split; reflexivity|].
  unfold is_RootNode, node_kind in Hr. simpl in Hr.
  apply bool_decide_eq_true in Hr. contradiction.
Qed.

Lemma get_path_segments_root (root : Node) (fmt : SuffixFormat) :
  root_ok root -> get_path_segments fmt root = Ok [].
Proof.
  intros [Hr Hp]. destruct root as [c p ci]. simpl in *. subst p.
  rewrite Hr. reflexivity.
Qed.

(** The segments of an overlay below [A] are those of [A] and then those of
    the way down. *)
Lemma reach_segments (known : bool) (A N : Node) (sa segs : list string) :
  (is_RootNode A = true -> parent A = None) ->
  get_path_segments default_format A = Ok sa ->
  reach known A N segs ->
  get_path_segments default_format N = Ok (sa ++ segs).
Proof.
  intros HA Hsa H. induction H as [|p segs c ci Hp IH Hc Hok Hci Hk].
  - rewrite app_nil_r. exact Hsa.
  - assert (Hn : is_RootNode (mkNode c (Some p) ci) = false).
    { unfold is_RootNode, node_kind. simpl. apply bool_decide_eq_false.
      exact (proj1 Hok). }
    cbn [get_path_segments parent].
    rewrite (get_path_segment_default c (Some p) ci Hok Hci), Hn.
    destruct (is_RootNode p) eqn:Hr; simpl.
    + destruct (reach_child_kind _ _ _ _ Hp Hr) as [-> ->].
      assert (sa = []) as ->.
      { rewrite (get_path_segments_root A default_format (conj Hr (HA Hr))) in Hsa.
        congruence. }
      reflexivity.
    + rewrite IH. simpl. rewrite app_assoc. reflexivity.
Qed.

Lemma reach_anchor_ok (known : bool) (root A : Node) (segs : list string) :
  root_ok root -> reach known root A segs ->
  is_RootNode A = true -> parent A = None.
Proof.
  intros [_ Hp] H Hr. destruct (reach_child_kind _ _ _ _ H Hr) as [-> _]. exact Hp.
Qed.

Lemma reach_weaken (known : bool) (A N : Node) (segs : list string) :
  reach known A N segs -> reach false A N segs.
Proof.
  induction 1 as [|p segs c ci _ IH Hc Hok Hci _]; [constructor|].
  apply reach_child; try assumption. discriminate.
Qed.

Lemma reach_trans (known : bool) (A M N : Node) (l1 l2 : list string) :
  reach known A M l1 -> reach known M N l2 -> reach known A N (l1 ++ l2).
Proof.
  intros H1 H2. induction H2 as [|p segs c ci _ IH Hc Hok Hci Hk].
  - rewrite app_nil_r. exact H1.
  - rewrite app_assoc. apply reach_child; assumption.
Qed.

Lemma snoc_or_nil {A : Type} (l : list A) :
  l = [] \/ exists l' x, l = l' ++ [x].
Proof. induction l as [|x l _] using rev_ind; eauto. Qed.

(** A way down can be cut at any point. *)
Lemma reach_split (known : bool) (A N : Node) (l1 l2 : list string) :
  reach known A N (l1 ++ l2) ->
  exists M, reach known A M l1 /\ reach known M N l2.
Proof.
  intros H. remember (l1 ++ l2) as l eqn:El. revert l1 l2 El.
  induction H as [|p segs c ci Hp IH Hc Hok Hci Hk]; intros l1 l2 El.
  - symmetry in El. apply app_eq_nil in El as [-> ->].
    exists A. split; constructor.
  - destruct (snoc_or_nil l2) as [-> | (l2' & x & ->)].
    + rewrite app_nil_r in El. subst l1.
      exists (mkNode c (Some p) ci). split; [|constructor].
      apply reach_child; assumption.
    + rewrite app_assoc in El. apply app_inj_tail in El as [El <-].
      destruct (IH l1 l2' El) as (M & H1 & H2).
      exists M. split; [exact H1|]. apply reach_child; assumption.
Qed.

(** One part of a path takes [find_by_path] from an overlay to the overlay
    of the child the part names, with the index the part gives. *)
Lemma find_parts_child (P : Node) (c : Component) (ci : option (list Z))
  (rest : list string) :
  comp_get_child_by_name (inst P) (inst_name c) = Some c ->
  comp_ok c -> index_state_ok c ci -> index_known c ci ->
  find_parts P (segment_of c ci :: rest) = find_parts (mkNode c (Some P) ci) rest.
Proof.
  intros Hc Hok Hci Hk. pose proof Hok as (Hkind & Hname & Hdims).
  assert (Hup : String.eqb (segment_of c ci) "^" = false).
  { apply String.eqb_neq. unfold segment_of. intros E.
    destruct Hname as [Hne Hw]. destruct (inst_name c) as [|a nm]; [congruence|].
    rewrite sapp_cons in E. simpl in Hw. apply andb_true_iff in Hw as [Ha _].
    injection E as -> _. discriminate. }
  assert (Hseg : exists idxs,
             segment_of c ci = inst_name c +:+ known_suffix idxs /\
             Forall (fun i => 0 <= i) idxs /\
             match idxs with
             | [] => Ok (mkNode c (Some P) None)
             | _ => index_child (mkNode c (Some P) None) idxs
             end = Ok (mkNode c (Some P) ci)).
  { unfold segment_of, index_known in *.
    destruct (is_addressable (ctype c) && is_array c) eqn:Harr.
    - destruct (Hk eq_refl) as [idxs ->]. exists idxs.
      destruct Hci as (_ & dims & Hd & Hb).
      destruct (Hdims eq_refl) as (dims' & Hd' & Hne).
      rewrite Hd in Hd'. injection Hd' as <-.
      split; [reflexivity|]. split.
      + clear -Hb. induction Hb; constructor; [lia | assumption].
      + apply andb_true_iff in Harr as [Ha Hb'].
        assert (Hlen : length idxs = length dims) by (eapply Forall2_length; exact Hb).
        assert (Hlenb : (length idxs =? length dims)%nat = true)
          by (apply Nat.eqb_eq; exact Hlen).
        assert (Hidx : index_child (mkNode c (Some P) None) idxs
                       = Ok (mkNode c (Some P) (Some idxs))).
        { unfold index_child, is_AddressableNode, node_kind. cbn [inst].
          rewrite Ha, Hb', Hd. cbn [negb rbind require].
          rewrite Hlenb, (check_indexes_in_range _ _ Hb). reflexivity. }
        destruct idxs as [|i idxs]; [destruct dims; [congruence | discriminate]|].
        exact Hidx.
    - destruct ci as [idxs|].
      + destruct Hci as [Hc' _]. congruence.
      + exists []. repeat split; constructor. }
  destruct Hseg as (idxs & Hs & Hpos & Hidx).
  cbn [find_parts]. rewrite Hup, Hs, (match_segment_known _ _ Hname Hpos).
  rewrite (rmap_int0_format _ Hpos). simpl.
  rewrite (get_child_by_name_found _ _ _ Hc Hkind). simpl.
  rewrite Hidx. reflexivity.
Qed.

(** Walking down from an overlay of the same component as [A] along the
    segments of a way down from [A] arrives at an overlay of the same
    component as the end of the way, and at the end itself when started at
    [A]. *)
Lemma find_parts_descend (A N : Node) (segs : list string) :
  reach true A N segs ->
  forall B, inst B = inst A ->
    exists N', find_parts B segs = Ok (Some N') /\
               reach true B N' segs /\
               inst N' = inst N /\
               (B = A -> N' = N).
Proof.
  induction 1 as [|p segs c ci Hp IH Hc Hok Hci Hk]; intros B HB.
  - exists B. repeat split; [constructor | assumption | auto].
  - destruct (IH B HB) as (P' & Hfind & Hreach & Hinst & Heq).
    exists (mkNode c (Some P') ci).
    rewrite find_parts_app, Hfind.
    rewrite find_parts_child; try assumption.
    + repeat split.
      * apply reach_child; try assumption. rewrite Hinst. assumption.
      * intros E. rewrite (Heq E). reflexivity.
    + rewrite Hinst. assumption.
    + apply Hk. reflexivity.
Qed.

Lemma segment_name (c c' : Component) (ci ci' : option (list Z)) :
  comp_ok c -> comp_ok c' ->
  segment_of c ci = segment_of c' ci' -> inst_name c = inst_name c'.
Proof.
  intros (_ & [_ Hw] & _) (_ & [_ Hw'] & _) E.
  assert (Hout : forall (d : Component) (di : option (list Z)),
             starts_outside_word
               (if is_addressable (ctype d) && is_array d then
                  match di with
                  | None => unknown_suffix (default [] (array_dimensions d))
                  | Some idxs => known_suffix idxs
                  end
                else "")).
  { intros d di. destruct (is_addressable (ctype d) && is_array d); [|exact I].
    destruct di; [apply known_suffix_outside | apply unknown_suffix_outside]. }
  apply (f_equal span_word) in E. unfold segment_of in E.
  rewrite (span_word_app _ _ Hw (Hout c ci)) in E.
  rewrite (span_word_app _ _ Hw' (Hout c' ci')) in E.
  congruence.
Qed.

Lemma reach_nil_inv (k : bool) (A Y : Node) : reach k A Y [] -> Y = A.
Proof.
  intros H. remember [] as l eqn:El. destruct H as [|p segs c ci]; [reflexivity|].
  destruct segs; discriminate.
Qed.

Lemma reach_snoc_inv (k : bool) (A Y : Node) (l : list string) (x : string) :
  reach k A Y (l ++ [x]) ->
  exists p c ci,
    Y = mkNode c (Some p) ci /\ reach k A p l /\ x = segment_of c ci /\
    comp_get_child_by_name (inst p) (inst_name c) = Some c /\ comp_ok c.
Proof.
  intros H. remember (l ++ [x]) as l' eqn:El.
  destruct H as [|p segs c ci Hp Hc Hok Hci Hk].
  - destruct l; discriminate.
  - apply app_inj_tail in El as [-> <-]. exists p, c, ci. auto.
Qed.

(** Two overlays of one tree with the same segments lie over the same
    component. *)
Lemma reach_same_inst (k k' : bool) (root X Y : Node) (segs : list string) :
  reach k root X segs -> reach k' root Y segs -> inst X = inst Y.
Proof.
  intros HX. revert Y. induction HX as [|p segs c ci Hp IH Hc Hok Hci Hk]; intros Y HY.
  - rewrite (reach_nil_inv _ _ _ HY). reflexivity.
  - apply reach_snoc_inv in HY as (p' & c' & ci' & -> & Hp' & Eseg & Hc' & Hok').
    simpl. pose proof (IH p' Hp') as Hinst.
    pose proof (segment_name _ _ _ _ Hok Hok' Eseg) as Hname.
    rewrite Hinst, Hname, Hc' in Hc. congruence.
Qed.

(** The uplevel parts take [find_by_path] up the parent chain. *)
Lemma find_parts_climb (k : bool) (root ref : Node) (l : list string) :
  reach k root ref l ->
  forall common ref_left rest, l = common ++ ref_left ->
    exists B, reach k root B common /\
              find_parts ref (repeat "^" (length ref_left) ++ rest) = find_parts B rest.
Proof.
  induction 1 as [|p segs c ci Hp IH Hc Hok Hci Hk]; intros common ref_left rest El.
  - symmetry in El. apply app_eq_nil in El as [-> ->].
    exists root. split; [constructor | reflexivity].
  - destruct (snoc_or_nil ref_left) as [-> | (rl & x & ->)].
    + rewrite app_nil_r in El. subst common.
      exists (mkNode c (Some p) ci). split; [|reflexivity].
      apply reach_child; assumption.
    + rewrite app_assoc in El. apply app_inj_tail in El as [El _].
      destruct (IH common rl rest El) as (B & HB & Hfind).
      exists B. split; [exact HB|].
      rewrite length_app, Nat.add_1_r. simpl. exact Hfind.
Qed.

Lemma pop_common_prefix (sa r s : list string) :
  pop_common (sa ++ r) (sa ++ s) (sa ++ s) = pop_common r s s.
Proof.
  induction sa as [|x sa IH]; [reflexivity|].
  simpl. rewrite String.eqb_refl. exact IH.
Qed.

Lemma pop_common_split (r s : list string) :
  exists c r' s', pop_common r s s = Ok (r', s') /\
                  r = c ++ r' /\ s = c ++ s' /\
                  (r' = [] /\ s' = [] -> r = s).
Proof.
  revert s. induction r as [|x r IH]; intros s.
  - exists [], [], s. simpl. destruct s; repeat split; intros [_ ->]; reflexivity.
  - destruct s as [|y s].
    + exists [], (x :: r), []. repeat split. intros [E _]. discriminate.
    + simpl. destruct (String.eqb_spec x y) as [->|Hne].
      * destruct (IH s) as (c & r' & s' & Hp & -> & -> & Heq).
        exists (y :: c), r', s'. repeat split; [exact Hp|].
        intros H. rewrite (Heq H). reflexivity.
      * exists [], (x :: r), (y :: s). repeat split. intros [E _]. discriminate.
Qed.

Lemma reach_no_dot (A N : Node) (segs : list string) :
  reach true A N segs ->
  Forall (fun s => all_chars (not_char ".") s = true) segs.
Proof.
  induction 1 as [|p segs c ci _ IH _ Hok Hci Hk]; [constructor|].
  apply Forall_app. split; [exact IH|]. constructor; [|constructor].
  destruct Hok as (_ & Hname & _). unfold segment_of, index_known in *.
  destruct (is_addressable (ctype c) && is_array c).
  - destruct (Hk eq_refl eq_refl) as [idxs ->].
    destruct Hci as (_ & dims & _ & Hb).
    apply segment_no_dot; [assumption|].
    clear -Hb. induction Hb; constructor; [lia | assumption].
  - apply (segment_no_dot _ [] Hname). constructor.
Qed.

Lemma reach_root_segments (k : bool) (root N : Node) (segs : list string) :
  root_ok root -> reach k root N segs ->
  get_path_segments default_format N = Ok segs.
Proof.
  intros Hroot H.
  apply (reach_segments k root N [] segs); [intros _; exact (proj2 Hroot) | | exact H].
  apply get_path_segments_root. exact Hroot.
Qed.

Lemma node_eq_same_segments (a b : Node) (segs : list string) :
  get_path_segments default_format a = Ok segs ->
  get_path_segments default_format b = Ok segs ->
  node_eq a b = Ok true.
Proof.
  intros Ha Hb. unfold node_eq, get_path, get_path_with. rewrite Ha, Hb. simpl.
  rewrite String.eqb_refl. reflexivity.
Qed.

Lemma unknown_suffix_no_dot (dims : list Z) :
  all_chars (not_char ".") (unknown_suffix dims) = true.
Proof.
  induction dims as [|d dims IH]; [reflexivity|].
  unfold unknown_suffix in *. cbn [map concat_strings fold_right].
  rewrite all_chars_app. fold (concat_strings (map (fun _ : Z => "[]") dims)).
  rewrite IH. reflexivity.
Qed.

Lemma in_range_nonneg (idxs dims : list Z) :
  Forall2 (fun i d => 0 <= i < d) idxs dims -> Forall (fun i => 0 <= i) idxs.
Proof. induction 1; constructor; [lia | assumption]. Qed.

(** The segments of a way down hold no separator and are not empty. *)
Lemma reach_plain_segments (k : bool) (A N : Node) (segs : list string) :
  reach k A N segs ->
  Forall (fun s => all_chars (not_char ".") s = true /\ s <> "") segs.
Proof.
  induction 1 as [|p segs c ci _ IH _ Hok Hci _]; [constructor|].
  apply Forall_app. split; [exact IH|]. constructor; [|constructor].
  destruct Hok as (_ & Hname & _). split.
  - unfold segment_of. destruct (is_addressable (ctype c) && is_array c).
    + destruct ci as [idxs|].
      * destruct Hci as (_ & dims & _ & Hb).
        apply segment_no_dot; [exact Hname | exact (in_range_nonneg _ _ Hb)].
      * rewrite all_chars_app, unknown_suffix_no_dot, andb_true_r.
        apply (all_chars_impl is_word); [exact is_word_not_dot | exact (proj2 Hname)].
    + apply (segment_no_dot _ [] Hname). constructor.
  - unfold segment_of. destruct Hname as [Hne _].
    destruct (inst_name c) as [|a nm]; [congruence|]. rewrite sapp_cons. discriminate.
Qed.

(** The pattern does not take the empty brackets of an unknown index. *)
Lemma match_segment_unknown (name : string) (dims : list Z) :
  valid_name name -> dims <> [] ->
  match_segment (name +:+ unknown_suffix dims) = None.
Proof.
  intros [Hne Hw] Hd. unfold match_segment.
  rewrite (span_word_app _ _ Hw (unknown_suffix_outside dims)).
  destruct (String.eqb_spec name "") as [|_]; [contradiction|].
  destruct dims as [|d dims]; [congruence|]. reflexivity.
Qed.

Lemma segment_not_uplevel (c : Component) (ci : option (list Z)) :
  comp_ok c -> String.eqb (segment_of c ci) "^" = false.
Proof.
  intros (_ & [Hne Hw] & _). apply String.eqb_neq. unfold segment_of. intros E.
  destruct (inst_name c) as [|a nm]; [congruence|].
  rewrite sapp_cons in E. simpl in Hw. apply andb_true_iff in Hw as [Ha _].
  injection E as -> _. discriminate.
Qed.

(** [find_by_path] stops with [ValueError] at the segment of an array
    overlay whose index is unknown, wherever it stands. *)
Lemma segment_unknown_rejected (c : Component) (cur : Node) (rest : list string) :
  comp_ok c -> is_addressable (ctype c) && is_array c = true ->
  find_parts cur (segment_of c None :: rest) = Raise ValueError.
Proof.
  intros Hok Harr. cbn [find_parts]. rewrite (segment_not_uplevel c None Hok).
  destruct Hok as (_ & Hname & Hdims). destruct (Hdims Harr) as (dims & Hd & Hne).
  unfold segment_of. rewrite Harr, Hd. cbn [default from_option id].
  rewrite (match_segment_unknown _ _ Hname Hne). reflexivity.
Qed.

(** On a way down either every array has a known index, or there is a
    first array overlay whose index is unknown. *)
Lemma reach_known_or_unknown (A N : Node) (segs : list string) :
  reach false A N segs ->
  reach true A N segs \/
  exists P c l1 l2,
    reach true A P l1 /\ comp_ok c /\
    is_addressable (ctype c) && is_array c = true /\
    segs = l1 ++ segment_of c None :: l2.
Proof.
  induction 1 as [|p segs c ci Hp IH Hc Hok Hci _]; [left; constructor|].
  destruct IH as [Ht | (P & c0 & l1 & l2 & HP & Hok0 & Harr0 & ->)].
  - destruct (is_addressable (ctype c) && is_array c) eqn:Harr.
    + destruct ci as [idxs|].
      * left. apply reach_child; try assumption. intros _ _. eauto.
      * right. exists p, c, segs, []. auto.
    + left. apply reach_child; try assumption. intros _ E. congruence.
  - right. exists P, c0, l1, (l2 ++ [segment_of c ci]).
    rewrite <- app_assoc. auto.
Qed.

(** Walking down a way on which some array has an unknown index, from an
    overlay of the component the way starts at. *)
Lemma find_parts_unknown (A B N : Node) (segs : list string) :
  reach false A N segs -> ~ reach true A N segs -> inst B = inst A ->
  find_parts B segs = Raise ValueError.
Proof.
  intros H Hn HB.
  destruct (reach_known_or_unknown _ _ _ H)
    as [Ht | (P & c & l1 & l2 & HP & Hok & Harr & ->)]; [contradiction|].
  destruct (find_parts_descend _ _ _ HP B HB) as (P' & Hfind & _).
  rewrite find_parts_app, Hfind. exact (segment_unknown_rejected c P' l2 Hok Harr).
Qed.

(** The last overlay of a way on which every index is known. *)
Lemma reach_true_last (A N : Node) (l : list string) (x : string) :
  reach true A N (l ++ [x]) -> index_known (inst N) (current_idx N).
Proof.
  intros H. remember (l ++ [x]) as l' eqn:El.
  destruct H as [|p segs c ci Hp Hc Hok Hci Hk].
  - destruct l; discriminate.
  - exact (Hk eq_refl).
Qed.

(** C4, as the code has it.  For a node [N] of the tree other than the
    root, with a known in-range index at every array of its lineage,
    [root.find_by_path(N.get_path())] does not raise and returns [N], an
    overlay equal by path to [N].  For a node [N] of the tree with an array
    of unknown index in its lineage ([N] included), [get_path] gives a path
    with empty brackets and [root.find_by_path] raises [ValueError] on it.
    The path of the root is the empty string, on which [find_by_path]
    raises [ValueError] as well. *)
Theorem find_by_path_get_path (root N : Node) (segs : list string) :
  root_ok root ->
  reach false root N segs ->
  (reach true root N segs -> segs <> [] ->
   exists path N',
     get_path N = Ok path /\
     find_by_path root path = Ok (Some N') /\
     N' = N /\
     node_eq N' N = Ok true) /\
  (~ reach true root N segs ->
   exists path,
     get_path N = Ok path /\
     find_by_path root path = Raise ValueError) /\
  (get_path root = Ok "" /\ find_by_path root "" = Raise ValueError).
Proof.
  intros Hroot HN.
  pose proof (reach_root_segments _ _ _ _ Hroot HN) as Hsegs.
  split; [|split].
  - intros HNt Hne. exists (join "." segs), N.
    unfold get_path, get_path_with. rewrite Hsegs. simpl.
    split; [reflexivity|]. split; [|split; [reflexivity|]].
    + unfold find_by_path.
      rewrite (split_join "." segs Hne (reach_no_dot _ _ _ HNt)).
      destruct (find_parts_descend _ _ _ HNt root eq_refl) as (N' & Hfind & _ & _ & Heq).
      rewrite Hfind, (Heq eq_refl). reflexivity.
    + exact (node_eq_same_segments _ _ _ Hsegs Hsegs).
  - intros Hn. exists (join "." segs).
    unfold get_path, get_path_with. rewrite Hsegs. split; [reflexivity|].
    assert (Hne : segs <> []).
    { intros ->. apply Hn. rewrite (reach_nil_inv _ _ _ HN). constructor. }
    assert (Hdots : Forall (fun s => all_chars (not_char ".") s = true) segs).
    { eapply Forall_impl; [exact (reach_plain_segments _ _ _ _ HN)|].
      intros s [H _]. exact H. }
    unfold find_by_path. rewrite (split_join "." segs Hne Hdots).
    exact (find_parts_unknown root root N segs HN Hn eq_refl).
  - unfold get_path, get_path_with.
    rewrite (get_path_segments_root root default_format Hroot). split; reflexivity.
Qed.

Lemma pop_common_same (s : list string) : pop_common s s s = Ok ([], []).
Proof.
  induction s as [|x s IH]; [reflexivity|].
  simpl. rewrite String.eqb_refl. exact IH.
Qed.

(** The relative path of a node to itself is empty, whenever the node has
    a path at all. *)
Lemma get_rel_path_self (n : Node) (segs : list string) :
  get_path_segments default_format n = Ok segs -> get_rel_path n n = Ok "".
Proof.
  intros H. unfold get_rel_path, get_rel_path_with. rewrite H. simpl.
  rewrite pop_common_same. reflexivity.
Qed.

Lemma Forall_repeat_same {A : Type} (P : A -> Prop) (x : A) (n : nat) :
  P x -> Forall P (repeat x n).
Proof. intros H. induction n; simpl; constructor; assumption. Qed.

Lemma pop_common_diverge (r s : list string) :
  diverge r s -> pop_common r s s = Ok (r, s).
Proof.
  destruct r as [|x r], s as [|y s]; try reflexivity. cbn [diverge pop_common].
  intros Hne. destruct (String.eqb_spec x y); [contradiction | reflexivity].
Qed.

(** C7, as the code has it.  The relative path of a node to itself is the
    empty string, and [find_by_path] raises [ValueError] on the empty
    string, from any node.  For two nodes [self] and [ref] of one tree
    whose paths differ, such that below an ancestor [anchor] that [self]
    shares with [ref] every array in the lineage of [self] has a known
    in-range index, resolving [self.get_rel_path(ref)] from [ref] does not
    raise and gives a node equal by path to [self].  When [anchor] is the
    last overlay they share, the ways to [ref] and to [self] parting below
    it, and some array in the lineage of [self] below [anchor] has an
    unknown index, resolving [self.get_rel_path(ref)] from [ref] raises
    [ValueError]. *)
Theorem rel_path_roundtrip (root anchor self ref : Node) (sa s0 r0 : list string) :
  root_ok root ->
  reach false root anchor sa ->
  reach false root ref (sa ++ r0) ->
  reach false anchor self s0 ->
  get_rel_path self self = Ok "" /\
  (forall n segs, get_path_segments default_format n = Ok segs ->
                  get_rel_path n n = Ok "") /\
  (forall n, find_by_path n "" = Raise ValueError) /\
  (reach true anchor self s0 -> s0 <> r0 ->
   exists path N',
     get_rel_path self ref = Ok path /\
     find_by_path ref path = Ok (Some N') /\
     node_eq N' self = Ok true) /\
  (~ reach true anchor self s0 -> diverge r0 s0 ->
   exists path,
     get_rel_path self ref = Ok path /\
     find_by_path ref path = Raise ValueError).
Proof.
  intros Hroot Hanchor Href Hselff.
  pose proof (reach_root_segments _ _ _ _ Hroot Hanchor) as Hsa.
  pose proof (reach_root_segments _ _ _ _ Hroot Href) as Hsr.
  pose proof (reach_segments _ _ _ _ _ (reach_anchor_ok _ _ _ _ Hroot Hanchor)
                Hsa Hselff) as Hss.
  split; [exact (get_rel_path_self _ _ Hss)|].
  split; [exact get_rel_path_self|].
  split; [reflexivity|].
  split.
  - intros Hself Hdiff.
    destruct (pop_common_split r0 s0) as (c & r' & s' & Hpop & Hr & Hs & Hsame).
    set (parts := repeat "^" (length r') ++ s').
    exists (join "." parts).
    assert (Hrel : get_rel_path self ref = Ok (join "." parts)).
    { unfold get_rel_path, get_rel_path_with. rewrite Hsr, Hss. simpl.
      rewrite pop_common_prefix, Hpop. reflexivity. }
    assert (Hparts : parts <> []).
    { unfold parts. intros E. apply app_eq_nil in E as [E1 E2].
      apply Hdiff. symmetry. apply Hsame. split; [|exact E2].
      destruct r'; [reflexivity | discriminate]. }
    assert (Hdots : Forall (fun s => all_chars (not_char ".") s = true) parts).
    { unfold parts. apply Forall_app. split.
      - apply Forall_repeat_same. reflexivity.
      - pose proof (reach_no_dot _ _ _ Hself) as H. rewrite Hs in H.
        apply Forall_app in H as [_ H]. exact H. }
    subst r0 s0.
    rewrite app_assoc in Href.
    destruct (find_parts_climb _ _ _ _ Href (sa ++ c) r' s' eq_refl)
      as (B & HB & Hclimb).
    destruct (reach_split _ _ _ _ _ Hself) as (M & HM & HMself).
    pose proof (reach_trans _ _ _ _ _ _ Hanchor (reach_weaken _ _ _ _ HM)) as HrootM.
    pose proof (reach_same_inst _ _ _ _ _ _ HB HrootM) as Hinst.
    destruct (find_parts_descend _ _ _ HMself B Hinst) as (N' & Hfind & HBN & _ & _).
    exists N'. split; [exact Hrel|]. split.
    + unfold find_by_path. rewrite (split_join "." parts Hparts Hdots).
      unfold parts. rewrite Hclimb. exact Hfind.
    + apply (node_eq_same_segments _ _ ((sa ++ c) ++ s')).
      * apply (reach_segments true B N' (sa ++ c) s');
          [exact (reach_anchor_ok _ _ _ _ Hroot HB) | | exact HBN].
        exact (reach_root_segments _ _ _ _ Hroot HB).
      * rewrite <- app_assoc. exact Hss.
  - intros Hn Hdiv.
    set (parts := repeat "^" (length r0) ++ s0).
    exists (join "." parts). split.
    + unfold get_rel_path, get_rel_path_with. rewrite Hsr, Hss. simpl.
      rewrite pop_common_prefix, (pop_common_diverge _ _ Hdiv). reflexivity.
    + assert (Hne : s0 <> []).
      { intros ->. apply Hn. rewrite (reach_nil_inv _ _ _ Hselff). constructor. }
      assert (Hparts : parts <> []).
      { unfold parts. intros E. apply app_eq_nil in E as [_ E]. contradiction. }
      assert (Hdots : Forall (fun s => all_chars (not_char ".") s = true) parts).
      { unfold parts. apply Forall_app. split.
        - apply Forall_repeat_same. reflexivity.
        - eapply Forall_impl; [exact (reach_plain_segments _ _ _ _ Hselff)|].
          intros s [H _]. exact H. }
      unfold find_by_path. rewrite (split_join "." parts Hparts Hdots). unfold parts.
      destruct (find_parts_climb _ _ _ _ Href sa r0 s0 eq_refl) as (B & HB & Hclimb).
      rewrite Hclimb.
      apply (find_parts_unknown anchor B self s0 Hselff Hn).
      exact (reach_same_inst _ _ _ _ _ _ HB Hanchor).
Qed.

(** ** The sample tree *)

Ltac sample_comp_ok :=
  unfold comp_ok, valid_name; simpl;
  repeat split; try discriminate;
  try (intros _; eexists; split; [reflexivity | discriminate]).

Ltac sample_index_ok :=
  unfold index_state_ok, index_known; simpl;
  first [ exact I
        | split; [reflexivity | eexists; split; [reflexivity | repeat constructor; lia]]
        | intros; eauto; discriminate ].

Lemma sample_root_ok : root_ok root_n.
Proof. split; reflexivity. Qed.

Lemma sample_top (k : bool) : reach k root_n top_n ["top"].
Proof.
  apply (reach_child k root_n root_n [] top_c None);
    [constructor | reflexivity | sample_comp_ok | exact I | intros _ H; discriminate].
Qed.

Lemma sample_a (k : bool) (A : Node) (l : list string) :
  reach k A top_n l -> reach k A a_n (l ++ ["a"]).
Proof.
  intros H. apply (reach_child k A top_n l reg_a None);
    [exact H | reflexivity | sample_comp_ok | exact I | intros _ E; discriminate].
Qed.

Lemma sample_rf_1 (k : bool) (A : Node) (l : list string) :
  reach k A top_n l -> reach k A rf_1 (l ++ ["rf[1]"]).
Proof.
  intros H. apply (reach_child k A top_n l rf_c (Some [1]));
    [exact H | reflexivity | sample_comp_ok | sample_index_ok | intros _ _; eauto].
Qed.

Lemma sample_rf_unknown : reach false root_n rf_unknown ["top"; "rf[]"].
Proof.
  apply (reach_child false root_n top_n ["top"] rf_c None);
    [apply sample_top | reflexivity | sample_comp_ok | exact I | discriminate].
Qed.

Lemma sample_b_12 (k : bool) (A : Node) (l : list string) :
  reach k A rf_1 l -> reach k A b_12 (l ++ ["b[1][2]"]).
Proof.
  intros H. apply (reach_child k A rf_1 l reg_b (Some [1; 2]));
    [exact H | reflexivity | sample_comp_ok | sample_index_ok | intros _ _; eauto].
Qed.

Lemma sample_under_unknown :
  reach false root_n a_under_unknown (["top"; "rf[]"] ++ ["a"]) /\
  reach true rf_unknown b_12_under_unknown ["b[1][2]"].
Proof.
  split.
  - apply (reach_child false root_n rf_unknown ["top"; "rf[]"] reg_a None);
      [exact sample_rf_unknown | reflexivity | sample_comp_ok | exact I | discriminate].
  - apply (reach_child true rf_unknown rf_unknown [] reg_b (Some [1; 2]));
      [constructor | reflexivity | sample_comp_ok | sample_index_ok
      | intros _ _; eauto].
Qed.

Lemma sample_rf_not_known (A : Node) (l : list string) :
  ~ reach true A rf_unknown (l ++ ["rf[]"]).
Proof.
  intros H. destruct (reach_true_last _ _ _ _ H eq_refl) as [idxs E]. discriminate E.
Qed.

Lemma sample_below_rf_not_known (A : Node) (c : Component) (ci : option (list Z))
  (l : list string) (x : string) :
  ~ reach true A (mkNode c (Some rf_unknown) ci) ((l ++ ["rf[]"]) ++ [x]).
Proof.
  intros H. apply reach_snoc_inv in H as (p & c' & ci' & E & Hp & _).
  injection E as _ <- _. exact (sample_rf_not_known A l Hp).
Qed.

Lemma find_by_path_get_path_witness :
  (exists path N',
     get_path b_12 = Ok path /\
     find_by_path root_n path = Ok (Some N') /\
     N' = b_12 /\
     node_eq N' b_12 = Ok true) /\
  (exists path,
     get_path rf_unknown = Ok path /\
     find_by_path root_n path = Raise ValueError) /\
  (exists path,
     get_path a_under_unknown = Ok path /\
     find_by_path root_n path = Raise ValueError) /\
  (get_path root_n = Ok "" /\ find_by_path root_n "" = Raise ValueError).
Proof.
  destruct (find_by_path_get_path root_n b_12 ["top"; "rf[1]"; "b[1][2]"]
              sample_root_ok
              (sample_b_12 false root_n _ (sample_rf_1 false root_n _ (sample_top false))))
    as (H1 & _ & H4).
  destruct (find_by_path_get_path root_n rf_unknown ["top"; "rf[]"]
              sample_root_ok sample_rf_unknown) as (_ & H2 & _).
  destruct (find_by_path_get_path root_n a_under_unknown ["top"; "rf[]"; "a"]
              sample_root_ok (proj1 sample_under_unknown)) as (_ & H3 & _).
  split; [|split; [|split]].
  - apply H1; [|discriminate].
    exact (sample_b_12 true root_n _ (sample_rf_1 true root_n _ (sample_top true))).
  - apply H2. exact (sample_rf_not_known root_n ["top"]).
  - apply H3. exact (sample_below_rf_not_known root_n reg_a None ["top"] "a").
  - exact H4.
Defined.

(** The claim C4 takes in the array nodes whose index is unknown; their
    path carries empty brackets, which the pattern of [find_by_path]
    rejects.  The path of the root is the empty string, rejected as well. *)
Lemma find_by_path_unknown_index :
  reach false root_n rf_unknown ["top"; "rf[]"] /\
  get_path rf_unknown = Ok "top.rf[]" /\
  find_by_path root_n "top.rf[]" = Raise ValueError /\
  get_path root_n = Ok "" /\
  find_by_path root_n "" = Raise ValueError.
Proof. split; [exact sample_rf_unknown | repeat split]. Qed.

Lemma sample_b_under_unknown :
  reach false top_n b_12_under_unknown ["rf[]"; "b[1][2]"].
Proof.
  apply (reach_child false top_n rf_unknown ["rf[]"] reg_b (Some [1; 2]));
    [|reflexivity | sample_comp_ok | sample_index_ok | discriminate].
  apply (reach_child false top_n top_n [] rf_c None);
    [constructor | reflexivity | sample_comp_ok | exact I | discriminate].
Qed.

Lemma rel_path_roundtrip_witness :
  get_rel_path b_12 b_12 = Ok "" /\
  (exists path N',
     get_rel_path b_12 a_n = Ok path /\
     find_by_path a_n path = Ok (Some N') /\
     node_eq N' b_12 = Ok true) /\
  (exists path N',
     get_rel_path b_12_under_unknown a_under_unknown = Ok path /\
     find_by_path a_under_unknown path = Ok (Some N') /\
     node_eq N' b_12_under_unknown = Ok true) /\
  (exists path,
     get_rel_path b_12_under_unknown a_n = Ok path /\
     find_by_path a_n path = Raise ValueError).
Proof.
  destruct (rel_path_roundtrip root_n top_n b_12 a_n ["top"] ["rf[1]"; "b[1][2]"] ["a"]
              sample_root_ok (sample_top false)
              (sample_a false root_n _ (sample_top false))
              (sample_b_12 false top_n _ (sample_rf_1 false top_n [] (reach_here _ _))))
    as (Hself & _ & _ & Hrt & _).
  destruct (rel_path_roundtrip root_n rf_unknown b_12_under_unknown a_under_unknown
              ["top"; "rf[]"] ["b[1][2]"] ["a"]
              sample_root_ok sample_rf_unknown
              (proj1 sample_under_unknown)
              (reach_weaken _ _ _ _ (proj2 sample_under_unknown)))
    as (_ & _ & _ & Hrt' & _).
  destruct (rel_path_roundtrip root_n top_n b_12_under_unknown a_n
              ["top"] ["rf[]"; "b[1][2]"] ["a"]
              sample_root_ok (sample_top false)
              (sample_a false root_n _ (sample_top false))
              sample_b_under_unknown)
    as (_ & _ & _ & _ & Hno).
  split; [exact Hself|]. split; [|split].
  - apply Hrt; [|discriminate].
    exact (sample_b_12 true top_n _ (sample_rf_1 true top_n [] (reach_here _ _))).
  - apply Hrt'; [|discriminate]. exact (proj2 sample_under_unknown).
  - apply Hno; [|discriminate].
    exact (sample_below_rf_not_known top_n reg_b (Some [1; 2]) [] "b[1][2]").
Defined.

(** The claim C7 asks that the relative path resolve again from the
    reference node for every pair without an index mismatch.  The relative
    path of a node to itself is the empty string, which [find_by_path]
    rejects; and the relative path to an array node with unknown index
    carries empty brackets, rejected as well (the reference [top] has no
    index at all). *)
Lemma rel_path_not_resolved :
  reach false root_n a_n ["top"; "a"] /\
  get_rel_path a_n a_n = Ok "" /\
  find_by_path a_n "" = Raise ValueError /\
  reach false root_n rf_unknown ["top"; "rf[]"] /\
  reach false root_n top_n ["top"] /\
  get_rel_path rf_unknown top_n = Ok "rf[]" /\
  find_by_path top_n "rf[]" = Raise ValueError.
Proof.
  split; [exact (sample_a false root_n _ (sample_top false))|].
  split; [reflexivity|]. split; [reflexivity|].
  split; [exact sample_rf_unknown|].
  split; [exact (sample_top false)|].
  split; reflexivity.
Qed.

(** * Further properties of the code *)

(** ** Raw addresses and the lineage index *)

Lemma lineage_head_addressable (n : Node) :
  Forall (fun m => is_AddressableNode m = true) (lineage n) ->
  is_AddressableNode n = true.
Proof.
  destruct n as [c [p|] ci]; simpl; intros Hl.
  - destruct (is_RootNode p); apply Forall_cons in Hl as [H _]; exact H.
  - apply Forall_cons in Hl as [H _]; exact H.
Qed.

Lemma root_not_addressable (p : Node) :
  is_RootNode p = true -> is_AddressableNode p = false.
Proof.
  unfold is_RootNode, is_AddressableNode. intros H.
  apply bool_decide_eq_true in H. rewrite H. reflexivity.
Qed.

(** The recursion of [raw_absolute_address] up the parents, unrolled along
    the lineage. *)
Lemma raw_absolute_address_lineage (n : Node) :
  Forall (fun m => is_AddressableNode m = true) (lineage n) ->
  raw_absolute_address n = Ok (sum_list (map raw_address_offset (lineage n))).
Proof.
  induction n as [n IH] using Node_lineage_ind. intros Hl.
  pose proof (lineage_head_addressable n Hl) as Hn.
  destruct n as [c [p|] ci]; cbn [raw_absolute_address lineage parent] in *;
    unfold addressable_only; rewrite Hn.
  - destruct (is_RootNode p) eqn:Hr.
    + simpl. f_equal. lia.
    + apply Forall_cons in Hl as [_ Hl].
      rewrite (lineage_head_addressable p Hl), (IH p eq_refl Hl).
      simpl. f_equal. lia.
  - simpl. f_equal. lia.
Qed.

(** X1. On an addressable lineage [raw_absolute_address] is the sum of the
    raw offsets of the node and its ancestors below the root; no current
    index is read, so it does not raise, and it is the same for two
    overlays that differ in their indexes only. *)
Theorem raw_absolute_address_sum (n : Node) :
  Forall (fun m => is_AddressableNode m = true) (lineage n) ->
  raw_absolute_address n = Ok (sum_list (map raw_address_offset (lineage n))) /\
  (forall n', Forall2 (fun m m' => inst m' = inst m) (lineage n) (lineage n') ->
              raw_absolute_address n' = raw_absolute_address n).
Proof.
  intros Hl. split; [exact (raw_absolute_address_lineage n Hl)|].
  intros n' H2. rewrite (raw_absolute_address_lineage n Hl).
  assert (Hl' : Forall (fun m => is_AddressableNode m = true) (lineage n')).
  { clear -Hl H2. induction H2 as [|m m' l l' Hi _ IH]; [constructor|].
    apply Forall_cons in Hl as [Hm Hl]. constructor; [|exact (IH Hl)].
    unfold is_AddressableNode, node_kind in *. rewrite Hi. exact Hm. }
  rewrite (raw_absolute_address_lineage n' Hl'). do 2 f_equal.
  clear -H2. induction H2 as [|m m' l l' Hi _ IH]; [reflexivity|].
  simpl. unfold raw_address_offset at 1 3. rewrite Hi, IH. reflexivity.
Qed.

Lemma raw_absolute_address_sum_witness :
  raw_absolute_address b_12 = Ok (sum_list (map raw_address_offset (lineage b_12))) /\
  (forall n', Forall2 (fun m m' => inst m' = inst m) (lineage b_12) (lineage n') ->
              raw_absolute_address n' = raw_absolute_address b_12).
Proof.
  apply (raw_absolute_address_sum b_12). overlay_facts.
Defined.

Lemma sum_address_offsets_of (l : list Node) (offs : list Z) :
  Forall2 (fun m o => address_offset m = Ok o) l offs ->
  sum_address_offsets l = Ok (sum_list offs).
Proof.
  induction 1 as [|m o l offs Hm _ IH]; [reflexivity|].
  simpl. rewrite IH, Hm. simpl. f_equal. lia.
Qed.

(** X2. When neither the node nor any of its ancestors is an array,
    [absolute_address] is [raw_absolute_address]. *)
Theorem absolute_address_without_arrays (n : Node) :
  Forall (fun m => is_AddressableNode m = true /\ is_array (inst m) = false)
         (lineage n) ->
  absolute_address n = raw_absolute_address n.
Proof.
  intros Hl.
  assert (Ha : Forall (fun m => is_AddressableNode m = true) (lineage n)).
  { eapply Forall_impl; [exact Hl|]. intros m [H _]. exact H. }
  rewrite (absolute_address_lineage n Ha), (raw_absolute_address_lineage n Ha).
  apply sum_address_offsets_of.
  induction Hl as [|m l [Hm Harr] _ IH]; simpl; constructor.
  - unfold address_offset, addressable_only. rewrite Hm, Harr. reflexivity.
  - apply IH. apply Forall_cons in Ha as [_ Ha]. exact Ha.
Qed.

Lemma absolute_address_without_arrays_witness :
  absolute_address a_n = raw_absolute_address a_n.
Proof.
  apply (absolute_address_without_arrays a_n). overlay_facts.
Defined.

Lemma row_major_zeros (dims : list Z) :
  row_major (repeat 0 (length dims)) dims = 0.
Proof.
  induction dims as [|d dims IH]; [reflexivity|].
  simpl repeat. rewrite row_major_cons, IH. lia.
Qed.

Lemma address_offset_zeros (m : Node) (dims : list Z) (stride : Z) :
  is_AddressableNode m = true ->
  array_dimensions (inst m) = Some dims ->
  array_stride (inst m) = Some stride ->
  current_idx m = Some (repeat 0 (length dims)) ->
  address_offset m = Ok (raw_address_offset m).
Proof.
  intros Hm Hd Hs Hc. unfold address_offset, addressable_only.
  rewrite Hm, Hc, Hd, Hs.
  destruct (is_array (inst m)); [|reflexivity].
  assert (E : flat_index (repeat 0 (length dims)) dims = 0).
  { rewrite flat_index_row_major by apply repeat_length. apply row_major_zeros. }
  destruct (repeat 0 (length dims)) eqn:R; simpl.
  - f_equal. lia.
  - rewrite E. simpl. f_equal. lia.
Qed.

Lemma zero_lineage_ok (n : Node) :
  Forall (fun m => is_AddressableNode m = true /\ array_ok (inst m)) (lineage n) ->
  exists n', zero_lineage n = Ok n' /\ inst n' = inst n /\
             Forall2 zeroed (lineage n) (lineage n').
Proof.
  induction n as [n IH] using Node_lineage_ind. intros Hl.
  destruct n as [c p ci].
  assert (Hci : exists ci',
             (if is_array c then
                let! dims := require (array_dimensions c) in
                Ok (Some (repeat 0 (length dims)))
              else Ok ci) = Ok ci' /\
             forall q, zeroed (mkNode c p ci) (mkNode c q ci')).
  { assert (Hok : array_ok c).
    { destruct p as [p|]; simpl in Hl; [destruct (is_RootNode p)|];
        apply Forall_cons in Hl as [[_ H] _]; exact H. }
    unfold zeroed. simpl. destruct (is_array c) eqn:Harr.
    - destruct (Hok Harr) as [[dims Hd] _]. rewrite Hd. simpl. eauto 6.
    - eauto. }
  destruct Hci as (ci' & Hci & Hz).
  cbn [zero_lineage inst parent current_idx]. rewrite Hci. cbn [rbind].
  destruct p as [p|]; cbn [lineage parent] in *.
  - destruct (is_RootNode p) eqn:Hr.
    + rewrite (root_not_addressable p Hr). simpl.
      exists (mkNode c (Some p) ci'). split; [reflexivity|]. split; [reflexivity|].
      simpl. rewrite Hr. constructor; [apply Hz | constructor].
    + apply Forall_cons in Hl as [_ Hl].
      assert (Hp : is_AddressableNode p = true).
      { apply lineage_head_addressable. eapply Forall_impl; [exact Hl|].
        intros m [H _]. exact H. }
      rewrite Hp. destruct (IH p eq_refl Hl) as (p' & Hp' & Hinst & Hall).
      rewrite Hp'. simpl. exists (mkNode c (Some p') ci').
      split; [reflexivity|]. split; [reflexivity|].
      assert (Hr' : is_RootNode p' = false).
      { unfold is_RootNode, node_kind in *. rewrite Hinst. exact Hr. }
      simpl. rewrite Hr'. constructor; [apply Hz | exact Hall].
  - simpl. exists (mkNode c None ci'). split; [reflexivity|]. split; [reflexivity|].
    constructor; [apply Hz | constructor].
Qed.

Lemma zeroed_offsets (l l' : list Node) :
  Forall (fun m => is_AddressableNode m = true /\ array_ok (inst m)) l ->
  Forall2 zeroed l l' ->
  Forall (fun m => is_AddressableNode m = true) l' /\
  Forall2 (fun m o => address_offset m = Ok o) l' (map raw_address_offset l).
Proof.
  intros Hl H. induction H as [|m m' l l' [Hinst Hz] _ IH].
  - split; constructor.
  - apply Forall_cons in Hl as [[Hm Hok] Hl]. destruct (IH Hl) as [IH1 IH2].
    assert (Hm' : is_AddressableNode m' = true).
    { unfold is_AddressableNode, node_kind in *. rewrite Hinst. exact Hm. }
    split; constructor; try assumption.
    unfold raw_address_offset at 1. rewrite <- Hinst.
    destruct (is_array (inst m)) eqn:Harr.
    + destruct Hz as (dims & Hd & Hc). destruct (Hok Harr) as [_ [stride Hs]].
      rewrite <- Hinst in Hd, Hs.
      exact (address_offset_zeros m' dims stride Hm' Hd Hs Hc).
    + unfold address_offset, addressable_only. rewrite Hm', Hinst, Harr.
      unfold raw_address_offset. rewrite Hinst. reflexivity.
Qed.

(** X3. On an addressable, well-formed lineage [zero_lineage_index] leaves
    every overlay of the lineage over its component, sets the index of each
    array to zeros (one per dimension) and leaves the other overlays as they
    were; afterwards [absolute_address] does not raise and is the
    [raw_absolute_address] of the node. *)
Theorem zero_lineage_index_spec (n : Node) :
  Forall (fun m => is_AddressableNode m = true /\ array_ok (inst m)) (lineage n) ->
  exists n',
    zero_lineage_index n = Ok n' /\
    Forall2 zeroed (lineage n) (lineage n') /\
    absolute_address n' = raw_absolute_address n.
Proof.
  intros Hl. destruct (zero_lineage_ok n Hl) as (n' & Hz & _ & Hall).
  assert (Ha : Forall (fun m => is_AddressableNode m = true) (lineage n)).
  { eapply Forall_impl; [exact Hl|]. intros m [H _]. exact H. }
  exists n'. unfold zero_lineage_index, addressable_only.
  rewrite (lineage_head_addressable n Ha). repeat split; [exact Hz | exact Hall |].
  destruct (zeroed_offsets _ _ Hl Hall) as [Ha' Hoffs].
  rewrite (absolute_address_lineage n' Ha'), (raw_absolute_address_lineage n Ha).
  apply sum_address_offsets_of. exact Hoffs.
Qed.

Lemma zero_lineage_index_spec_witness :
  exists n',
    zero_lineage_index b_12_under_unknown = Ok n' /\
    Forall2 zeroed (lineage b_12_under_unknown) (lineage n') /\
    absolute_address n' = raw_absolute_address b_12_under_unknown.
Proof.
  apply (zero_lineage_index_spec b_12_under_unknown). overlay_facts.
Defined.

Lemma clear_lineage_inst (n : Node) : inst (clear_lineage n) = inst n.
Proof. destruct n; reflexivity. Qed.

Lemma clear_lineage_addressable (n : Node) :
  is_AddressableNode (clear_lineage n) = is_AddressableNode n.
Proof. unfold is_AddressableNode, node_kind. rewrite clear_lineage_inst. reflexivity. Qed.

(** Clearing twice is clearing once. *)
Lemma clear_lineage_idem (n : Node) :
  clear_lineage (clear_lineage n) = clear_lineage n.
Proof.
  induction n as [n IH] using Node_lineage_ind. destruct n as [c [p|] ci].
  - cbn [clear_lineage inst parent current_idx]. f_equal.
    + f_equal. destruct (is_AddressableNode p) eqn:Hp.
      * rewrite clear_lineage_addressable, Hp. apply IH. reflexivity.
      * rewrite Hp. reflexivity.
    + destruct (is_array c); reflexivity.
  - cbn [clear_lineage inst parent current_idx]. f_equal.
    destruct (is_array c); reflexivity.
Qed.

(** Zeroing does not see what clearing forgot. *)
Lemma zero_after_clear (n : Node) :
  zero_lineage (clear_lineage n) = zero_lineage n.
Proof.
  induction n as [n IH] using Node_lineage_ind. destruct n as [c [p|] ci].
  - cbn [clear_lineage zero_lineage inst parent current_idx].
    assert (E : (if is_array c then
                   let! dims := require (array_dimensions c) in
                   Ok (Some (repeat 0 (length dims)))
                 else Ok (if is_array c then None else ci))
                = (if is_array c then
                     let! dims := require (array_dimensions c) in
                     Ok (Some (repeat 0 (length dims)))
                   else Ok ci)).
    { destruct (is_array c); reflexivity. }
    rewrite E. destruct (is_AddressableNode p) eqn:Hp.
    + rewrite clear_lineage_addressable, Hp, (IH p eq_refl). reflexivity.
    + rewrite Hp. reflexivity.
  - cbn [clear_lineage zero_lineage inst parent current_idx].
    destruct (is_array c); reflexivity.
Qed.

Lemma clear_lineage_cleared (n : Node) :
  Forall (fun m => is_AddressableNode m = true) (lineage n) ->
  Forall2 cleared (lineage n) (lineage (clear_lineage n)).
Proof.
  induction n as [n IH] using Node_lineage_ind. intros Hl.
  assert (Hself : forall c p ci q,
             cleared (mkNode c p ci)
                     (mkNode c q (if is_array c then None else ci))).
  { intros. split; reflexivity. }
  destruct n as [c [p|] ci]; cbn [clear_lineage lineage inst parent current_idx] in *.
  - destruct (is_RootNode p) eqn:Hr.
    + rewrite (root_not_addressable p Hr), Hr. constructor; [apply Hself | constructor].
    + apply Forall_cons in Hl as [_ Hl].
      rewrite (lineage_head_addressable p Hl).
      assert (Hr' : is_RootNode (clear_lineage p) = false).
      { unfold is_RootNode, node_kind in *. rewrite clear_lineage_inst. exact Hr. }
      rewrite Hr'. constructor; [apply Hself | exact (IH p eq_refl Hl)].
  - constructor; [apply Hself | constructor].
Qed.

Lemma cleared_lineage_facts (l l' : list Node) :
  Forall (fun m => is_AddressableNode m = true /\ array_ok (inst m)) l ->
  Forall2 cleared l l' ->
  Forall (fun m => is_AddressableNode m = true /\ array_ok (inst m)) l' /\
  (Exists (fun m => is_array (inst m) = true) l ->
   Exists (fun m => is_array (inst m) = true /\ current_idx m = None) l').
Proof.
  intros Hl H. induction H as [|m m' l l' [Hinst Hc] _ IH].
  - split; [constructor | intros E; inversion E].
  - apply Forall_cons in Hl as [[Hm Hok] Hl]. destruct (IH Hl) as [IH1 IH2].
    split.
    + constructor; [|exact IH1]. unfold is_AddressableNode, node_kind.
      rewrite Hinst. split; assumption.
    + intros [Harr|Hex]%Exists_cons.
      * apply Exists_cons_hd. rewrite Hinst, Hc, Harr. split; reflexivity.
      * apply Exists_cons_tl, IH2, Hex.
Qed.

(** X4. On an addressable lineage [clear_lineage_index] leaves every
    overlay of the lineage over its component, forgets the index of each
    array and leaves the other overlays as they were.  Clearing again
    changes nothing, zeroing after clearing is zeroing, and once cleared a
    well-formed lineage with an array in it has no [absolute_address]:
    [ValueError]. *)
Theorem clear_lineage_index_spec (n : Node) :
  Forall (fun m => is_AddressableNode m = true) (lineage n) ->
  exists n',
    clear_lineage_index n = Ok n' /\
    Forall2 cleared (lineage n) (lineage n') /\
    clear_lineage_index n' = Ok n' /\
    zero_lineage_index n' = zero_lineage_index n /\
    (Forall (fun m => array_ok (inst m)) (lineage n) ->
     Exists (fun m => is_array (inst m) = true) (lineage n) ->
     absolute_address n' = Raise ValueError).
Proof.
  intros Hl. pose proof (lineage_head_addressable n Hl) as Hn.
  exists (clear_lineage n).
  unfold clear_lineage_index, zero_lineage_index, addressable_only.
  rewrite clear_lineage_addressable, Hn, clear_lineage_idem, zero_after_clear.
  pose proof (clear_lineage_cleared n Hl) as Hc.
  repeat split; try reflexivity; [exact Hc|].
  intros Hok Hex.
  assert (Hwf : Forall (fun m => is_AddressableNode m = true /\ array_ok (inst m))
                       (lineage n)).
  { rewrite Forall_forall in *. intros m Hm. split; auto. }
  destruct (cleared_lineage_facts _ _ Hwf Hc) as [Hwf' Hex'].
  rewrite absolute_address_lineage.
  - apply sum_address_offsets_unknown; [exact Hwf' | exact (Hex' Hex)].
  - eapply Forall_impl; [exact Hwf'|]. intros m [H _]. exact H.
Qed.

Lemma clear_lineage_index_spec_witness :
  exists n',
    clear_lineage_index b_12 = Ok n' /\
    Forall2 cleared (lineage b_12) (lineage n') /\
    clear_lineage_index n' = Ok n' /\
    zero_lineage_index n' = zero_lineage_index b_12 /\
    absolute_address n' = Raise ValueError.
Proof.
  destruct (clear_lineage_index_spec b_12 ltac:(overlay_facts))
    as (n' & H1 & H2 & H3 & H4 & H5).
  exists n'. repeat split; try assumption.
  apply H5; [overlay_facts|]. simpl. apply Exists_cons_hd. reflexivity.
Defined.

(** ** The elements of an array *)

Lemma row_major_bounds (idx dims : list Z) :
  Forall2 (fun i d => 0 <= i < d) idx dims ->
  0 <= row_major idx dims < list_prod dims.
Proof.
  induction 1 as [|i d idx dims Hi _ IH].
  - unfold row_major, list_prod. simpl. lia.
  - rewrite row_major_cons. change (list_prod (d :: dims)) with (d * list_prod dims).
    nia.
Qed.

Lemma row_major_inj (idx idx' dims : list Z) :
  Forall2 (fun i d => 0 <= i < d) idx dims ->
  Forall2 (fun i d => 0 <= i < d) idx' dims ->
  row_major idx dims = row_major idx' dims ->
  idx = idx'.
Proof.
  intros H. revert idx'. induction H as [|i d idx dims Hi Hrest IH]; intros idx' H' E.
  - inversion H'. reflexivity.
  - inversion H' as [|i' d' idx2 dims' Hi' Hrest' E1 E2]. subst.
    rewrite !row_major_cons in E.
    pose proof (row_major_bounds _ _ Hrest) as B.
    pose proof (row_major_bounds _ _ Hrest') as B'.
    assert (i = i') by nia. subst i'.
    f_equal. apply IH; [assumption | lia].
Qed.

Lemma address_offset_in_array (n : Node) (dims cur : list Z) (stride : Z) :
  is_AddressableNode n = true ->
  is_array (inst n) = true ->
  array_dimensions (inst n) = Some dims ->
  array_stride (inst n) = Some stride ->
  current_idx n = Some cur ->
  length cur = length dims ->
  address_offset n = Ok (raw_address_offset n + row_major cur dims * stride).
Proof.
  intros Hn Harr Hd Hs Hc Hlen. unfold address_offset, addressable_only.
  rewrite Hn, Harr, Hc, Hd, Hs. destruct cur as [|i cur].
  - destruct dims; [reflexivity | discriminate].
  - cbn [require rbind]. rewrite flat_index_row_major by exact Hlen. reflexivity.
Qed.

(** X5. An element of an addressable array whose index is within the
    dimensions lies inside the array: with a stride that is not negative,
    its [address_offset] is not below the [raw_address_offset] of the array,
    and the element's stride ends at or before [raw_address_offset +
    total_size]. *)
Theorem element_within_array (env : RDLEnvironment) (lib : Library) (n : Node)
  (dims cur : list Z) (stride : Z) :
  is_AddressableNode n = true ->
  is_array (inst n) = true ->
  array_dimensions (inst n) = Some dims ->
  array_stride (inst n) = Some stride ->
  current_idx n = Some cur ->
  Forall2 (fun i d => 0 <= i < d) cur dims ->
  0 <= stride ->
  exists a t,
    address_offset n = Ok a /\ total_size env lib n = Ok t /\
    raw_address_offset n <= a /\ a + stride <= raw_address_offset n + t.
Proof.
  intros Hn Harr Hd Hs Hc Hb Hst.
  exists (raw_address_offset n + row_major cur dims * stride), (stride * list_prod dims).
  pose proof (row_major_bounds _ _ Hb) as B.
  split; [|split].
  - apply address_offset_in_array; try assumption. exact (Forall2_length _ _ _ Hb).
  - unfold total_size, addressable_only, n_elements. rewrite Hn, Harr, Hs, Hd. reflexivity.
  - nia.
Qed.

Lemma element_within_array_witness :
  exists a t,
    address_offset b_12 = Ok a /\ total_size sample_env sample_lib b_12 = Ok t /\
    raw_address_offset b_12 <= a /\ a + 4 <= raw_address_offset b_12 + t.
Proof.
  apply (element_within_array sample_env sample_lib b_12 [2; 3] [1; 2] 4);
    try reflexivity; [|lia].
  repeat constructor; lia.
Defined.

(** X6. Two overlays of one addressable array, with indexes within the
    dimensions and a stride other than zero, have the same [address_offset]
    only when their indexes are the same. *)
Theorem distinct_elements_apart (n m : Node) (dims cur cur' : list Z) (stride : Z) :
  inst n = inst m ->
  is_AddressableNode n = true ->
  is_array (inst n) = true ->
  array_dimensions (inst n) = Some dims ->
  array_stride (inst n) = Some stride ->
  stride <> 0 ->
  current_idx n = Some cur ->
  current_idx m = Some cur' ->
  Forall2 (fun i d => 0 <= i < d) cur dims ->
  Forall2 (fun i d => 0 <= i < d) cur' dims ->
  address_offset n = address_offset m ->
  cur = cur'.
Proof.
  intros Hi Hn Harr Hd Hs Hst Hc Hc' Hb Hb' E.
  assert (Hm : is_AddressableNode m = true).
  { unfold is_AddressableNode, node_kind in *. rewrite <- Hi. exact Hn. }
  rewrite (address_offset_in_array n dims cur stride) in E;
    try assumption; [|exact (Forall2_length _ _ _ Hb)].
  rewrite (address_offset_in_array m dims cur' stride) in E;
    try (rewrite <- Hi); try assumption; [|exact (Forall2_length _ _ _ Hb')].
  injection E as E. unfold raw_address_offset in E. rewrite Hi in E.
  apply (row_major_inj cur cur' dims Hb Hb'). nia.
Qed.

Lemma distinct_elements_apart_witness : [1; 2] = [1; 2].
Proof.
  apply (distinct_elements_apart b_12 b_12_under_unknown [2; 3] [1; 2] [1; 2] 4);
    try reflexivity; try lia; repeat constructor; lia.
Defined.

(** ** The immediate children *)

Lemma child_nodes_inv (self : Node) (unroll : bool) (c : Component) (ns : list Node) :
  child_nodes self unroll c = Ok ns ->
  Forall (fun N => inst N = c /\ parent N = Some self /\
                   (unroll = false -> current_idx N = None) /\ index_inv N) ns.
Proof.
  unfold child_nodes.
  destruct (unroll && is_addressable (ctype c) && is_array c) eqn:Hu.
  - apply andb_prop in Hu as [Hu Harr]. apply andb_prop in Hu as [-> Hc].
    destruct (array_dimensions c) as [dims|] eqn:Hd; [|discriminate].
    rewrite (unroll_elements self c _ Hc). intros [= <-].
    rewrite Forall_forall. intros N [idxs [<- Hin]]%list_elem_of_In%in_map_iff.
    simpl. split; [reflexivity|]. split; [reflexivity|]. split; [discriminate|].
    unfold index_inv, index_state_ok. simpl.
    rewrite Hc, Harr. split; [reflexivity|]. exists dims. split; [exact Hd|].
    apply product_in_bounds, Hin.
  - unfold _factory. destruct (ctype c); simpl; try discriminate;
      intros [= <-]; repeat constructor.
Qed.

Lemma children_of_inv (self : Node) (unroll skip : bool) (insts : list Component)
  (l : list Node) :
  children_of self unroll skip insts = Ok l ->
  Forall (fun N => inst N ∈ insts /\ parent N = Some self /\
                   (skip = true -> not_present (inst N) = false) /\
                   (unroll = false -> current_idx N = None) /\ index_inv N) l.
Proof.
  revert l. induction insts as [|c rest IH]; intros l; simpl.
  - intros [= <-]. constructor.
  - assert (Hrest : forall l', children_of self unroll skip rest = Ok l' ->
              Forall (fun N => inst N ∈ c :: rest /\ parent N = Some self /\
                   (skip = true -> not_present (inst N) = false) /\
                   (unroll = false -> current_idx N = None) /\ index_inv N) l').
    { intros l' H. eapply Forall_impl; [exact (IH l' H)|].
      intros N (H1 & H2). split; [right; exact H1 | exact H2]. }
    destruct (skip && not_present c) eqn:Hs; [exact (Hrest l)|].
    destruct (child_nodes self unroll c) as [ns|] eqn:Hns; [|discriminate].
    destruct (children_of self unroll skip rest) as [more|]; [|discriminate].
    simpl. intros [= <-]. apply Forall_app. split; [|apply Hrest; reflexivity].
    eapply Forall_impl; [exact (child_nodes_inv _ _ _ _ Hns)|].
    intros N (-> & H2 & H3 & H4). repeat split; try assumption; [left|].
    intros ->. exact Hs.
Qed.

Lemma children_of_plain (self : Node) (skip : bool) (insts : list Component) :
  Forall (fun c => ctype c <> Root) insts ->
  children_of self false skip insts =
  Ok (map (fun c => mkNode c (Some self) None)
          (List.filter (fun c => negb (skip && not_present c)) insts)).
Proof.
  induction 1 as [|c rest Hc _ IH]; [reflexivity|].
  cbn [children_of List.filter]. destruct (skip && not_present c); [exact IH|].
  rewrite IH. unfold child_nodes, _factory. cbn [andb negb].
  destruct (ctype c); try reflexivity. contradiction.
Qed.

(** X7. Every overlay that [children] yields lies over a child instance of
    the node and has the node as parent; with [skip_not_present] its
    instance is present; its index is unknown without [unroll], and
    otherwise unknown or one index within the bound of each dimension of an
    addressable array.  Without [unroll], and when no child instance is a
    root component, [children] does not raise and yields one overlay per
    child instance that is not skipped, in structural order. *)
Theorem children_invariant (self : Node) (unroll skip : bool) :
  (forall l, node_children self unroll skip = Ok l ->
     Forall (fun N => inst N ∈ children (inst self) /\ parent N = Some self /\
                      (skip = true -> not_present (inst N) = false) /\
                      (unroll = false -> current_idx N = None) /\ index_inv N) l) /\
  (Forall (fun c => ctype c <> Root) (children (inst self)) ->
   node_children self false skip =
   Ok (map (fun c => mkNode c (Some self) None)
           (List.filter (fun c => negb (skip && not_present c))
                        (children (inst self))))).
Proof.
  split.
  - intros l. apply children_of_inv.
  - apply children_of_plain.
Qed.

Lemma children_invariant_witness :
  node_children top_n false true =
  Ok [mkNode reg_a (Some top_n) None; mkNode rf_c (Some top_n) None;
      mkNode grp_c (Some top_n) None].
Proof.
  apply (proj2 (children_invariant top_n false true)).
  repeat constructor; discriminate.
Defined.

Lemma find_map_overlay (self : Node) (name : string) (insts : list Component) :
  find (fun N => String.eqb (inst_name (inst N)) name)
       (map (fun c => mkNode c (Some self) None) insts)
  = option_map (fun c => mkNode c (Some self) None)
               (find (fun c => String.eqb (inst_name c) name) insts).
Proof.
  induction insts as [|c rest IH]; [reflexivity|]. simpl.
  destruct (String.eqb (inst_name c) name); [reflexivity | exact IH].
Qed.

(** X8. When no child instance is a root component, [get_child_by_name] is
    the first overlay of that name among the ones [children] yields without
    unrolling and without skipping; so it finds a child that is not present
    as well, and the index of the overlay it returns is unknown. *)
Theorem get_child_by_name_first (self : Node) (name : string) :
  Forall (fun c => ctype c <> Root) (children (inst self)) ->
  exists l,
    node_children self false false = Ok l /\
    get_child_by_name self name =
      Ok (find (fun N => String.eqb (inst_name (inst N)) name) l) /\
    Forall (fun N => current_idx N = None) l.
Proof.
  intros H. exists (map (fun c => mkNode c (Some self) None) (children (inst self))).
  split; [|split].
  - unfold node_children. rewrite (children_of_plain self false _ H).
    cbn [andb negb]. f_equal. f_equal. clear H.
    induction (children (inst self)) as [|c l IH]; [reflexivity|].
    simpl. f_equal. exact IH.
  - rewrite find_map_overlay. unfold get_child_by_name, comp_get_child_by_name.
    destruct (find _ (children (inst self))) as [c|] eqn:Hf; [|reflexivity].
    apply find_some in Hf as [Hin _]. rewrite Forall_forall in H.
    apply list_elem_of_In in Hin. specialize (H c Hin).
    unfold _factory. destruct (ctype c); try reflexivity. contradiction.
  - rewrite Forall_forall. intros N [c [<- _]]%list_elem_of_In%in_map_iff. reflexivity.
Qed.

Lemma get_child_by_name_first_witness :
  exists l,
    node_children top_n false false = Ok l /\
    get_child_by_name top_n "rf" =
      Ok (find (fun N => String.eqb (inst_name (inst N)) "rf") l) /\
    Forall (fun N => current_idx N = None) l.
Proof.
  apply (get_child_by_name_first top_n "rf"). repeat constructor; discriminate.
Defined.

(** ** Descendants *)

Lemma Component_children_ind (P : Component -> Prop) :
  (forall c, Forall P (children c) -> P c) -> forall c, P c.
Proof.
  intros H. fix IH 1. intros [k nm ch pr ao ia ad st]. apply H. simpl.
  induction ch as [|x ch IHch]; constructor; [apply IH | exact IHch].
Qed.

Lemma descendants_at_eq (c : Component) (self : Node) (unroll skip post : bool) :
  descendants_at c self unroll skip post =
  descend_walk self unroll skip post (children c).
Proof.
  destruct c as [k nm ch pr ao ia ad st]. cbn [descendants_at children].
  induction ch as [|x ch IH]; [reflexivity|].
  cbn [descend_walk]. rewrite <- IH.
  destruct (skip && not_present x); [reflexivity|].
  destruct (child_nodes self unroll x) as [ns|e]; [|reflexivity].
  cbn [rbind]. f_equal. induction ns as [|n ns IHns]; [reflexivity|].
  cbn [descend_each]. rewrite <- IHns. reflexivity.
Qed.

Lemma same_yield_bind2 (a a' b b' : result (list Node))
  (f f' : list Node -> list Node -> list Node) :
  same_yield a a' -> same_yield b b' ->
  (forall x x' y y', Permutation x x' -> Permutation y y' ->
                     Permutation (f x y) (f' x' y')) ->
  same_yield (let! x := a in let! y := b in Ok (f x y))
             (let! x := a' in let! y := b' in Ok (f' x y)).
Proof.
  intros Ha Hb Hf. destruct a, a'; simpl in *; try contradiction; [|exact Ha].
  destruct b, b'; simpl in *; try contradiction; [|exact Hb].
  apply Hf; assumption.
Qed.

Lemma descend_walk_same_yield (self : Node) (unroll skip : bool)
  (insts : list Component) :
  Forall (fun c => forall self,
            same_yield (descendants_at c self unroll skip false)
                       (descendants_at c self unroll skip true)) insts ->
  same_yield (descend_walk self unroll skip false insts)
             (descend_walk self unroll skip true insts).
Proof.
  induction 1 as [|c rest Hc _ IH]; [constructor|].
  cbn [descend_walk]. destruct (skip && not_present c); [exact IH|].
  destruct (child_nodes self unroll c) as [ns|e]; [|reflexivity].
  cbn [rbind].
  apply (same_yield_bind2 _ _ _ _ (fun x y => x ++ y) (fun x y => x ++ y));
    [|exact IH|intros; apply Permutation_app; assumption].
  induction ns as [|n ns IHns]; [constructor|].
  cbn [descend_each].
  apply (same_yield_bind2 _ _ _ _ (fun d more => (n :: d) ++ more)
                          (fun d more => (d ++ [n]) ++ more));
    [apply Hc | exact IHns |].
  intros x x' y y' Hx Hy. apply Permutation_app; [|exact Hy].
  rewrite Hx. apply Permutation_cons_append.
Qed.

(** X9. The order of the walk does not change what [descendants] yields:
    run to the end, the pre-order and the post-order walk raise the same
    exception, or yield the same overlays up to their order. *)
Theorem descendants_order_irrelevant (self : Node) (unroll skip : bool) :
  same_yield (descendants self unroll skip false)
             (descendants self unroll skip true).
Proof.
  unfold descendants. generalize (inst self) as c. revert self.
  intros self c. revert self.
  induction c as [c IH] using Component_children_ind. intros self.
  rewrite !descendants_at_eq. apply descend_walk_same_yield. exact IH.
Qed.

Lemma below_trans (A B N : Node) : below A B -> below B N -> below A N.
Proof.
  intros HAB. induction 1 as [N HN | N p HN _ IH].
  - exact (below_deeper A N B HN HAB).
  - exact (below_deeper A N p HN IH).
Qed.

Lemma descend_walk_below (self : Node) (unroll skip post : bool)
  (insts : list Component) (l : list Node) :
  Forall (fun c => forall self l,
            descendants_at c self unroll skip post = Ok l ->
            Forall (fun N => below self N /\ index_inv N) l) insts ->
  descend_walk self unroll skip post insts = Ok l ->
  Forall (fun N => below self N /\ index_inv N) l.
Proof.
  intros H. revert l. induction H as [|c rest Hc _ IH]; intros l.
  - intros [= <-]. constructor.
  - cbn [descend_walk]. destruct (skip && not_present c); [apply IH|].
    destruct (child_nodes self unroll c) as [ns|e] eqn:Hns; [|discriminate].
    cbn [rbind].
    destruct (descend_each unroll skip post c ns) as [sub|] eqn:Hsub; [|discriminate].
    destruct (descend_walk self unroll skip post rest) as [more|]; [|discriminate].
    cbn [rbind]. intros [= <-]. apply Forall_app. split; [|apply IH; reflexivity].
    pose proof (child_nodes_inv _ _ _ _ Hns) as Hinv. clear Hns IH.
    revert sub Hsub. induction Hinv as [|n ns (_ & Hp & _ & Hi) _ IHns]; intros sub.
    + intros [= <-]. constructor.
    + cbn [descend_each].
      destruct (descendants_at c n unroll skip post) as [d|] eqn:Hd; [|discriminate].
      destruct (descend_each unroll skip post c ns) as [more'|]; [|discriminate].
      cbn [rbind]. intros [= <-].
      assert (Hn : below self n /\ index_inv n).
      { split; [exact (below_child self n Hp) | exact Hi]. }
      assert (Hds : Forall (fun N => below self N /\ index_inv N) d).
      { eapply Forall_impl; [exact (Hc n d Hd)|]. intros N [HN HNi].
        split; [exact (below_trans _ _ _ (proj1 Hn) HN) | exact HNi]. }
      apply Forall_app. split; [|apply IHns; reflexivity].
      destruct post.
      * apply Forall_app. split; [exact Hds | constructor; [exact Hn | constructor]].
      * constructor; assumption.
Qed.

(** X10. Every overlay that [descendants] yields lies below the node on its
    parent chain, and its index is unknown or one index within the bound of
    each dimension of an addressable array. *)
Theorem descendants_below (self : Node) (unroll skip post : bool) (l : list Node) :
  descendants self unroll skip post = Ok l ->
  Forall (fun N => below self N /\ index_inv N) l.
Proof.
  unfold descendants. generalize (inst self) as c. intros c. revert self l.
  induction c as [c IH] using Component_children_ind. intros self l.
  rewrite descendants_at_eq. apply descend_walk_below. exact IH.
Qed.

Lemma descendants_below_witness :
  Forall (fun N => below root_n N /\ index_inv N)
         [top_n; a_n; rf_unknown; a_under_unknown;
          mkNode reg_b (Some rf_unknown) None; grp_n;
          mkNode reg_a (Some grp_n) None; mkNode reg_w (Some grp_n) None].
Proof.
  apply (descendants_below root_n false true false). reflexivity.
Defined.

(** ** The top address map *)

Lemma first_addrmap_spec (self : Node) (insts : list Component) :
  match first_addrmap self insts with
  | Ok t =>
      is_AddrmapNode t = true /\ parent t = Some self /\ current_idx t = None /\
      exists before after,
        insts = before ++ inst t :: after /\
        Forall (fun c => ctype c <> Addrmap /\ ctype c <> Root) before
  | Raise e =>
      e = RuntimeError /\
      exists before,
        Forall (fun c => ctype c <> Addrmap /\ ctype c <> Root) before /\
        (insts = before \/ exists r after, insts = before ++ r :: after /\ ctype r = Root)
  end.
Proof.
  induction insts as [|c rest IH]; cbn [first_addrmap].
  - split; [reflexivity|]. exists []. split; [constructor | left; reflexivity].
  - unfold _factory. destruct (ctype c) eqn:Hk; cbn [rbind];
      unfold is_AddrmapNode, node_kind; cbn [inst]; rewrite ?Hk; cbn [bool_decide negb];
      try (destruct (first_addrmap self rest) as [t|e];
           [destruct IH as (H1 & H2 & H3 & before & after & -> & Hb);
            repeat split; try assumption;
            exists (c :: before), after; split; [reflexivity|];
            constructor; [rewrite Hk; split; discriminate | exact Hb]
           |destruct IH as (-> & before & Hb & Hcase); split; [reflexivity|];
            exists (c :: before); split;
            [constructor; [rewrite Hk; split; discriminate | exact Hb]|];
            destruct Hcase as [-> | (r & after & -> & Hr)];
            [left; reflexivity | right; exists r, after; split; [reflexivity | exact Hr]]]).
    + rewrite bool_decide_eq_true_2 by reflexivity. cbn [negb].
      unfold is_AddrmapNode, node_kind. cbn [inst parent current_idx]. rewrite Hk.
      repeat split. exists [], rest. split; [reflexivity | constructor].
    + split; [reflexivity|]. exists []. split; [constructor|].
      right. exists c, rest. split; [reflexivity | exact Hk].
Qed.

(** X11. [top] of the root overlay is the first child that is an address
    map, as an overlay with the root as parent and no index, which is its
    own [owning_addrmap]; it raises [RuntimeError] when the children up to
    the first root component, or all of them, hold no address map, and no
    other exception.  On another overlay there is no [top]:
    [AttributeError]. *)
Theorem top_spec (self : Node) :
  (is_RootNode self = false -> top self = Raise AttributeError) /\
  (is_RootNode self = true ->
   match top self with
   | Ok t =>
       is_AddrmapNode t = true /\ parent t = Some self /\ current_idx t = None /\
       owning_addrmap t = Ok (Some t) /\
       exists before after,
         children (inst self) = before ++ inst t :: after /\
         Forall (fun c => ctype c <> Addrmap /\ ctype c <> Root) before
   | Raise e =>
       e = RuntimeError /\
       exists before,
         Forall (fun c => ctype c <> Addrmap /\ ctype c <> Root) before /\
         (children (inst self) = before \/
          exists r after, children (inst self) = before ++ r :: after /\ ctype r = Root)
   end).
Proof.
  unfold top. split; intros ->; [reflexivity|].
  pose proof (first_addrmap_spec self (children (inst self))) as H.
  destruct (first_addrmap self (children (inst self))) as [t|e]; [|exact H].
  destruct H as (H1 & H2 & H3 & H4). repeat split; try assumption.
  destruct t as [c p ci]. cbn [owning_addrmap]. rewrite H1. reflexivity.
Qed.

Lemma top_spec_witness :
  top a_n = Raise AttributeError /\
  match top root_n with
  | Ok t =>
      is_AddrmapNode t = true /\ parent t = Some root_n /\ current_idx t = None /\
      owning_addrmap t = Ok (Some t) /\
      exists before after,
        children (inst root_n) = before ++ inst t :: after /\
        Forall (fun c => ctype c <> Addrmap /\ ctype c <> Root) before
  | Raise e =>
      e = RuntimeError /\
      exists before,
        Forall (fun c => ctype c <> Addrmap /\ ctype c <> Root) before /\
        (children (inst root_n) = before \/
         exists r after, children (inst root_n) = before ++ r :: after /\ ctype r = Root)
  end.
Proof.
  split.
  - apply (proj1 (top_spec a_n)). reflexivity.
  - apply (proj2 (top_spec root_n)). reflexivity.
Defined.

(** ** Paths, part by part *)

Lemma join_snoc (sep : string) (segs : list string) (s : string) :
  segs <> [] -> join sep (segs ++ [s]) = join sep segs +:+ sep +:+ s.
Proof.
  induction segs as [|x segs IH]; [congruence|]. intros _.
  destruct segs as [|y segs]; [reflexivity|].
  change (join sep ((x :: y :: segs) ++ [s]))
    with (x +:+ sep +:+ join sep ((y :: segs) ++ [s])).
  rewrite IH by discriminate.
  change (join sep (x :: y :: segs)) with (x +:+ sep +:+ join sep (y :: segs)).
  rewrite !sapp_assoc. reflexivity.
Qed.

Lemma get_path_segments_nonempty (fmt : SuffixFormat) (n : Node) (segs : list string) :
  is_RootNode n = false -> get_path_segments fmt n = Ok segs -> segs <> [].
Proof.
  intros Hn. destruct n as [c [p|] ci]; cbn [get_path_segments parent]; rewrite ?Hn.
  - destruct (is_RootNode p); cbn [negb].
    + destruct (get_path_segment fmt _); [|discriminate]. intros [= <-]. discriminate.
    + destruct (get_path_segments fmt p) as [ps|]; [|discriminate].
      cbn [rbind]. destruct (get_path_segment fmt _); [|discriminate].
      intros [= <-]. destruct ps; discriminate.
  - cbn [negb]. destruct (get_path_segment fmt _); [|discriminate].
    intros [= <-]. discriminate.
Qed.

(** X12. The path of an overlay whose parent is not the root overlay is the
    path of the parent, the separator and the segment of the overlay, in
    this order also for what is raised; directly under the root overlay, or
    without parent, the path of an overlay other than the root is its
    segment. *)
Theorem get_path_of_child (sep : string) (fmt : SuffixFormat) (n : Node) :
  (forall p, parent n = Some p -> is_RootNode p = false ->
     get_path_with sep fmt n =
     (let! pp := get_path_with sep fmt p in
      let! seg := get_path_segment fmt n in
      Ok (pp +:+ sep +:+ seg))) /\
  (is_RootNode n = false ->
   match parent n with Some p => is_RootNode p = true | None => True end ->
   get_path_with sep fmt n = get_path_segment fmt n).
Proof.
  split.
  - intros p Hp Hr. unfold get_path_with. destruct n as [c q ci].
    cbn [parent] in Hp. subst q. cbn [get_path_segments parent]. rewrite Hr.
    cbn [negb]. destruct (get_path_segments fmt p) as [ps|e] eqn:Hps; [|reflexivity].
    cbn [rbind]. destruct (get_path_segment fmt _) as [seg|e]; [|reflexivity].
    cbn [rbind]. rewrite join_snoc; [reflexivity|].
    exact (get_path_segments_nonempty fmt p ps Hr Hps).
  - intros Hn Hp. unfold get_path_with. destruct n as [c [p|] ci];
      cbn [parent] in Hp; cbn [get_path_segments parent]; rewrite ?Hp, Hn; cbn [negb];
      destruct (get_path_segment fmt _); reflexivity.
Qed.

Lemma get_path_of_child_witness :
  get_path b_12 =
    (let! pp := get_path rf_1 in
     let! seg := get_path_segment default_format b_12 in
     Ok (pp +:+ "." +:+ seg)) /\
  get_path top_n = get_path_segment default_format top_n.
Proof.
  split.
  - apply (proj1 (get_path_of_child "." default_format b_12) rf_1); reflexivity.
  - apply (proj2 (get_path_of_child "." default_format top_n)); reflexivity.
Defined.

Lemma split_nonempty (sep : ascii) (s : string) : split sep s <> [].
Proof.
  destruct s as [|c s]; simpl; [discriminate|].
  destruct (Ascii.eqb c sep); [discriminate|].
  destruct (split sep s); discriminate.
Qed.

Lemma split_append (sep : ascii) (s t : string) :
  split sep (s +:+ String sep t) = split sep s ++ split sep t.
Proof.
  induction s as [|c s IH].
  - rewrite sapp_nil_l. simpl. rewrite Ascii.eqb_refl. reflexivity.
  - rewrite sapp_cons. cbn [split]. rewrite IH.
    destruct (Ascii.eqb c sep); [reflexivity|].
    pose proof (split_nonempty sep s) as Hne.
    destruct (split sep s) as [|seg segs]; [congruence | reflexivity].
Qed.

(** X13. [find_by_path] goes through a path part by part: on [p.q] it is
    [find_by_path] on [p] and from what that finds [find_by_path] on [q],
    and when the first finds nothing or raises, so does the whole.  An
    uplevel part goes to the parent, and stays where it is on an overlay
    without parent. *)
Theorem find_by_path_compose (self : Node) (p q : string) :
  find_by_path self (p +:+ "." +:+ q) =
    match find_by_path self p with
    | Ok (Some cur) => find_by_path cur q
    | Ok None => Ok None
    | Raise e => Raise e
    end /\
  find_by_path self "^" = Ok (Some (default self (parent self))).
Proof.
  split; [|reflexivity].
  unfold find_by_path. change ("." +:+ q) with (String "." q).
  rewrite split_append. apply find_parts_app.
Qed.

(** ** The indexes [find_by_path] fills in *)

Lemma check_indexes_inv (idx_list dims cur : list Z) :
  length idx_list = length dims ->
  Forall (fun i => 0 <= i) idx_list ->
  check_indexes idx_list dims = Ok cur ->
  cur = idx_list /\ Forall2 (fun i d => 0 <= i < d) cur dims.
Proof.
  revert dims cur. induction idx_list as [|i idxs IH]; intros [|d dims] cur Hlen Hpos;
    simpl in Hlen; try discriminate; cbn [check_indexes].
  - intros [= <-]. split; constructor.
  - apply Forall_cons in Hpos as [Hi Hpos].
    destruct (Z.leb_spec d i); [discriminate|].
    destruct (check_indexes idxs dims) as [cur'|] eqn:Hc; [|discriminate].
    cbn [rbind]. intros [= <-].
    destruct (IH dims cur' ltac:(lia) Hpos Hc) as [-> Hb].
    split; [reflexivity|]. constructor; [lia | exact Hb].
Qed.

Lemma index_child_inv (child N : Node) (idx_list : list Z) :
  Forall (fun i => 0 <= i) idx_list ->
  index_child child idx_list = Ok N ->
  inst N = inst child /\ parent N = parent child /\
  current_idx N = Some idx_list /\ index_inv N.
Proof.
  intros Hpos. unfold index_child.
  destruct (is_AddressableNode child) eqn:Ha; [|discriminate]. cbn [negb].
  destruct (is_array (inst child)) eqn:Harr; [|discriminate].
  destruct (array_dimensions (inst child)) as [dims|] eqn:Hd; [|discriminate].
  cbn [require rbind].
  destruct (Nat.eqb_spec (length idx_list) (length dims)) as [Hlen|]; [|discriminate].
  cbn [negb].
  destruct (check_indexes idx_list dims) as [cur|] eqn:Hc; [|discriminate].
  cbn [rbind]. intros [= <-].
  destruct (check_indexes_inv _ _ _ Hlen Hpos Hc) as [-> Hb].
  split; [reflexivity|]. split; [reflexivity|]. split; [reflexivity|].
  unfold index_inv, index_state_ok. cbn [inst current_idx].
  unfold is_AddressableNode, node_kind in Ha. rewrite Ha, Harr.
  split; [reflexivity|]. exists dims. split; [exact Hd | exact Hb].
Qed.

Lemma ancestors_last (n : Node) (p : Node) :
  parent n = Some p -> last (ancestors n) = last (ancestors p).
Proof.
  intros Hp. destruct n as [c q ci]. cbn [parent] in Hp. subst q.
  cbn [ancestors parent]. rewrite last_cons.
  destruct (last (ancestors p)) eqn:E; [reflexivity|].
  destruct p as [c' q ci']. cbn [ancestors] in E. rewrite last_cons in E.
  destruct (last _); discriminate.
Qed.

Lemma find_parts_invariant (parts : list string) (cur N : Node) :
  find_parts cur parts = Ok (Some N) ->
  Forall index_inv (ancestors cur) ->
  Forall index_inv (ancestors N) /\ last (ancestors N) = last (ancestors cur).
Proof.
  revert cur. induction parts as [|part rest IH]; intros cur; cbn [find_parts].
  - intros [= <-] H. split; [exact H | reflexivity].
  - destruct (String.eqb part "^").
    + intros Hf Hinv. destruct (parent cur) as [p|] eqn:Hp; cbn [default] in Hf.
      * destruct (IH p Hf) as [H1 H2].
        { destruct cur as [c q ci]. cbn [parent] in Hp. subst q.
          cbn [ancestors parent] in Hinv. apply Forall_cons in Hinv as [_ H]. exact H. }
        split; [exact H1|]. rewrite H2. symmetry. apply ancestors_last. exact Hp.
      * exact (IH cur Hf Hinv).
    + destruct (match_segment part) as [[name lits]|]; [|discriminate].
      destruct (rmap int0 lits) as [idx_list|] eqn:Hidx; [|discriminate].
      cbn [rbind]. unfold get_child_by_name.
      destruct (comp_get_child_by_name (inst cur) name) as [c|]; [|discriminate].
      destruct (_factory c (Some cur)) as [child|] eqn:Hfac; [|discriminate].
      cbn [rbind]. intros Hf Hinv.
      assert (Hchild : child = mkNode c (Some cur) None).
      { unfold _factory in Hfac. destruct (ctype c); congruence. }
      subst child.
      assert (Hnext : exists child',
                 find_parts child' rest = Ok (Some N) /\
                 parent child' = Some cur /\ index_inv child').
      { destruct idx_list as [|i idxs].
        - cbn [rbind] in Hf. eexists. split; [exact Hf|]. split; [reflexivity|exact I].
        - destruct (index_child _ (i :: idxs)) as [child'|] eqn:Hic; [|discriminate].
          cbn [rbind] in Hf.
          destruct (index_child_inv _ _ _ (rmap_int0_nonneg _ _ Hidx) Hic)
            as (_ & Hp & _ & Hi).
          exists child'. split; [exact Hf|]. split; [exact Hp | exact Hi]. }
      destruct Hnext as (child' & Hf' & Hp & Hi).
      destruct (IH child' Hf') as [H1 H2].
      { destruct child' as [c' q ci]. cbn [parent] in Hp. subst q.
        cbn [ancestors parent]. constructor; assumption. }
      split; [exact H1|]. rewrite H2. apply ancestors_last. exact Hp.
Qed.

(** X14. [find_by_path] keeps the indexes sound: started on an overlay
    whose chain of parents holds only indexes that are unknown or within
    the dimensions of an addressable array, it returns an overlay of which
    the same is true (so no negative, partial or out-of-range index), and
    whose chain of parents ends where the one of the start does. *)
Theorem find_by_path_invariant (self N : Node) (path : string) :
  find_by_path self path = Ok (Some N) ->
  Forall index_inv (ancestors self) ->
  Forall index_inv (ancestors N) /\ last (ancestors N) = last (ancestors self).
Proof. apply find_parts_invariant. Qed.

Lemma find_by_path_invariant_witness :
  Forall index_inv (ancestors b_12) /\ last (ancestors b_12) = last (ancestors a_n).
Proof.
  apply (find_by_path_invariant a_n b_12 "^.rf[1].b[1][0x2]"); [reflexivity|].
  repeat constructor.
Defined.

(** ** Relative paths along and across the tree *)

Lemma pop_common_ref_done (s f : list string) : pop_common [] s f = Ok ([], f).
Proof. reflexivity. Qed.

Lemma pop_common_self_done (r : list string) : pop_common r [] [] = Ok (r, []).
Proof. destruct r; reflexivity. Qed.

(** X15. Between an overlay [ref] of the tree and an overlay [self] below
    it, the relative path of [self] is made of the segments of the way down
    from [ref], and has no uplevel; the relative path of [ref] from [self]
    is made of as many uplevels as the way has segments, and nothing
    else. *)
Theorem get_rel_path_along (root ref self : Node) (sr s0 : list string) :
  root_ok root ->
  reach false root ref sr ->
  reach false ref self s0 ->
  get_rel_path self ref = Ok (join "." s0) /\
  get_rel_path ref self = Ok (join "." (repeat "^" (length s0))).
Proof.
  intros Hroot Href Hself.
  pose proof (reach_root_segments _ _ _ _ Hroot Href) as Hsr.
  pose proof (reach_segments _ _ _ _ _ (reach_anchor_ok _ _ _ _ Hroot Href)
                Hsr Hself) as Hss.
  unfold get_rel_path, get_rel_path_with. rewrite Hsr, Hss. cbn [rbind]. split.
  - rewrite <- (app_nil_r sr) at 1. rewrite pop_common_prefix, pop_common_ref_done.
    reflexivity.
  - rewrite <- (app_nil_r sr) at 2 3. rewrite pop_common_prefix, pop_common_self_done.
    cbn [rbind fst snd]. rewrite app_nil_r. reflexivity.
Qed.

Lemma get_rel_path_along_witness :
  get_rel_path b_12 top_n = Ok (join "." ["rf[1]"; "b[1][2]"]) /\
  get_rel_path top_n b_12 = Ok (join "." (repeat "^" 2)).
Proof.
  apply (get_rel_path_along root_n top_n b_12 ["top"] ["rf[1]"; "b[1][2]"]).
  - exact sample_root_ok.
  - exact (sample_top false).
  - exact (sample_b_12 false top_n _ (sample_rf_1 false top_n [] (reach_here _ _))).
Defined.

Lemma sapp_inv_l (s a b : string) : s +:+ a = s +:+ b -> a = b.
Proof.
  induction s as [|c s IH]; [rewrite !sapp_nil_l; auto|].
  rewrite !sapp_cons. intros [= E]. exact (IH E).
Qed.

Lemma format_d_first (z : Z) :
  0 <= z -> exists c rest, format_d z = String c rest /\ is_digit c = true.
Proof.
  intros Hz. pose proof (format_d_digits z Hz) as Hd.
  pose proof (format_d_nonempty z) as Hne.
  destruct (format_d z) as [|c rest]; [congruence|].
  simpl in Hd. apply andb_true_iff in Hd as [Hc _]. eauto.
Qed.

(** The segment of an array overlay tells whether its index is known. *)
Lemma segment_known_unknown (c : Component) (idxs : list Z) :
  comp_ok c ->
  is_addressable (ctype c) && is_array c = true ->
  index_state_ok c (Some idxs) ->
  segment_of c (Some idxs) <> segment_of c None.
Proof.
  intros (_ & _ & Hdims) Harr (_ & dims & Hd & Hb) E.
  destruct (Hdims Harr) as (dims' & Hd' & Hne). rewrite Hd in Hd'. injection Hd' as <-.
  unfold segment_of in E. rewrite Harr, Hd in E. apply sapp_inv_l in E.
  destruct Hb as [|i d idxs dims Hi _]; [congruence|].
  rewrite known_suffix_cons in E. unfold unknown_suffix in E. cbn [default map] in E.
  destruct (format_d_first i ltac:(lia)) as (ch & rest & Hf & Hdig).
  rewrite Hf in E. unfold concat_strings in E. cbn [fold_right] in E.
  change ("[]" +:+ ?x) with (String "[" (String "]" x)) in E.
  rewrite sapp_cons in E. injection E as E _. subst ch. discriminate.
Qed.

Lemma pop_common_differ (x y : string) (r s : list string) :
  x <> y -> pop_common (y :: r) (x :: s) (x :: s) = Ok (y :: r, x :: s).
Proof.
  intros Hne. cbn [pop_common]. destruct (String.eqb_spec y x); [congruence | reflexivity].
Qed.

(** X16. An overlay under an element of an array and an overlay under the
    same array with its index unknown do not share the segment of the
    array: the relative path between them, either way, climbs above the
    array and names it again, with the index state of the target. *)
Theorem rel_path_index_mismatch (root self ref : Node) (c : Component)
  (idxs : list Z) (sa s r : list string) :
  root_ok root ->
  comp_ok c ->
  is_addressable (ctype c) && is_array c = true ->
  index_state_ok c (Some idxs) ->
  reach false root self (sa ++ segment_of c (Some idxs) :: s) ->
  reach false root ref (sa ++ segment_of c None :: r) ->
  get_rel_path self ref =
    Ok (join "." (repeat "^" (S (length r)) ++ segment_of c (Some idxs) :: s)) /\
  get_rel_path ref self =
    Ok (join "." (repeat "^" (S (length s)) ++ segment_of c None :: r)).
Proof.
  intros Hroot Hok Harr Hci Hself Href.
  pose proof (reach_root_segments _ _ _ _ Hroot Hself) as Hss.
  pose proof (reach_root_segments _ _ _ _ Hroot Href) as Hsr.
  pose proof (segment_known_unknown c idxs Hok Harr Hci) as Hne.
  unfold get_rel_path, get_rel_path_with. rewrite Hss, Hsr. cbn [rbind]. split.
  - rewrite pop_common_prefix, pop_common_differ by exact Hne. reflexivity.
  - rewrite pop_common_prefix, pop_common_differ by congruence. reflexivity.
Qed.

Lemma rel_path_index_mismatch_witness :
  get_rel_path b_12 a_under_unknown = Ok "^.^.rf[1].b[1][2]" /\
  get_rel_path a_under_unknown b_12 = Ok "^.^.rf[].a".
Proof.
  apply (rel_path_index_mismatch root_n b_12 a_under_unknown rf_c [1]
           ["top"] ["b[1][2]"] ["a"]).
  - exact sample_root_ok.
  - sample_comp_ok.
  - reflexivity.
  - sample_index_ok.
  - exact (sample_b_12 false root_n _ (sample_rf_1 false root_n _ (sample_top false))).
  - exact (proj1 sample_under_unknown).
Defined.

(** ** Equality of overlays *)

(** X17. [__eq__] is an equivalence on the overlays that have a path: it
    holds between an overlay and itself, its answer does not depend on the
    side an overlay stands on, and it passes from two pairs with a common
    overlay to the outer pair. *)
Theorem node_eq_equivalence (a b c : Node) :
  (forall p, get_path a = Ok p -> node_eq a a = Ok true) /\
  (forall r, node_eq a b = Ok r -> node_eq b a = Ok r) /\
  (node_eq a b = Ok true -> node_eq b c = Ok true -> node_eq a c = Ok true).
Proof.
  unfold node_eq. repeat split.
  - intros p ->. cbn [rbind]. rewrite String.eqb_refl. reflexivity.
  - intros r. destruct (get_path a) as [pa|], (get_path b) as [pb|];
      cbn [rbind]; try discriminate. rewrite (String.eqb_sym pb pa). auto.
  - destruct (get_path a) as [pa|], (get_path b) as [pb|], (get_path c) as [pc|];
      cbn [rbind]; try discriminate.
    intros [= ->%String.eqb_eq] [= ->%String.eqb_eq].
    rewrite String.eqb_refl. reflexivity.
Qed.

Lemma node_eq_equivalence_witness :
  node_eq b_12 b_12 = Ok true /\
  node_eq a_n b_12 = Ok false /\
  node_eq b_12 b_12 = Ok true.
Proof.
  destruct (node_eq_equivalence b_12 a_n b_12) as (H1 & H2 & _).
  destruct (node_eq_equivalence b_12 b_12 b_12) as (_ & _ & H3).
  split; [apply (H1 "top.rf[1].b[1][2]"); reflexivity|].
  split; [apply H2; reflexivity | apply H3; reflexivity].
Defined.

Lemma join_empty (sep : string) (segs : list string) :
  Forall (fun s => s <> "") segs -> join sep segs = "" -> segs = [].
Proof.
  intros H E. destruct H as [|x segs Hx _]; [reflexivity|].
  destruct x as [|a x]; [congruence|].
  destruct segs; cbn [join] in E; [|rewrite sapp_cons in E]; discriminate.
Qed.

Lemma join_inj (l l' : list string) :
  Forall (fun s => all_chars (not_char ".") s = true /\ s <> "") l ->
  Forall (fun s => all_chars (not_char ".") s = true /\ s <> "") l' ->
  join "." l = join "." l' -> l = l'.
Proof.
  intros Hl Hl' E.
  assert (Hne : forall m, Forall (fun s => all_chars (not_char ".") s = true /\ s <> "") m ->
                          Forall (fun s => s <> "") m).
  { intros m Hm. eapply Forall_impl; [exact Hm|]. intros s [_ H]. exact H. }
  assert (Hnd : forall m, Forall (fun s => all_chars (not_char ".") s = true /\ s <> "") m ->
                          Forall (fun s => all_chars (not_char ".") s = true) m).
  { intros m Hm. eapply Forall_impl; [exact Hm|]. intros s [H _]. exact H. }
  destruct l as [|x l].
  - symmetry. apply (join_empty "." l' (Hne _ Hl')). symmetry. exact E.
  - destruct l' as [|y l'].
    + apply (join_empty "." (x :: l) (Hne _ Hl)). exact E.
    + rewrite <- (split_join "." (x :: l)) by (try discriminate; exact (Hnd _ Hl)).
      rewrite <- (split_join "." (y :: l')) by (try discriminate; exact (Hnd _ Hl')).
      f_equal. exact E.
Qed.

Lemma known_suffix_inj (idxs idxs' : list Z) :
  Forall (fun i => 0 <= i) idxs -> Forall (fun i => 0 <= i) idxs' ->
  known_suffix idxs = known_suffix idxs' -> idxs = idxs'.
Proof.
  intros H H' E. apply (f_equal (fun s => index_groups s None)) in E.
  rewrite (index_groups_known _ H), (index_groups_known _ H') in E.
  injection E as E. apply (f_equal (rmap int0)) in E.
  rewrite (rmap_int0_format _ H), (rmap_int0_format _ H') in E. congruence.
Qed.

(** The segment of an overlay of a component tells its index state. *)
Lemma segment_of_inj (c : Component) (ci ci' : option (list Z)) :
  comp_ok c -> index_state_ok c ci -> index_state_ok c ci' ->
  segment_of c ci = segment_of c ci' -> ci = ci'.
Proof.
  intros Hok Hci Hci' E.
  destruct (is_addressable (ctype c) && is_array c) eqn:Harr.
  - destruct ci as [idxs|], ci' as [idxs'|]; try reflexivity.
    + unfold segment_of in E. rewrite Harr in E. apply sapp_inv_l in E.
      destruct Hci as (_ & dims & _ & Hb), Hci' as (_ & dims' & _ & Hb').
      f_equal. apply known_suffix_inj;
        [exact (in_range_nonneg _ _ Hb) | exact (in_range_nonneg _ _ Hb') | exact E].
    + destruct (segment_known_unknown c idxs Hok Harr Hci E).
    + symmetry in E. destruct (segment_known_unknown c idxs' Hok Harr Hci' E).
  - destruct ci as [idxs|]; [destruct Hci as [H _]; congruence|].
    destruct ci' as [idxs'|]; [destruct Hci' as [H _]; congruence|]. reflexivity.
Qed.

Lemma reach_snoc_state (k : bool) (A Y : Node) (l : list string) (x : string) :
  reach k A Y (l ++ [x]) ->
  exists p c ci,
    Y = mkNode c (Some p) ci /\ reach k A p l /\ x = segment_of c ci /\
    comp_get_child_by_name (inst p) (inst_name c) = Some c /\ comp_ok c /\
    index_state_ok c ci.
Proof.
  intros H. remember (l ++ [x]) as l' eqn:El.
  destruct H as [|p segs c ci Hp Hc Hok Hci Hk].
  - destruct l; discriminate.
  - apply app_inj_tail in El as [-> <-]. exists p, c, ci. auto 7.
Qed.

(** Two overlays of one tree with the same segments are the same. *)
Lemma reach_inj (k k' : bool) (root X Y : Node) (segs : list string) :
  reach k root X segs -> reach k' root Y segs -> X = Y.
Proof.
  intros HX. revert Y. induction HX as [|p segs c ci Hp IH Hc Hok Hci Hk]; intros Y HY.
  - rewrite (reach_nil_inv _ _ _ HY). reflexivity.
  - apply reach_snoc_state in HY as (p' & c' & ci' & -> & Hp' & Eseg & Hc' & Hok' & Hci').
    pose proof (IH p' Hp') as <-.
    pose proof (segment_name _ _ _ _ Hok Hok' Eseg) as Hname.
    rewrite Hname, Hc' in Hc. injection Hc as <-.
    rewrite (segment_of_inj _ _ _ Hok Hci Hci' Eseg). reflexivity.
Qed.

(** X18. Among the overlays of one tree, equality by path is identity: two
    overlays are equal exactly when they lie over the same component, with
    the same index state, under the same parents. *)
Theorem node_eq_in_tree (k k' : bool) (root N M : Node) (sn sm : list string) :
  root_ok root ->
  reach k root N sn ->
  reach k' root M sm ->
  (node_eq N M = Ok true <-> N = M).
Proof.
  intros Hroot HN HM.
  pose proof (reach_root_segments _ _ _ _ Hroot HN) as Hsn.
  pose proof (reach_root_segments _ _ _ _ Hroot HM) as Hsm.
  split.
  - unfold node_eq, get_path, get_path_with. rewrite Hsn, Hsm. cbn [rbind].
    intros [= E%String.eqb_eq].
    apply join_inj in E;
      [|exact (reach_plain_segments _ _ _ _ HN)|exact (reach_plain_segments _ _ _ _ HM)].
    subst sm. exact (reach_inj _ _ _ _ _ _ HN HM).
  - intros <-. exact (node_eq_same_segments _ _ _ Hsn Hsn).
Qed.

Lemma node_eq_in_tree_witness :
  node_eq b_12 rf_unknown = Ok true <-> b_12 = rf_unknown.
Proof.
  apply (node_eq_in_tree false false root_n b_12 rf_unknown
           ["top"; "rf[1]"; "b[1][2]"] ["top"; "rf[]"]).
  - exact sample_root_ok.
  - exact (sample_b_12 false root_n _ (sample_rf_1 false root_n _ (sample_top false))).
  - exact sample_rf_unknown.
Defined.

(** ** Fields and their registers *)

Section FieldFacts.

Context (env : RDLEnvironment) (lib : Library) (acc : AccessTypes).

(** X19. A field that hardware can write is volatile, whatever its other
    properties are (they are not even looked up). *)
Theorem hw_writable_is_volatile (n : Node) :
  is_hw_writable env lib acc n = Ok true ->
  is_volatile env lib acc n = Ok (VBool true).
Proof.
  unfold is_hw_writable, is_volatile, field_only.
  destruct (is_FieldNode n); [|discriminate].
  destruct (get_property env lib n "hw" ∅) as [hw|]; [|discriminate].
  cbn [rbind]. intros [= ->]. reflexivity.
Qed.

Lemma py_in_both (sw : Value) :
  NoDup [acc_rw acc; acc_rw1 acc; acc_r acc; acc_w acc; acc_w1 acc] ->
  py_in sw [acc_rw acc; acc_rw1 acc; acc_r acc] = true ->
  py_in sw [acc_rw acc; acc_rw1 acc; acc_w acc; acc_w1 acc] = true ->
  py_in sw [acc_rw acc; acc_rw1 acc] = true.
Proof.
  unfold py_in. rewrite !bool_decide_eq_true. intros Hnd Hr Hw.
  apply NoDup_cons in Hnd as [_ Hnd]. apply NoDup_cons in Hnd as [_ Hnd].
  apply NoDup_cons in Hnd as [Hnr _].
  rewrite list_elem_of_In in Hnr. apply list_elem_of_In in Hr, Hw.
  apply list_elem_of_In. simpl in *. intuition congruence.
Qed.

(** X20. A field that software can both read and write implements a
    storage element, provided its [hw] property resolves: the members of
    the access-type enumeration being distinct, its [sw] is then [rw] or
    [rw1]. *)
Theorem sw_read_write_storage (n : Node) :
  NoDup [acc_rw acc; acc_rw1 acc; acc_r acc; acc_w acc; acc_w1 acc] ->
  is_sw_readable env lib acc n = Ok true ->
  is_sw_writable env lib acc n = Ok true ->
  (exists hw, get_property env lib n "hw" ∅ = Ok hw) ->
  implements_storage env lib acc n = Ok true.
Proof.
  unfold is_sw_readable, is_sw_writable, implements_storage, field_only.
  intros Hnd. destruct (is_FieldNode n); [|discriminate].
  destruct (get_property env lib n "sw" ∅) as [sw|]; [|discriminate].
  cbn [rbind]. intros [= Hr] [= Hw] [hw ->]. cbn [rbind].
  rewrite (py_in_both sw Hnd Hr Hw). reflexivity.
Qed.

Lemma any_field_true (self : Node) (test : Node -> result bool)
  (insts : list Component) :
  any_field self test insts = Ok true <->
  exists before c after,
    insts = before ++ c :: after /\
    not_present c = false /\ ctype c = Field /\
    test (mkNode c (Some self) None) = Ok true /\
    passed_over self test before.
Proof.
  unfold passed_over. split.
  - induction insts as [|c rest IH]; cbn [any_field]; [discriminate|].
    assert (Hskip : any_field self test rest = Ok true ->
              (not_present c = false ->
               ctype c <> Root /\
               (ctype c = Field -> test (mkNode c (Some self) None) = Ok false)) ->
              exists before c0 after,
                c :: rest = before ++ c0 :: after /\
                not_present c0 = false /\ ctype c0 = Field /\
                test (mkNode c0 (Some self) None) = Ok true /\
                Forall (fun d => not_present d = false ->
                          ctype d <> Root /\
                          (ctype d = Field -> test (mkNode d (Some self) None) = Ok false))
                       before).
    { intros H Hc. destruct (IH H) as (before & c0 & after & -> & H1 & H2 & H3 & H4).
      exists (c :: before), c0, after. repeat split; try assumption.
      constructor; assumption. }
    destruct (not_present c) eqn:Hp.
    + intros H. apply Hskip; [exact H | discriminate].
    + unfold _factory, is_FieldNode, node_kind.
      destruct (ctype c) eqn:Hk; cbn [rbind inst]; rewrite ?Hk;
        try discriminate;
        try (intros H; apply Hskip; [exact H|]; intros _; split; discriminate).
      rewrite bool_decide_eq_true_2 by reflexivity.
      destruct (test (mkNode c (Some self) None)) as [[|]|] eqn:Ht; cbn [rbind];
        try discriminate.
      * intros _. exists [], c, rest. repeat split; try assumption. constructor.
      * intros H. apply Hskip; [exact H|]. intros _. split; [discriminate|auto].
  - intros (before & c & after & -> & Hp & Hk & Ht & Hb).
    induction Hb as [|d before Hd _ IH]; cbn [app any_field].
    + rewrite Hp. unfold _factory, is_FieldNode, node_kind. rewrite Hk. cbn [rbind inst].
      rewrite Hk, bool_decide_eq_true_2 by reflexivity. rewrite Ht. reflexivity.
    + destruct (not_present d); [exact IH|]. destruct (Hd eq_refl) as [Hr Hf].
      unfold _factory, is_FieldNode, node_kind.
      destruct (ctype d) eqn:Hkd; cbn [rbind inst]; rewrite ?Hkd;
        try contradiction; try exact IH.
      rewrite bool_decide_eq_true_2 by reflexivity. rewrite (Hf eq_refl). exact IH.
Qed.

Lemma any_field_false (self : Node) (test : Node -> result bool)
  (insts : list Component) :
  any_field self test insts = Ok false <-> passed_over self test insts.
Proof.
  unfold passed_over. induction insts as [|c rest IH]; cbn [any_field].
  - split; [constructor | reflexivity].
  - rewrite Forall_cons. destruct (not_present c) eqn:Hp.
    + rewrite IH. split; [intros H; split; [discriminate | exact H] | intros [_ H]; exact H].
    + unfold _factory, is_FieldNode, node_kind.
      destruct (ctype c) eqn:Hk; cbn [rbind inst]; rewrite ?Hk;
        try (rewrite bool_decide_eq_false_2 by discriminate; rewrite IH;
             split; [intros H; split; [intros _; split; discriminate | exact H]
                    |intros [_ H]; exact H]).
      * rewrite bool_decide_eq_true_2 by reflexivity.
        destruct (test (mkNode c (Some self) None)) as [[|]|] eqn:Ht; cbn [rbind].
        -- split; [discriminate|]. intros [H _]. destruct (H eq_refl) as [_ Hf].
           specialize (Hf eq_refl). discriminate.
        -- rewrite IH. split; [|intros [_ H]; exact H].
           intros H. split; [|exact H]. intros _. split; [discriminate | auto].
        -- split; [discriminate|]. intros [H _]. destruct (H eq_refl) as [_ Hf].
           specialize (Hf eq_refl). discriminate.
      * split; [discriminate|]. intros [H _]. destruct (H eq_refl) as [Hr _].
        contradiction.
Qed.

(** X21. [has_sw_writable] of a register answers yes exactly when some
    present field of it is writable by software and the loop gets to it:
    no child instance before it is a present root component, and each
    present field before it answers no without raising; what comes after
    it is not looked at.  It answers no exactly when this is so of all the
    child instances. *)
Theorem has_sw_writable_spec (n : Node) :
  is_RegNode n = true ->
  (has_sw_writable env lib acc n = Ok true <->
   exists before c after,
     children (inst n) = before ++ c :: after /\
     not_present c = false /\ ctype c = Field /\
     is_sw_writable env lib acc (mkNode c (Some n) None) = Ok true /\
     passed_over n (is_sw_writable env lib acc) before) /\
  (has_sw_writable env lib acc n = Ok false <->
   passed_over n (is_sw_writable env lib acc) (children (inst n))).
Proof.
  intros Hn. unfold has_sw_writable. rewrite Hn.
  split; [apply any_field_true | apply any_field_false].
Qed.

(** X22. [has_sw_readable] of a register answers yes exactly when some
    present field of it is readable by software and the loop gets to it,
    and no exactly when every present child instance is passed over: no
    root component, and the fields not readable. *)
Theorem has_sw_readable_spec (n : Node) :
  is_RegNode n = true ->
  (has_sw_readable env lib acc n = Ok true <->
   exists before c after,
     children (inst n) = before ++ c :: after /\
     not_present c = false /\ ctype c = Field /\
     is_sw_readable env lib acc (mkNode c (Some n) None) = Ok true /\
     passed_over n (is_sw_readable env lib acc) before) /\
  (has_sw_readable env lib acc n = Ok false <->
   passed_over n (is_sw_readable env lib acc) (children (inst n))).
Proof.
  intros Hn. unfold has_sw_readable. rewrite Hn.
  split; [apply any_field_true | apply any_field_false].
Qed.

End FieldFacts.

Lemma hw_writable_is_volatile_witness :
  is_volatile sample_env sample_lib sample_acc fld_ro_n = Ok (VBool true).
Proof.
  apply (hw_writable_is_volatile sample_env sample_lib sample_acc fld_ro_n).
  reflexivity.
Defined.

Lemma sw_read_write_storage_witness :
  implements_storage sample_env sample_lib sample_acc fld_rw_n = Ok true.
Proof.
  apply (sw_read_write_storage sample_env sample_lib sample_acc fld_rw_n).
  - apply (bool_decide_unpack _). reflexivity.
  - reflexivity.
  - reflexivity.
  - exists (VStr "r"). reflexivity.
Defined.

Lemma has_sw_writable_spec_witness :
  has_sw_writable sample_env sample_lib sample_acc reg_f_n = Ok true.
Proof.
  apply (proj1 (has_sw_writable_spec sample_env sample_lib sample_acc reg_f_n eq_refl)).
  exists [fld_off; fld_ro], fld_rw, [].
  split; [reflexivity|]. split; [reflexivity|]. split; [reflexivity|].
  split; [reflexivity|].
  constructor; [intros H; discriminate|].
  constructor; [|constructor]. intros _. split; [discriminate|]. intros _. reflexivity.
Defined.

Lemma has_sw_readable_spec_witness :
  has_sw_readable sample_env sample_lib sample_acc reg_f_n = Ok true.
Proof.
  apply (proj1 (has_sw_readable_spec sample_env sample_lib sample_acc reg_f_n eq_refl)).
  exists [fld_off], fld_ro, [fld_rw].
  split; [reflexivity|]. split; [reflexivity|]. split; [reflexivity|].
  split; [reflexivity|].
  constructor; [intros H; discriminate | constructor].
Defined.

(** ** Children by kind, and children among the descendants *)

Lemma filtered_children (self : Node) (unroll skip : bool) (keep : Node -> bool)
  (l : list Node) :
  (let! ch := node_children self unroll skip in Ok (List.filter keep ch)) = Ok l ->
  exists ch, node_children self unroll skip = Ok ch /\ l = List.filter keep ch /\
    Forall (fun N => keep N = true /\ inst N ∈ children (inst self) /\
                     parent N = Some self /\
                     (skip = true -> not_present (inst N) = false) /\
                     (unroll = false -> current_idx N = None) /\ index_inv N) l.
Proof.
  destruct (node_children self unroll skip) as [ch|] eqn:Hch; [|discriminate].
  cbn [rbind]. intros [= <-]. exists ch. split; [reflexivity|]. split; [reflexivity|].
  pose proof (children_of_inv self unroll skip _ ch Hch) as Hinv.
  rewrite Forall_forall in *. intros N [HN Hk]%list_elem_of_In%filter_In.
  split; [exact Hk|]. apply Hinv, list_elem_of_In, HN.
Qed.

(** X23. [signals], [fields] and [registers] yield, in the order of
    [children], the overlays of [children] that are signals, fields and
    registers: each has the node as parent and lies over a child instance
    (a present one when not-present children are skipped); signals and
    fields come without index, registers with an index only under [unroll],
    then within the dimensions.  They raise when [children] does. *)
Theorem children_by_kind (self : Node) (unroll skip : bool) :
  (forall l, signals self skip = Ok l ->
     exists ch, node_children self false skip = Ok ch /\
       l = List.filter is_SignalNode ch /\
       Forall (fun N => is_SignalNode N = true /\ parent N = Some self /\
                        current_idx N = None) l) /\
  (forall l, fields self skip = Ok l ->
     exists ch, node_children self false skip = Ok ch /\
       l = List.filter is_FieldNode ch /\
       Forall (fun N => is_FieldNode N = true /\ parent N = Some self /\
                        current_idx N = None) l) /\
  (forall l, registers self unroll skip = Ok l ->
     exists ch, node_children self unroll skip = Ok ch /\
       l = List.filter is_RegNode ch /\
       Forall (fun N => is_RegNode N = true /\ parent N = Some self /\
                        (unroll = false -> current_idx N = None) /\ index_inv N) l) /\
  (forall e, node_children self false skip = Raise e ->
     signals self skip = Raise e /\ fields self skip = Raise e) /\
  (forall e, node_children self unroll skip = Raise e ->
     registers self unroll skip = Raise e).
Proof.
  unfold signals, fields, registers.
  split; [|split; [|split; [|split]]].
  - intros l H. destruct (filtered_children _ _ _ _ _ H) as (ch & H1 & H2 & H3).
    exists ch. split; [exact H1|]. split; [exact H2|].
    eapply Forall_impl; [exact H3|]. intros N (K & _ & P & _ & I & _). auto.
  - intros l H. destruct (filtered_children _ _ _ _ _ H) as (ch & H1 & H2 & H3).
    exists ch. split; [exact H1|]. split; [exact H2|].
    eapply Forall_impl; [exact H3|]. intros N (K & _ & P & _ & I & _). auto.
  - intros l H. destruct (filtered_children _ _ _ _ _ H) as (ch & H1 & H2 & H3).
    exists ch. split; [exact H1|]. split; [exact H2|].
    eapply Forall_impl; [exact H3|]. intros N (K & _ & P & _ & I & J). auto.
  - intros e ->. split; reflexivity.
  - intros e ->. reflexivity.
Qed.

Lemma children_by_kind_witness :
  exists ch, node_children signals_n false true = Ok ch /\
    [mkNode sig_s (Some signals_n) None] = List.filter is_SignalNode ch /\
    Forall (fun N => is_SignalNode N = true /\ parent N = Some signals_n /\
                     current_idx N = None) [mkNode sig_s (Some signals_n) None].
Proof.
  apply (proj1 (children_by_kind signals_n false true)). reflexivity.
Defined.

Lemma descend_each_holds_children (unroll skip post : bool) (c : Component)
  (ns sub : list Node) :
  descend_each unroll skip post c ns = Ok sub -> Forall (fun N => N ∈ sub) ns.
Proof.
  revert sub. induction ns as [|n ns IH]; intros sub; [constructor|].
  cbn [descend_each].
  destruct (descendants_at c n unroll skip post) as [d|]; [|discriminate].
  destruct (descend_each unroll skip post c ns) as [more|]; [|discriminate].
  cbn [rbind]. intros [= <-]. constructor.
  - apply elem_of_app. left. destruct post; [apply elem_of_app; right|]; left.
  - eapply Forall_impl; [exact (IH more eq_refl)|].
    intros N HN. apply elem_of_app. right. exact HN.
Qed.

(** X24. When [descendants] runs to its end, so does [children] with the
    same switches, and every overlay that [children] yields is among the
    descendants. *)
Theorem children_among_descendants (self : Node) (unroll skip post : bool)
  (l : list Node) :
  descendants self unroll skip post = Ok l ->
  exists ch, node_children self unroll skip = Ok ch /\ Forall (fun N => N ∈ l) ch.
Proof.
  unfold descendants, node_children. rewrite descendants_at_eq.
  generalize (children (inst self)) as insts. intros insts. revert l.
  induction insts as [|c rest IH]; intros l; cbn [descend_walk children_of].
  - intros [= <-]. exists []. split; [reflexivity | constructor].
  - destruct (skip && not_present c); [apply IH|].
    destruct (child_nodes self unroll c) as [ns|]; [|discriminate]. cbn [rbind].
    destruct (descend_each unroll skip post c ns) as [sub|] eqn:Hsub; [|discriminate].
    destruct (descend_walk self unroll skip post rest) as [more|]; [|discriminate].
    cbn [rbind]. intros [= <-]. destruct (IH more eq_refl) as (ch & -> & Hch).
    cbn [rbind]. exists (ns ++ ch). split; [reflexivity|]. apply Forall_app. split.
    + eapply Forall_impl; [exact (descend_each_holds_children _ _ _ _ _ _ Hsub)|].
      intros N HN. apply elem_of_app. left. exact HN.
    + eapply Forall_impl; [exact Hch|].
      intros N HN. apply elem_of_app. right. exact HN.
Qed.

Lemma children_among_descendants_witness :
  exists ch, node_children top_n true true = Ok ch /\
    Forall (fun N => N ∈ [a_n; mkNode rf_c (Some top_n) (Some [0]);
                          mkNode reg_a (Some (mkNode rf_c (Some top_n) (Some [0]))) None;
                          mkNode reg_b (Some (mkNode rf_c (Some top_n) (Some [0]))) (Some [0; 0]);
                          mkNode reg_b (Some (mkNode rf_c (Some top_n) (Some [0]))) (Some [0; 1]);
                          mkNode reg_b (Some (mkNode rf_c (Some top_n) (Some [0]))) (Some [0; 2]);
                          mkNode reg_b (Some (mkNode rf_c (Some top_n) (Some [0]))) (Some [1; 0]);
                          mkNode reg_b (Some (mkNode rf_c (Some top_n) (Some [0]))) (Some [1; 1]);
                          mkNode reg_b (Some (mkNode rf_c (Some top_n) (Some [0]))) (Some [1; 2]);
                          rf_1;
                          mkNode reg_a (Some rf_1) None;
                          mkNode reg_b (Some rf_1) (Some [0; 0]);
                          mkNode reg_b (Some rf_1) (Some [0; 1]);
                          mkNode reg_b (Some rf_1) (Some [0; 2]);
                          mkNode reg_b (Some rf_1) (Some [1; 0]);
                          mkNode reg_b (Some rf_1) (Some [1; 1]);
                          b_12; grp_n;
                          mkNode reg_a (Some grp_n) None; mkNode reg_w (Some grp_n) None]) ch.
Proof.
  apply (children_among_descendants top_n true true false). reflexivity.
Defined.

(** ** Virtual registers and fields *)

(** X25. A field is virtual exactly when its register lies directly in a
    memory: on a field overlay [is_virtual] answers when the parent is a
    register, and then as the register does, yes if and only if the parent
    of the register is a memory; otherwise, the parent being none or no
    register, it raises [AssertionError], and nothing else. *)
Theorem field_is_virtual_spec (n : Node) :
  is_FieldNode n = true ->
  match field_is_virtual n with
  | Ok b =>
      exists p, parent n = Some p /\ is_RegNode p = true /\
                reg_is_virtual p = Ok b /\
                (b = true <-> exists g, parent p = Some g /\ is_MemNode g = true)
  | Raise e =>
      e = AssertionError /\ forall p, parent n = Some p -> is_RegNode p = false
  end.
Proof.
  intros Hn. unfold field_is_virtual. rewrite Hn.
  destruct (parent n) as [p|]; [|split; [reflexivity | discriminate]].
  destruct (is_RegNode p) eqn:Hp.
  - unfold reg_is_virtual. rewrite Hp. exists p. rewrite Hp.
    split; [reflexivity|]. split; [reflexivity|]. split; [reflexivity|].
    destruct (parent p) as [g|].
    + split; [intros H; exists g; auto | intros (g' & [= <-] & H); exact H].
    + split; [discriminate | intros (g' & H & _); discriminate].
  - split; [reflexivity|]. intros p' [= <-]. exact Hp.
Qed.

Lemma field_is_virtual_spec_witness :
  match field_is_virtual fld_rw_n with
  | Ok b =>
      exists p, parent fld_rw_n = Some p /\ is_RegNode p = true /\
                reg_is_virtual p = Ok b /\
                (b = true <-> exists g, parent p = Some g /\ is_MemNode g = true)
  | Raise e =>
      e = AssertionError /\ forall p, parent fld_rw_n = Some p -> is_RegNode p = false
  end.
Proof.
  apply (field_is_virtual_spec fld_rw_n). reflexivity.
Defined.
